(** * Fly-Pie: angular layout, item ids, menu session and shortcut reconciliation

    A shallow embedding of [src/server/Menu.js] and [src/daemon/Daemon.js].

    Conventions of the embedding.
    - A JavaScript number is an exact rational ([Q]); rounding, infinities and
      NaN of IEEE doubles are not represented.  Results that were computed are
      compared with [==] ([Qeq]), values that were only stored with [=].
    - A property that may be missing from a JavaScript object is an [option];
      [None] is [undefined] (or [null] for [_menuID]).
    - An array is a [list]; [items[k].angle = v] is stdpp's [<[k:=v]>] on the
      column of angles.  The source only writes at indices below the length.
    - Calls into collaborators whose code is outside the repository part at
      hand (the background actor, the shortcut table) are recorded in a log. *)

From Stdlib Require Import ZArith QArith Qabs Qround Lia Lqa Sorted Ascii.
From stdpp Require Import base list strings pretty.

Open Scope Q_scope.

(** ** JavaScript numbers *)

Module JS.

(** [x < y] on numbers. *)
Definition lt (x y : Q) : bool := negb (Qle_bool y x).

(** [x <= y] on numbers. *)
Definition le (x y : Q) : bool := Qle_bool x y.

(** Truthiness of a number: every number except [0] (NaN is not represented). *)
Definition truthy (x : Q) : bool := negb (Qeq_bool x 0).

(** Truthiness of a property holding a number or [undefined]. *)
Definition truthy_opt (x : option Q) : bool :=
  match x with
  | Some v => truthy v
  | None => false
  end.

(** Truthiness of a property holding a string or [undefined]: the empty
    string and [undefined] are falsy. *)
Definition truthy_str (x : option string) : bool :=
  match x with
  | Some EmptyString => false
  | Some (String _ _) => true
  | None => false
  end.

(** Rounding towards zero. *)
Definition trunc (x : Q) : Z := Z.quot (Qnum x) (Z.pos (Qden x)).

(** [x % m]: the remainder has the sign of the dividend. *)
Definition rem (x m : Q) : Q := x - m * inject_Z (trunc (x / m)).

End JS.

(** ** The layout of one menu level ([Menu._updateItemAngles], lines 242-340)

    The loops of one level only read and write the [angle] property of the
    items of that level, so they are embedded on the column of angles. *)

Record FixedAngle := mkFixed { fa_angle : Q; fa_index : nat }.

Module Layout.

(** Lines 242-247: [items.forEach((item, index) => if (item.angle) push)]. *)
Fixpoint collectFrom (index : nat) (items : list (option Q)) : list FixedAngle :=
  match items with
  | [] => []
  | a :: rest =>
      match a with
      | Some v =>
          if JS.truthy v then mkFixed v index :: collectFrom (S index) rest
          else collectFrom (S index) rest
      | None => collectFrom (S index) rest
      end
  end.

Definition collectFixed (items : list (option Q)) : list FixedAngle :=
  collectFrom 0 items.

(** Lines 250-258: [true] when the loop runs to its end, [false] when it
    hits one of the two [return false].  [prev] is [fixedAngles[i - 1]]
    ([None] when [i = 0]). *)
Fixpoint checkFixed (prev : option Q) (fixedAngles : list FixedAngle) : bool :=
  match fixedAngles with
  | [] => true
  | f :: rest =>
      if match prev with
         | Some p => JS.le (fa_angle f) p
         | None => false
         end
      then false
      else if JS.lt (fa_angle f) 0 || JS.le 360 (fa_angle f) then false
      else checkFixed (Some (fa_angle f)) rest
  end.

(** Lines 262-268: [true] when the loop hits its [return false]. *)
Definition parentCollides (fixedAngles : list FixedAngle) (parentAngle : option Q) : bool :=
  if JS.truthy_opt parentAngle then
    match parentAngle with
    | Some p => existsb (fun f => JS.lt (Qabs (fa_angle f - p)) 1) fixedAngles
    | None => false
    end
  else false.

(** Lines 273-276. *)
Definition firstAngle (parentAngle : option Q) : Q :=
  match parentAngle with
  | Some p => if JS.truthy p && JS.lt p 180 then 270 else 90
  | None => 90
  end.

(** Lines 325-339, the [while (index != wedgeEndIndex)] loop.  [None] when
    the fuel runs out before the loop condition fails. *)
Fixpoint wedgeWhile (fuel : nat) (len : nat) (wedgeBeginAngle wedgeItemGap : Q)
    (parentAngle : option Q) (wedgeEndIndex : nat)
    (index : nat) (count : Z) (parentGapRequired : bool)
    (items : list (option Q)) : option (list (option Q)) :=
  match fuel with
  | O => None
  | S fuel' =>
      if Nat.eqb index wedgeEndIndex then Some items
      else
        let itemAngle := wedgeBeginAngle + wedgeItemGap * inject_Z count in
        let insertGap :=
          parentGapRequired &&
          match parentAngle with
          | Some p => JS.lt 0 (itemAngle + wedgeItemGap / 2 - p)
          | None => false
          end in
        let count1 := if insertGap then (count + 1)%Z else count in
        let itemAngle1 :=
          if insertGap then wedgeBeginAngle + wedgeItemGap * inject_Z count1
          else itemAngle in
        let parentGapRequired1 := if insertGap then false else parentGapRequired in
        wedgeWhile fuel' len wedgeBeginAngle wedgeItemGap parentAngle wedgeEndIndex
          ((index + 1) mod len)%nat (count1 + 1)%Z parentGapRequired1
          (<[index := Some (JS.rem itemAngle1 360)]> items)
  end.

(** Lines 285-339: one turn of the [for] loop over the fixed angles, for the
    wedge from [fb = fixedAngles[i]] to [fe = fixedAngles[(i + 1) % length]].
    The state is the column of angles and [parentAngle], which line 308 may
    change for the wedges that follow.  The [while] loop ends within
    [length items] turns (lemma [wedgeBody_spec]), so the fuel given here is
    never used up. *)
Definition wedgeBody (fb fe : FixedAngle) (st : list (option Q) * option Q)
    : list (option Q) * option Q :=
  let '(items, parentAngle) := st in
  let len := length items in
  let wedgeBeginIndex := fa_index fb in
  let wedgeBeginAngle := fa_angle fb in
  let wedgeEndIndex := fa_index fe in
  let wedgeEndAngle :=
    if JS.le wedgeBeginAngle (fa_angle fe) then fa_angle fe + 360 else fa_angle fe in
  let wedgeItemCount :=
    Z.rem (Z.of_nat wedgeEndIndex - Z.of_nat wedgeBeginIndex - 1 + Z.of_nat len)
          (Z.of_nat len) in
  let parentAngle1 :=
    match parentAngle with
    | Some p => if JS.lt p wedgeBeginAngle then Some (p + 360) else Some p
    | None => None
    end in
  let parentInWedge :=
    match parentAngle1 with
    | Some p => JS.lt wedgeBeginAngle p && JS.lt p wedgeEndAngle
    | None => false
    end in
  let wedgeItemCount1 := if parentInWedge then (wedgeItemCount + 1)%Z else wedgeItemCount in
  let wedgeItemGap := (wedgeEndAngle - wedgeBeginAngle) / inject_Z (wedgeItemCount1 + 1) in
  match wedgeWhile (S len) len wedgeBeginAngle wedgeItemGap parentAngle1 wedgeEndIndex
          ((wedgeBeginIndex + 1) mod len)%nat 1%Z parentInWedge items with
  | Some items1 => (items1, parentAngle1)
  | None => (items, parentAngle1)
  end.

(** The default of the two array reads below; the loop only reads below the
    length of [fixedAngles]. *)
Definition noFixed : FixedAngle := mkFixed 0 0.

Definition wedge (fixedAngles : list FixedAngle) (i : nat)
    (st : list (option Q) * option Q) : list (option Q) * option Q :=
  wedgeBody (nth i fixedAngles noFixed)
            (nth ((i + 1) mod length fixedAngles)%nat fixedAngles noFixed) st.

(** Lines 284-340: [for (let i = 0; i < fixedAngles.length; i++)]. *)
Definition wedges (fixedAngles : list FixedAngle) (st : list (option Q) * option Q)
    : list (option Q) * option Q :=
  fold_left (fun st i => wedge fixedAngles i st) (seq 0 (length fixedAngles)) st.

(** Lines 236-340 on the column of angles.  [None] is [return false]; [Some]
    carries the angles as they are when line 342 is reached (or at the
    [return true] of line 237). *)
Definition level (items : list (option Q)) (parentAngle : option Q)
    : option (list (option Q)) :=
  if Nat.eqb (length items) 0 then Some items
  else
    let fixedAngles := collectFixed items in
    if negb (checkFixed None fixedAngles) then None
    else if parentCollides fixedAngles parentAngle then None
    else
      let '(fixedAngles1, items1) :=
        if Nat.eqb (length fixedAngles) 0 then
          ([mkFixed (firstAngle parentAngle) 0],
           <[0%nat := Some (firstAngle parentAngle)]> items)
        else (fixedAngles, items) in
      Some (fst (wedges fixedAngles1 (items1, parentAngle))).

End Layout.

(** ** Menu items and the menu structure *)

(** What [new MenuItem({height, width, icon, state, ...})] is given; the
    position of an actor is computed with sines and cosines from the angle
    and is left out. *)
Inductive MenuItemState := ACTIVE | CHILD | GRANDCHILD.

Record Actor := mkActor {
  actor_size : Z;
  actor_icon : option string;
  actor_state : MenuItemState }.

(** One item of the structure handed to [Menu.show]. *)
#[local] Unset Elimination Schemes.
Inductive MenuItem := mkItem {
  item_id : option string;
  item_angle : option Q;
  item_icon : option string;
  item_items : option (list MenuItem);
  item_actor : option Actor }.
#[local] Set Elimination Schemes.

(** The root object: [{icon, items, actor}]; the constructor stores [{}]. *)
Record Structure := mkStructure {
  str_icon : option string;
  str_items : option (list MenuItem);
  str_actor : option Actor }.

Definition emptyStructure : Structure := mkStructure None None None.

(** ** [Menu._updateItemAngles] on the tree *)

(** Line 345: [(item.angle + 180) % 360].  For an item without an angle the
    JavaScript value is NaN, which fails every test of the callee exactly as
    [undefined] does; [Layout.level] leaves no item of a level without an
    angle, so that case does not arise. *)
Definition childParentAngle (a : option Q) : option Q :=
  match a with
  | Some v => Some (JS.rem (v + 180) 360)
  | None => None
  end.

(** [resolve item a] is [item] once line 335 (or 278) has stored [a] in its
    [angle] and the callback of lines 343-349 has run on it.  The inner call
    lays out the children; when it returns [false] the children are as they
    were, and the [return false] of line 346 leaves only the callback. *)
Fixpoint resolve (item : MenuItem) (a : option Q) : MenuItem :=
  match item with
  | mkItem i _ ic ch ac =>
      mkItem i a ic
        match ch with
        | None => None
        | Some children =>
            match Layout.level (map item_angle children) (childParentAngle a) with
            | None => Some children
            | Some angles =>
                Some ((fix each (cs : list MenuItem) (angles : list (option Q)) :=
                         match cs, angles with
                         | c :: cs', a' :: angles' => resolve c a' :: each cs' angles'
                         | _, _ => []
                         end) children angles)
            end
        end
        ac
  end.

(** The items of a level once each holds its angle of the column [angles]
    and the callback has run on it. *)
Definition resolveAll (items : list MenuItem) (angles : list (option Q)) : list MenuItem :=
  zip_with resolve items angles.

(** [_updateItemAngles(items, parentAngle)]: the returned flag and the items
    as the call leaves them. *)
Definition _updateItemAngles (items : list MenuItem) (parentAngle : option Q)
    : bool * list MenuItem :=
  match Layout.level (map item_angle items) parentAngle with
  | None => (false, items)
  | Some angles => (true, resolveAll items angles)
  end.

(** ** [Menu._updateItemIDs] *)

(** Lines 212-218 for [items[i]]. *)
Definition newID (parentID : option string) (i : nat) (id : option string) : option string :=
  if JS.truthy_str id then id
  else
    match parentID with
    | Some p => if JS.truthy_str parentID then Some (p +:+ "/" +:+ pretty i)
                else Some ("/" +:+ pretty i)
    | None => Some ("/" +:+ pretty i)
    end.

(** The body of the [for] loop (lines 211-223) for [items[i]]. *)
Fixpoint updateItemID (parentID : option string) (i : nat) (item : MenuItem) : MenuItem :=
  match item with
  | mkItem id a ic ch ac =>
      let id1 := newID parentID i id in
      mkItem id1 a ic
        match ch with
        | None => None
        | Some children =>
            Some ((fix loop (k : nat) (cs : list MenuItem) :=
                     match cs with
                     | [] => []
                     | c :: cs' => updateItemID id1 k c :: loop (S k) cs'
                     end) 0%nat children)
        end
        ac
  end.

Fixpoint updateItemIDsFrom (parentID : option string) (i : nat) (items : list MenuItem)
    : list MenuItem :=
  match items with
  | [] => []
  | c :: cs => updateItemID parentID i c :: updateItemIDsFrom parentID (S i) cs
  end.

(** [_updateItemIDs(items, parentID)]. *)
Definition _updateItemIDs (items : list MenuItem) (parentID : option string) : list MenuItem :=
  updateItemIDsFrom parentID 0 items.

(** ** The menu session ([Menu.show], [Menu._hide]) *)

(** The codes of [DBusInterface.errorCodes] that [Menu.js] and [Daemon.js]
    name; [common/DBusInterface.js] gives each a negative number. *)
Inductive ErrorCode :=
  | eUnknownError | eInvalidJSON | ePropertyMissing
  | eInvalidAngles | eNoSuchMenu | eAlreadyActive.

(** What [show] returns: an error code or the id of the menu. *)
Inductive ShowResult :=
  | Failed (code : ErrorCode)
  | Opened (menuID : Z).

(** Calls on [this._background], in the order they are made. *)
Inductive BackgroundCall :=
  | remove_child (a : Actor)
  | bg_show (editMode : bool)
  | bg_hide
  | add_child (a : Actor).

Record Menu := mkMenu {
  _menuID : option Z;
  _structure : Structure;
  _editMode : bool;
  _background : list BackgroundCall }.

(** The fields the constructor sets (lines 35-37). *)
Definition newMenu : Menu := mkMenu None emptyStructure false [].

(** Line 92, [if (this._menuID)]: [null] and [0] are falsy. *)
Definition menuID_truthy (id : option Z) : bool :=
  match id with
  | Some n => negb (Z.eqb n 0)
  | None => false
  end.

(** Lines 151-185: every item of the first two levels gets its actor. *)
Definition withActor (size : Z) (st : MenuItemState) (item : MenuItem) : MenuItem :=
  mkItem (item_id item) (item_angle item) (item_icon item) (item_items item)
         (Some (mkActor size (item_icon item) st)).

Definition createActors (items : list MenuItem) : list MenuItem :=
  map (fun item =>
         let item1 := withActor 50 CHILD item in
         mkItem (item_id item1) (item_angle item1) (item_icon item1)
                (option_map (map (withActor 10 GRANDCHILD)) (item_items item1))
                (item_actor item1))
      items.

(** [show(menuID, structure, editMode)].  [grab] is what
    [this._background.show(editMode)] answers when it is reached. *)
Definition show (m : Menu) (menuID : Z) (structure : Structure) (editMode : bool)
    (grab : bool) : ShowResult * Menu :=
  if menuID_truthy (_menuID m) then (Failed eAlreadyActive, m)
  else
    match str_items structure with
    | None => (Failed ePropertyMissing, m)
    | Some [] => (Failed ePropertyMissing, m)
    | Some (first :: others) =>
        let items := first :: others in
        let bg1 :=
          match str_actor (_structure m) with
          | Some a => _background m ++ [remove_child a]
          | None => _background m
          end in
        let '(ok, items1) := _updateItemAngles items None in
        if negb ok then
          (Failed eInvalidAngles,
           mkMenu (_menuID m)
                  (mkStructure (str_icon structure) (Some items1) (str_actor structure))
                  editMode bg1)
        else
          let items2 := _updateItemIDs items1 None in
          let bg2 := bg1 ++ [bg_show editMode] in
          if negb grab then
            (Failed eUnknownError,
             mkMenu (_menuID m)
                    (mkStructure (str_icon structure) (Some items2) (str_actor structure))
                    editMode bg2)
          else
            let actor := mkActor 100 (str_icon structure) ACTIVE in
            (Opened menuID,
             mkMenu (Some menuID)
                    (mkStructure (str_icon structure) (Some (createActors items2)) (Some actor))
                    editMode (bg2 ++ [add_child actor]))
    end.

(** [_hide()]. *)
Definition _hide (m : Menu) : Menu :=
  match _menuID m with
  | None => m
  | Some _ => mkMenu None (_structure m) (_editMode m) (_background m ++ [bg_hide])
  end.

(** ** The daemon ([Daemon._openCustomMenu], [Daemon._onMenuConfigsChanged]) *)

Record Daemon := mkDaemon {
  _menu : Menu;
  _nextID : Z }.

(** The constructor: a new menu, and line 50, [this._nextID = 0]. *)
Definition newDaemon : Daemon := mkDaemon newMenu 0.

(** [_openCustomMenu(config, previewMode)] for a [config] that is already an
    object: [this._menu.show(this._nextID++, structure, previewMode)].  With
    lines 142-149, for a [config] that is a string, it is
    [_openCustomMenuConfig]. *)
Definition _openCustomMenu (d : Daemon) (config : Structure) (previewMode : bool)
    (grab : bool) : ShowResult * Daemon :=
  let '(r, m) := show (_menu d) (_nextID d) config previewMode grab in
  (r, mkDaemon m (_nextID d + 1)%Z).

Definition ShowCustomMenu (d : Daemon) (config : Structure) (grab : bool) :=
  _openCustomMenu d config false grab.

Definition PreviewCustomMenu (d : Daemon) (config : Structure) (grab : bool) :=
  _openCustomMenu d config true grab.

(** One entry of the [menu-configuration] setting; [data] holds the hotkey. *)
Record MenuConfig := mkConfig {
  cfg_name : string;
  cfg_data : string }.

(** Calls on [this._shortcuts], in the order they are made. *)
Inductive ShortcutCall :=
  | unbind (shortcut : string)
  | bind (shortcut : string).

(** A JavaScript [Set] of strings: its elements in insertion order. *)
Module StringSet.

Definition has (s : list string) (x : string) : bool := bool_decide (x ∈ s).

Definition add (s : list string) (x : string) : list string :=
  if has s x then s else s ++ [x].

Definition delete (s : list string) (x : string) : list string :=
  filter (fun y => y ≠ x) s.

End StringSet.

(** Lines 236-242. *)
Definition requiredShortcuts (menuConfigs : list MenuConfig) : list string :=
  fold_left (fun newShortcuts c =>
               if bool_decide (cfg_data c ≠ "") then StringSet.add newShortcuts (cfg_data c)
               else newShortcuts)
            menuConfigs [].

(** Lines 247-253: the set left to bind and the calls made. *)
Definition unbindLoop (bound : list string) (newShortcuts : list string)
    : list string * list ShortcutCall :=
  fold_left (fun '(newShortcuts, calls) existingShortcut =>
               if StringSet.has newShortcuts existingShortcut
               then (StringSet.delete newShortcuts existingShortcut, calls)
               else (newShortcuts, calls ++ [unbind existingShortcut]))
            bound (newShortcuts, []).

(** [_onMenuConfigsChanged()], given the parsed setting and what
    [this._shortcuts.getBound()] iterates over: the calls it makes on
    [this._shortcuts]. *)
Definition _onMenuConfigsChanged (menuConfigs : list MenuConfig) (bound : list string)
    : list ShortcutCall :=
  let '(newShortcuts, calls) := unbindLoop bound (requiredShortcuts menuConfigs) in
  calls ++ map bind newShortcuts.

(** ** Small trees used in the examples *)

Definition leaf (a : option Q) : MenuItem := mkItem None a None None None.

Definition node (a : option Q) (children : list MenuItem) : MenuItem :=
  mkItem None a None (Some children) None.

Definition menuOf (items : list MenuItem) : Structure := mkStructure None (Some items) None.

(** ** Induction on menu items *)

Section MenuItemInduction.

Variable P : MenuItem → Prop.

Hypothesis step : ∀ id a ic ch ac,
  match ch with
  | Some children => Forall P children
  | None => True
  end →
  P (mkItem id a ic ch ac).

Fixpoint MenuItem_ind (item : MenuItem) : P item :=
  match item with
  | mkItem id a ic ch ac =>
      step id a ic ch ac
        match ch with
        | Some children =>
            (fix all (l : list MenuItem) : Forall P l :=
               match l with
               | [] => @List.Forall_nil _ P
               | c :: l' => @List.Forall_cons _ P c l' (MenuItem_ind c) (all l')
               end) children
        | None => I
        end
  end.

End MenuItemInduction.

(** ** Notions used in the statements *)

(** The fixed angles of a level, in the order in which line 245 pushes them. *)
Definition fixedAnglesOf (items : list MenuItem) : list Q :=
  map fa_angle (Layout.collectFixed (map item_angle items)).

(** The [angle] property once an exact [0] is taken for no angle. *)
Definition withoutZero (a : option Q) : option Q :=
  match a with
  | Some v => if Qeq_bool v 0 then None else Some v
  | None => None
  end.

(** The item without its [angle] property. *)
Definition clearAngle (item : MenuItem) : MenuItem :=
  mkItem (item_id item) None (item_icon item) (item_items item) (item_actor item).

(** The angle of item [k] of [n] when the circle is divided evenly from 90
    degrees on: [90 + k * (360 / n)], less a full turn from 360 on. *)
Definition spaced (n k : nat) : Q :=
  let x := 90 + inject_Z (Z.of_nat k) * (360 / inject_Z (Z.of_nat n)) in
  if JS.lt x 360 then x else x - 360.

(** The indices the loop of lines 325-339 visits when it starts at [index]
    and stops at [e], going round through the end of the array. *)
Definition between (index e k : nat) : bool :=
  if (index <=? e)%nat then (index <=? k)%nat && (k <? e)%nat
  else (index <=? k)%nat || (k <? e)%nat.

(** The number of turns of that loop. *)
Definition turns (len index e : nat) : nat :=
  if (index <=? e)%nat then (e - index)%nat else (len - index + e)%nat.

(** The positions written by the wedges that start at the fixed angles with
    the numbers [ws]. *)
Definition covered (F : list FixedAngle) (len : nat) (ws : list nat) (k : nat) : bool :=
  existsb (fun i =>
             between ((fa_index (nth i F Layout.noFixed) + 1) mod len)
                     (fa_index (nth ((i + 1) mod length F) F Layout.noFixed)) k)
          ws.

(** The node of a tree at a path of child indices. *)
Fixpoint lookupPath (items : list MenuItem) (path : list nat) : option MenuItem :=
  match path with
  | [] => None
  | k :: rest =>
      match items !! k with
      | None => None
      | Some item =>
          match rest with
          | [] => Some item
          | _ :: _ =>
              match item_items item with
              | Some children => lookupPath children rest
              | None => None
              end
          end
      end
  end.

(** The string a missing or empty id stands for in [parentID + '/' + i]. *)
Definition idString (id : option string) : string :=
  match id with
  | Some s => s
  | None => ""
  end.

(** The id of the parent of the nodes below [path]: [parentID] for the
    items of the top level. *)
Definition parentPath (items : list MenuItem) (parentID : option string) (path : list nat)
    : string :=
  match path with
  | [] => idString parentID
  | _ :: _ => idString (item ← lookupPath items path; item_id item)
  end.

(** The shortcuts a configuration asks for: the non-empty [data] strings of
    its entries. *)
Definition desired (menuConfigs : list MenuConfig) (s : string) : Prop :=
  s ≠ "" ∧ ∃ c, c ∈ menuConfigs ∧ cfg_data c = s.

(** ** The handlers of the background actor ([Menu.js], lines 51-73) *)

(** The signals of [this._background] that the constructor connects. *)
Inductive BackgroundEvent :=
  | button_release_event (button : Z)
  | edit_cancel
  | edit_save
  | motion_event.

(** A call of [this._onCancel(this._menuID)], with the id it is given. *)
Inductive Callback :=
  | onCancel (menuID : option Z).

(** The handler of the event: the callbacks it makes and the menu after it. *)
Definition handleEvent (m : Menu) (ev : BackgroundEvent) : list Callback * Menu :=
  match ev with
  | button_release_event button =>
      if Z.eqb button 3 && negb (_editMode m) then ([onCancel (_menuID m)], _hide m)
      else ([], m)
  | edit_cancel => ([onCancel (_menuID m)], _hide m)
  | edit_save => ([onCancel (_menuID m)], _hide m)
  | motion_event => ([], m)
  end.

(** ** [Menu._clampToToMonitor] *)

Module JSMath.

(** [Math.max(a, b)] and [Math.min(a, b)]. *)
Definition max (a b : Q) : Q := if JS.lt a b then b else a.

Definition min (a b : Q) : Q := if JS.lt b a then b else a.

(** [Math.floor(a)], an integer. *)
Definition floor (a : Q) : Z := Qfloor a.

End JSMath.

(** [_clampToToMonitor(x, y, width, height, margin)] for a current monitor
    of the given width and height. *)
Definition _clampToToMonitor (monitor_width monitor_height : Q)
    (x y width height margin : Q) : Z * Z :=
  let minX := margin + width / 2 in
  let minY := margin + height / 2 in
  let maxX := monitor_width - margin - width / 2 in
  let maxY := monitor_height - margin - height / 2 in
  let posX := JSMath.min (JSMath.max x minX) maxX in
  let posY := JSMath.min (JSMath.max y minY) maxY in
  (JSMath.floor posX, JSMath.floor posY).

(** ** Requests in sequence *)

(** The [config] of [_openCustomMenu]: a JSON string, as [ShowCustomMenu] and
    [PreviewCustomMenu] receive it, or an object, as [_openMenu] passes it. *)
Inductive Config :=
  | json (s : string)
  | object (structure : Structure).

(** What [JSON.parse(config)] does: it throws, or it returns [null], or it
    returns a value whose properties [show] reads as those of a structure
    (a number, a string, a boolean and an array have no [items]). *)
Inductive Parsed :=
  | SyntaxError
  | parsed_null
  | parsed (structure : Structure).

Section Requests.

Variable JSON_parse : string → Parsed.

(** What the handler of an event (Menu.js, lines 51-73) makes of the
    daemon's menu.  The handlers touch fields of the menu only.  Which
    fields depends on the callbacks the menu was constructed with: a handler
    whose call [this._onCancel(this._menuID)] throws, as it does for a menu
    constructed with two callbacks (Daemon.js, lines 40-47) where the
    constructor takes three, does not get to [this._hide()] and leaves the
    menu as it is; with a callable [onCancel] it is [handleEvent]. *)
Variable handle : Menu → BackgroundEvent → Menu.

(** [_openCustomMenu(config, previewMode)] for either kind of [config].  A
    string that [JSON.parse] rejects is answered at line 147, before
    [this._nextID++] of line 154 is evaluated.  For [null] the argument of
    line 154 is evaluated, and [show] either returns at line 93 or throws at
    [structure.items] of line 97, which ends in line 160. *)
Definition _openCustomMenuConfig (d : Daemon) (config : Config) (previewMode grab : bool)
    : ShowResult * Daemon :=
  match config with
  | object structure => _openCustomMenu d structure previewMode grab
  | json s =>
      match JSON_parse s with
      | SyntaxError => (Failed eInvalidJSON, d)
      | parsed_null =>
          (Failed (if menuID_truthy (_menuID (_menu d)) then eAlreadyActive
                   else eUnknownError),
           mkDaemon (_menu d) (_nextID d + 1)%Z)
      | parsed structure => _openCustomMenu d structure previewMode grab
      end
  end.

(** What happens to a daemon: a request for a custom menu, or an event on
    the background of its menu. *)
Inductive Step :=
  | request (config : Config) (previewMode grab : bool)
  | event (ev : BackgroundEvent).

Definition step (d : Daemon) (s : Step) : option ShowResult * Daemon :=
  match s with
  | request config previewMode grab =>
      let '(r, d1) := _openCustomMenuConfig d config previewMode grab in (Some r, d1)
  | event ev => (None, mkDaemon (handle (_menu d) ev) (_nextID d))
  end.

(** The results of the requests among [steps], in order, and the daemon at
    the end. *)
Fixpoint run (d : Daemon) (steps : list Step) : list ShowResult * Daemon :=
  match steps with
  | [] => ([], d)
  | s :: rest =>
      let '(r, d1) := step d s in
      let '(rs, d2) := run d1 rest in
      (match r with Some r' => r' :: rs | None => rs end, d2)
  end.

(** Whether a request gets to line 154: its [config] is an object, or a
    string that [JSON.parse] accepts. *)
Definition reachesShow (config : Config) : bool :=
  match config with
  | object _ => true
  | json s =>
      match JSON_parse s with
      | SyntaxError => false
      | parsed_null | parsed _ => true
      end
  end.

(** The number of requests among [steps] that get to line 154. *)
Fixpoint idsTaken (steps : list Step) : Z :=
  match steps with
  | [] => 0
  | request config _ _ :: rest =>
      ((if reachesShow config then 1 else 0) + idsTaken rest)%Z
  | event _ :: rest => idsTaken rest
  end.

End Requests.

(** The ids among the results. *)
Definition openedIDs (results : list ShowResult) : list Z :=
  omap (fun r => match r with Opened id => Some id | Failed _ => None end) results.

(** The integers up to [2 ^ 53] are numbers of JavaScript, and adding 1
    below that bound gives the next integer. *)
Definition maxExact : Z := (2 ^ 53)%Z.

(** ** [Daemon._openMenu] and [Daemon._onSelect] *)

(** What [_transformConfig] returns: an item with its [children].  The
    other properties come from [ItemRegistry.createItem]. *)
#[local] Unset Elimination Schemes.
Inductive ConfigItem := mkConfigItem {
  ci_name : string;
  ci_children : list ConfigItem }.
#[local] Set Elimination Schemes.

(** [children[key]] for a string [key]: the element whose index, written
    as a decimal number, is [key].  Any other key ends in a [TypeError]
    before [_onSelect] is through, and is [None] here. *)
Fixpoint childByKey (i : nat) (children : list ConfigItem) (key : string)
    : option ConfigItem :=
  match children with
  | [] => None
  | c :: rest => if String.eqb (pretty i) key then Some c else childByKey (S i) rest key
  end.

(** [s.split(sep)] for a separator of one character. *)
Fixpoint split (sep : ascii) (s : string) : list string :=
  match s with
  | EmptyString => [EmptyString]
  | String c rest =>
      if Ascii.eqb c sep then EmptyString :: split sep rest
      else
        match split sep rest with
        | first :: others => String c first :: others
        | [] => [String c EmptyString]
        end
  end.

(** Lines 176-178: [for (let i = 1; ...) item = item.children[pathElements[i]]],
    over the elements from index 1 on.  [None] is the [TypeError] of a step
    from an item that is not there. *)
Fixpoint followPath (item : ConfigItem) (pathElements : list string) : option ConfigItem :=
  match pathElements with
  | [] => Some item
  | key :: rest =>
      match childByKey 0 (ci_children item) key with
      | Some child => followPath child rest
      | None => None
      end
  end.

(** Lines 172-178 of [_onSelect]: the item that [item.activate()] is called
    on. *)
Definition selectedItem (config : ConfigItem) (path : string) : option ConfigItem :=
  followPath config (tail (split "/" path)).

Section OpenMenu.

(** [_transformConfig], which needs [ItemRegistry], and the object it
    returns as [Menu.show] reads it. *)
Variable transformConfig : MenuConfig → ConfigItem.
Variable asStructure : ConfigItem → Structure.

(** The daemon with the two fields [_openMenu] uses. *)
Record Configured := mkConfigured {
  cfg_daemon : Daemon;
  _menuConfigs : list MenuConfig;
  _currentMenuConfig : option ConfigItem }.

(** Line 121, [result >= 0]: the error codes are negative. *)
Definition succeeded (r : ShowResult) : bool :=
  match r with
  | Opened id => Z.leb 0 id
  | Failed _ => false
  end.

(** The loop of lines 109-127, over the configurations still to look at. *)
Fixpoint openMenuFrom (c : Configured) (configs : list MenuConfig) (name : string)
    (previewMode grab : bool) : ShowResult * Configured :=
  match configs with
  | [] => (Failed eNoSuchMenu, c)
  | entry :: rest =>
      if String.eqb name (cfg_name entry) then
        let config := transformConfig entry in
        let '(result, d) :=
          _openCustomMenu (cfg_daemon c) (asStructure config) previewMode grab in
        (result,
         mkConfigured d (_menuConfigs c)
           (if succeeded result then Some config else _currentMenuConfig c))
      else openMenuFrom c rest name previewMode grab
  end.

(** [_openMenu(name, previewMode)]. *)
Definition _openMenu (c : Configured) (name : string) (previewMode grab : bool)
    : ShowResult * Configured :=
  openMenuFrom c (_menuConfigs c) name previewMode grab.

(** The callback given to [new Shortcuts(...)] (lines 55-66), over the
    configurations from index [i] on: [ShowMenu] for every entry whose
    [data] is the shortcut, and the results below zero, for each of which a
    notification is shown.  [grab i] is what the input grab answers when the
    menu of entry [i] asks for it. *)
Fixpoint shortcutFrom (c : Configured) (i : nat) (configs : list MenuConfig)
    (shortcut : string) (grab : nat → bool) : list ShowResult * Configured :=
  match configs with
  | [] => ([], c)
  | entry :: rest =>
      if String.eqb shortcut (cfg_data entry) then
        let '(result, c1) := _openMenu c (cfg_name entry) false (grab i) in
        let '(notifications, c2) := shortcutFrom c1 (S i) rest shortcut grab in
        (if succeeded result then notifications else result :: notifications, c2)
      else shortcutFrom c (S i) rest shortcut grab
  end.

Definition onShortcut (c : Configured) (shortcut : string) (grab : nat → bool)
    : list ShowResult * Configured :=
  shortcutFrom c 0 (_menuConfigs c) shortcut grab.

End OpenMenu.

(** ** More notions used in the statements *)

(** The string of a path of child indices: [/k1/k2/...]. *)
Fixpoint pathString (path : list nat) : string :=
  match path with
  | [] => ""
  | k :: rest => "/" +:+ pretty k +:+ pathString rest
  end.

(** The item of a configuration at a path of child indices. *)
Fixpoint configAt (item : ConfigItem) (path : list nat) : option ConfigItem :=
  match path with
  | [] => Some item
  | k :: rest =>
      match ci_children item !! k with
      | Some child => configAt child rest
      | None => None
      end
  end.

(** The tree with every [angle] taken away. *)
Fixpoint withoutAngles (item : MenuItem) : MenuItem :=
  match item with
  | mkItem id _ ic ch ac =>
      mkItem id None ic
        match ch with
        | None => None
        | Some children =>
            Some ((fix all (cs : list MenuItem) :=
                     match cs with
                     | [] => []
                     | c :: cs' => withoutAngles c :: all cs'
                     end) children)
        end
        ac
  end.

(** Every angle that is there lies in [0, 360). *)
Definition inRange (items : list (option Q)) : Prop :=
  ∀ k a, items !! k = Some (Some a) → 0 <= a ∧ a < 360.

(** A string without a slash. *)
Fixpoint noSlash (s : string) : Prop :=
  match s with
  | EmptyString => True
  | String c rest => c ≠ "/"%char ∧ noSlash rest
  end.

(** * Properties *)

(** Case analysis on the comparisons of natural numbers in the goal. *)
Ltac nat_cases :=
  repeat match goal with
         | |- context [(?a <=? ?b)%nat] => destruct (Nat.leb_spec a b)
         | |- context [(?a <? ?b)%nat] => destruct (Nat.ltb_spec a b)
         | |- context [(?a =? ?b)%nat] => destruct (Nat.eqb_spec a b)
         end;
  simpl; try reflexivity; try lia; try (exfalso; lia).

(** ** Comparisons *)

Lemma lt_true (x y : Q) : JS.lt x y = true ↔ x < y.
Proof.
  unfold JS.lt. rewrite negb_true_iff, <- not_true_iff_false, Qle_bool_iff.
  split; [apply Qnot_le_lt | apply Qlt_not_le].
Qed.

Lemma lt_false (x y : Q) : JS.lt x y = false ↔ y <= x.
Proof.
  unfold JS.lt. rewrite negb_false_iff. apply Qle_bool_iff.
Qed.

Lemma le_true (x y : Q) : JS.le x y = true ↔ x <= y.
Proof. apply Qle_bool_iff. Qed.

Lemma le_false (x y : Q) : JS.le x y = false ↔ y < x.
Proof.
  unfold JS.le. rewrite <- not_true_iff_false, Qle_bool_iff.
  split; [apply Qnot_le_lt | apply Qlt_not_le].
Qed.

Lemma truthy_true (x : Q) : JS.truthy x = true ↔ ¬ x == 0.
Proof.
  unfold JS.truthy. rewrite negb_true_iff, <- not_true_iff_false, Qeq_bool_iff. tauto.
Qed.

Lemma truthy_false (x : Q) : JS.truthy x = false ↔ x == 0.
Proof.
  unfold JS.truthy. rewrite negb_false_iff. apply Qeq_bool_iff.
Qed.

(** ** The session guard *)

(** The guard of line 92 holds off every request while the stored id is a
    number other than [0]. *)
Lemma show_rejected (m : Menu) (menuID : Z) (structure : Structure) (editMode grab : bool) :
  menuID_truthy (_menuID m) = true →
  show m menuID structure editMode grab = (Failed eAlreadyActive, m).
Proof. intros H. unfold show. rewrite H. reflexivity. Qed.

(** C1, at the first request of a daemon.  The first menu is opened with
    id [0] and nothing hides it; the second request is then not answered
    with [eAlreadyActive]: it opens as menu [1] and its structure takes the
    place of the one of menu [0]. *)
Theorem show_twice_from_start :
  let first := menuOf [leaf None] in
  let second := menuOf [leaf None; leaf None] in
  let r1 := ShowCustomMenu newDaemon first true in
  let r2 := ShowCustomMenu (snd r1) second true in
  fst r1 = Opened 0 ∧
  _menuID (_menu (snd r1)) = Some 0%Z ∧
  fst r2 = Opened 1 ∧
  fst r2 ≠ Failed eAlreadyActive ∧
  _menuID (_menu (snd r2)) = Some 1%Z ∧
  _structure (_menu (snd r2)) ≠ _structure (_menu (snd r1)).
Proof. vm_compute. repeat split; discriminate. Qed.

(** ** Failures below the top level *)

(** C2, at a tree whose only item has the children [200; 100].  The call
    for the children returns [false], the call for the top level returns
    [true] all the same, and [show] opens the menu. *)
Theorem nested_failure_is_dropped :
  let children := [leaf (Some 200); leaf (Some 100)] in
  let items := [node None children] in
  fst (_updateItemAngles children (childParentAngle (Some 90))) = false ∧
  fst (_updateItemAngles items None) = true ∧
  fst (show newMenu 1 (menuOf items) false true) = Opened 1.
Proof. vm_compute. repeat split. Qed.

(** A failure of the top level does reach the caller of [show]. *)
Lemma show_invalid_top_level (m : Menu) (menuID : Z) (structure : Structure)
    (items : list MenuItem) (editMode grab : bool) :
  menuID_truthy (_menuID m) = false →
  str_items structure = Some items →
  items ≠ [] →
  fst (_updateItemAngles items None) = false →
  fst (show m menuID structure editMode grab) = Failed eInvalidAngles.
Proof.
  intros Hid Hitems Hne Hfail. unfold show. rewrite Hid, Hitems.
  destruct items as [|first others]; [congruence|].
  destruct (_updateItemAngles (first :: others) None) as [ok items1].
  simpl in Hfail. subst ok. reflexivity.
Qed.

(** The inner fixpoint of [resolve] is the recursive call of line 345, of
    which only the effect on the children is kept. *)
Lemma resolve_eq (item : MenuItem) (a : option Q) :
  resolve item a =
  mkItem (item_id item) a (item_icon item)
         (option_map (fun children => snd (_updateItemAngles children (childParentAngle a)))
                     (item_items item))
         (item_actor item).
Proof.
  destruct item as [id a0 ic [children|] ac]; [|reflexivity].
  cbn [resolve item_id item_icon item_items item_actor option_map].
  do 2 f_equal. unfold _updateItemAngles.
  destruct (Layout.level (map item_angle children) (childParentAngle a)) as [angles|];
    [|reflexivity].
  cbn [snd]. unfold resolveAll. revert angles.
  induction children as [|c cs IH]; intros [|a' angles]; reflexivity.
Qed.

(** The flag that [_updateItemAngles] returns is decided by the angles of
    the level it is called on; the levels below have no part in it. *)
Lemma flag_of_top_level (items items' : list MenuItem) (parentAngle : option Q) :
  map item_angle items = map item_angle items' →
  fst (_updateItemAngles items parentAngle) = fst (_updateItemAngles items' parentAngle).
Proof.
  intros H. unfold _updateItemAngles. rewrite H.
  destruct (Layout.level (map item_angle items') parentAngle); reflexivity.
Qed.

(** ** The first angle of a level without fixed angles *)

(** C5, at one item without an angle below a parent at 180 degrees: the
    parent angle handed down is [0], which is given and less than 180, and
    the item gets 90, not 270. *)
Theorem first_angle_parent_0 :
  childParentAngle (Some 180) = Some 0 ∧
  Layout.firstAngle (Some 0) = 90 ∧
  Layout.level [None] (Some 0) = Some [Some 90] ∧
  map item_angle (snd (_updateItemAngles [leaf None] (Some 0))) = [Some 90].
Proof. vm_compute. repeat split. Qed.

(** ** Requests that end in an error *)

(** C7 as stated fails: a menu was shown and hidden, so the session is idle
    and the tree of that menu is still stored; a request with the fixed
    angles [200; 100] is answered with [eInvalidAngles], the session stays
    idle, and the stored tree is now the one of the failed request. *)
Lemma failed_request_replaces_structure :
  let idle := _hide (snd (show newMenu 1 (menuOf [leaf None]) false true)) in
  let r := show idle 2 (menuOf [leaf (Some 200); leaf (Some 100)]) false true in
  _menuID idle = None ∧
  fst r = Failed eInvalidAngles ∧
  _menuID (snd r) = None ∧
  _structure (snd r) ≠ _structure idle.
Proof. vm_compute. repeat split; discriminate. Qed.

(** C7, amended.  A request that ends in an error leaves the menu id as it
    was, so an idle session stays idle.  The error is one of the four of
    [show]; after [eAlreadyActive] and [ePropertyMissing] the whole state of
    the menu is as before; after [eInvalidAngles] and [eUnknownError] on an
    idle session the stored structure and edit mode are those of the failed
    request. *)
Theorem show_failed (m m' : Menu) (menuID : Z) (structure : Structure)
    (editMode grab : bool) (code : ErrorCode) :
  show m menuID structure editMode grab = (Failed code, m') →
  _menuID m' = _menuID m ∧
  (code = eAlreadyActive ∨ code = ePropertyMissing ∨
   code = eInvalidAngles ∨ code = eUnknownError) ∧
  (code = eAlreadyActive ∨ code = ePropertyMissing → m' = m) ∧
  (code = eInvalidAngles → _menuID m = None →
     _structure m' = structure ∧ _editMode m' = editMode) ∧
  (code = eUnknownError → _menuID m = None →
     ∃ items, str_items structure = Some items ∧
       _structure m' =
         mkStructure (str_icon structure)
           (Some (_updateItemIDs (snd (_updateItemAngles items None)) None))
           (str_actor structure) ∧
       _editMode m' = editMode).
Proof.
  unfold show. destruct (menuID_truthy (_menuID m)).
  { intros [= <- <-]. repeat split; auto; discriminate. }
  destruct structure as [icon [[|first others]|] actor];
    cbn [str_items str_icon str_actor].
  1, 3: intros [= <- <-]; repeat split; auto; discriminate.
  unfold _updateItemAngles.
  destruct (Layout.level (map item_angle (first :: others)) None) as [angles|] eqn:E;
    cbn [negb fst snd].
  - destruct grab; simpl; intros [= <- <-]. simpl.
    split; [reflexivity|]. split; [auto|].
    split; [intros [|]; discriminate|].
    split; [discriminate|].
    intros _ _. exists (first :: others). split; [reflexivity|].
    unfold _updateItemAngles. rewrite E. split; reflexivity.
  - intros [= <- <-]. simpl.
    split; [reflexivity|]. split; [auto|].
    split; [intros [|]; discriminate|].
    split; [|discriminate].
    intros _ _. split; reflexivity.
Qed.

Lemma show_failed_witness :
  let m := newMenu in
  let structure := menuOf [leaf (Some 200); leaf (Some 100)] in
  _menuID (snd (show m 7 structure true true)) = _menuID m ∧
  _structure (snd (show m 7 structure true true)) = structure.
Proof.
  intros m structure.
  destruct (show_failed m (snd (show m 7 structure true true)) 7 structure true true
              eInvalidAngles) as (Hid & _ & _ & Hinv & _).
  - vm_compute. reflexivity.
  - split; [exact Hid|]. apply Hinv; reflexivity.
Defined.

(** ** What is collected and what is checked *)

Lemma collectFrom_lookup (cols : list (option Q)) (i k : nat) (a : Q) :
  cols !! k = Some (Some a) → JS.truthy a = true →
  mkFixed a (i + k) ∈ Layout.collectFrom i cols.
Proof.
  revert i k. induction cols as [|c cols IH]; intros i k Hk Ha; [discriminate|].
  destruct k as [|k]; simpl in Hk.
  - injection Hk as ->. simpl. rewrite Ha, Nat.add_0_r. left.
  - specialize (IH (S i) k Hk Ha). replace (i + S k)%nat with (S i + k)%nat by lia.
    simpl. destruct c as [v|]; [destruct (JS.truthy v)|]; try right; exact IH.
Qed.

Lemma collectFrom_index (cols : list (option Q)) (i : nat) (f : FixedAngle) :
  f ∈ Layout.collectFrom i cols →
  (i ≤ fa_index f < i + length cols)%nat ∧
  cols !! (fa_index f - i)%nat = Some (Some (fa_angle f)) ∧
  JS.truthy (fa_angle f) = true.
Proof.
  revert i. induction cols as [|c cols IH]; intros i Hf; simpl in Hf.
  { inversion Hf. }
  assert (Hrest : f ∈ Layout.collectFrom (S i) cols →
                  (i ≤ fa_index f < i + length (c :: cols))%nat ∧
                  (c :: cols) !! (fa_index f - i)%nat = Some (Some (fa_angle f)) ∧
                  JS.truthy (fa_angle f) = true).
  { intros H. destruct (IH _ H) as (Hr & Hl & Ht). simpl length.
    split; [lia|]. split; [|exact Ht].
    replace (fa_index f - i)%nat with (S (fa_index f - S i)) by lia. exact Hl. }
  destruct c as [v|]; [destruct (JS.truthy v) eqn:Hv|]; auto.
  apply elem_of_cons in Hf as [->|Hf]; auto.
  simpl. rewrite Nat.sub_diag. split; [lia|]. split; [reflexivity|exact Hv].
Qed.

Lemma collectFrom_none (cols : list (option Q)) (i : nat) :
  Forall (fun a => JS.truthy_opt a = false) cols → Layout.collectFrom i cols = [].
Proof.
  intros H. revert i. induction H as [|c cols Hc _ IH]; intros i; [reflexivity|].
  simpl. destruct c as [v|]; [|apply IH]. simpl in Hc. rewrite Hc. apply IH.
Qed.

Lemma checkFixed_true (prev : option Q) (F : list FixedAngle) :
  Layout.checkFixed prev F = true →
  (∀ p, prev = Some p → Forall (Qlt p) (map fa_angle F)) ∧
  StronglySorted Qlt (map fa_angle F) ∧
  Forall (fun a => 0 <= a ∧ a < 360) (map fa_angle F).
Proof.
  revert prev. induction F as [|f F IH]; intros prev H; simpl.
  { repeat split; constructor. }
  simpl in H.
  destruct (match prev with Some p => JS.le (fa_angle f) p | None => false end) eqn:Hprev;
    [discriminate|].
  destruct (JS.lt (fa_angle f) 0) eqn:H0; [discriminate|].
  destruct (JS.le 360 (fa_angle f)) eqn:H360; [discriminate|]. simpl in H.
  apply lt_false in H0. apply le_false in H360.
  destruct (IH _ H) as (Hlt & Hsorted & Hrange).
  specialize (Hlt _ eq_refl).
  split; [|split].
  - intros p ->. apply le_false in Hprev. constructor; [exact Hprev|].
    eapply Forall_impl; [exact Hlt|]. intros a Ha. simpl in Ha.
    eapply Qlt_trans; eassumption.
  - constructor; assumption.
  - constructor; [split|]; assumption.
Qed.

Lemma level_fails (cols : list (option Q)) (parentAngle : option Q) :
  cols ≠ [] →
  Layout.checkFixed None (Layout.collectFixed cols) = false ∨
  Layout.parentCollides (Layout.collectFixed cols) parentAngle = true →
  Layout.level cols parentAngle = None.
Proof.
  intros Hne H. unfold Layout.level.
  destruct cols as [|c cols]; [congruence|]. simpl length. simpl Nat.eqb. cbv iota.
  destruct (Layout.checkFixed None _); simpl; [|reflexivity].
  destruct H as [H|H]; [discriminate|]. rewrite H. reflexivity.
Qed.

(** C6.  When the fixed angles that were collected, in the order of the
    list, are not strictly increasing, or one of them is outside [0, 360),
    the call returns [false]. *)
Theorem unordered_fixed_angles_fail (items : list MenuItem) (parentAngle : option Q) :
  ¬ StronglySorted Qlt (fixedAnglesOf items) ∨
  Exists (fun a => ¬ (0 <= a ∧ a < 360)) (fixedAnglesOf items) →
  fst (_updateItemAngles items parentAngle) = false.
Proof.
  intros H. unfold _updateItemAngles.
  rewrite level_fails; [reflexivity| |].
  - intros Hnil. apply map_eq_nil in Hnil. subst items.
    destruct H as [H|H]; [apply H; constructor|inversion H].
  - left. destruct (Layout.checkFixed None _) eqn:Hc; [|reflexivity].
    apply checkFixed_true in Hc as (_ & Hsorted & Hrange).
    destruct H as [H|H]; [contradiction|].
    apply Exists_exists in H as (a & Ha & Hout).
    rewrite Forall_forall in Hrange. destruct Hout. apply Hrange. exact Ha.
Qed.

Lemma unordered_fixed_angles_fail_witness :
  fst (_updateItemAngles [leaf (Some 200); leaf None; leaf (Some 100)] None) = false.
Proof.
  apply unordered_fixed_angles_fail. left. intros H.
  inversion H as [|a l _ Hlt]. inversion Hlt as [|b l' Hab _].
  vm_compute in Hab. discriminate.
Defined.

(** C4, at the two kinds of input the claim names and line 264 misses.  An
    item fixed at 359.5 is 0.7 degrees away, across the top of the circle,
    from a parent link at 0.2, and an item fixed at 0.5 is half a degree
    away from a parent link at 0.  Both calls return [true] and leave the
    item where it is: line 264 compares [Math.abs(fixedAngle - parentAngle)]
    with 1, without the full turn that lines 305-309 do add, and the guard
    [if (parentAngle)] of line 262 skips the loop for a parent angle of 0. *)
Theorem near_parent_is_accepted :
  let across := _updateItemAngles [leaf (Some 359.5)] (Some 0.2) in
  let at_zero := _updateItemAngles [leaf (Some 0.5)] (Some 0) in
  Qabs (359.5 - (0.2 + 360)) < 1 ∧
  fst across = true ∧ map item_angle (snd across) = [Some 359.5] ∧
  Qabs (0.5 - 0) < 1 ∧
  fst at_zero = true ∧ map item_angle (snd at_zero) = [Some 0.5].
Proof. cbn zeta. repeat split. Qed.

(** What the loop of lines 262-268 does catch.  With a parent angle other
    than [0], a level fails when the angle of one of its items is not [0]
    and differs from the parent angle, as numbers, by less than 1. *)
Lemma fixed_angle_near_parent (items : list MenuItem) (item : MenuItem) (a p : Q) :
  item ∈ items →
  item_angle item = Some a →
  ¬ a == 0 →
  ¬ p == 0 →
  Qabs (a - p) < 1 →
  fst (_updateItemAngles items (Some p)) = false.
Proof.
  intros Hin Ha Ha0 Hp0 Hnear. unfold _updateItemAngles.
  rewrite level_fails; [reflexivity| |].
  - intros Hnil. apply map_eq_nil in Hnil. subst items. inversion Hin.
  - right. apply list_elem_of_lookup in Hin as [k Hk].
    assert (Hf : mkFixed a (0 + k) ∈ Layout.collectFixed (map item_angle items)).
    { apply collectFrom_lookup; [|apply truthy_true; exact Ha0].
      rewrite list_lookup_fmap, Hk. simpl. rewrite Ha. reflexivity. }
    unfold Layout.parentCollides. simpl.
    apply truthy_true in Hp0. rewrite Hp0.
    apply existsb_exists. exists (mkFixed a (0 + k)). split.
    + apply list_elem_of_In. exact Hf.
    + apply lt_true. exact Hnear.
Qed.

Lemma fixed_angle_near_parent_witness :
  fst (_updateItemAngles [leaf None; leaf (Some 100)] (Some 100.5)) = false.
Proof.
  apply (fixed_angle_near_parent _ (leaf (Some 100)) 100 100.5).
  - right. left.
  - reflexivity.
  - intros H. vm_compute in H. discriminate.
  - intros H. vm_compute in H. discriminate.
  - reflexivity.
Defined.

(** ** The shortcut reconciler *)

Section Reconciler.

Local Instance unbind_inj : Inj (=) (=) unbind.
Proof. intros x y [= ->]. reflexivity. Qed.

Local Instance bind_inj : Inj (=) (=) bind.
Proof. intros x y [= ->]. reflexivity. Qed.

Lemma has_true (s : list string) (x : string) : StringSet.has s x = true ↔ x ∈ s.
Proof. unfold StringSet.has. apply bool_decide_eq_true. Qed.

Lemma elem_of_add (s : list string) (x y : string) :
  y ∈ StringSet.add s x ↔ y ∈ s ∨ y = x.
Proof.
  unfold StringSet.add. destruct (StringSet.has s x) eqn:H.
  - apply has_true in H. split; [auto|]. intros [?| ->]; assumption.
  - rewrite elem_of_app, list_elem_of_singleton. reflexivity.
Qed.

Lemma NoDup_add (s : list string) (x : string) : NoDup s → NoDup (StringSet.add s x).
Proof.
  intros Hs. unfold StringSet.add. destruct (StringSet.has s x) eqn:H; [exact Hs|].
  apply NoDup_app. split; [exact Hs|]. split; [|apply NoDup_singleton].
  intros y Hy ->%list_elem_of_singleton.
  apply has_true in Hy. congruence.
Qed.

Lemma elem_of_delete (s : list string) (x y : string) :
  y ∈ StringSet.delete s x ↔ y ∈ s ∧ y ≠ x.
Proof. unfold StringSet.delete. rewrite list_elem_of_filter. tauto. Qed.

Lemma requiredFrom_spec (menuConfigs : list MenuConfig) (acc : list string) :
  let r := fold_left (fun newShortcuts c =>
                        if bool_decide (cfg_data c ≠ "")
                        then StringSet.add newShortcuts (cfg_data c)
                        else newShortcuts) menuConfigs acc in
  (∀ s, s ∈ r ↔ s ∈ acc ∨ desired menuConfigs s) ∧ (NoDup acc → NoDup r).
Proof.
  revert acc. induction menuConfigs as [|c cs IH]; intros acc; simpl.
  { split; [|auto]. intros s. split; [auto|]. intros [H|(_ & c & Hc & _)]; [exact H|].
    inversion Hc. }
  destruct (IH (if bool_decide (cfg_data c ≠ "") then StringSet.add acc (cfg_data c)
                else acc)) as [Hin Hnd].
  split.
  - intros s. rewrite Hin. unfold desired. case_bool_decide as Hd.
    + rewrite elem_of_add. split.
      * intros [[H| ->]|(Hs & c' & Hc' & <-)]; auto.
        -- right. split; [exact Hd|]. exists c. split; [left|reflexivity].
        -- right. split; [exact Hs|]. exists c'. split; [right; exact Hc'|reflexivity].
      * intros [H|(Hs & c' & Hc' & <-)]; auto.
        apply elem_of_cons in Hc' as [->|Hc']; auto.
        right. split; [exact Hs|]. exists c'. auto.
    + split.
      * intros [H|(Hs & c' & Hc' & <-)]; auto.
        right. split; [exact Hs|]. exists c'. split; [right; exact Hc'|reflexivity].
      * intros [H|(Hs & c' & Hc' & <-)]; auto.
        apply elem_of_cons in Hc' as [->|Hc']; [contradiction|].
        right. split; [exact Hs|]. exists c'. auto.
  - intros Hacc. apply Hnd. case_bool_decide; [apply NoDup_add|]; exact Hacc.
Qed.

Lemma requiredShortcuts_spec (menuConfigs : list MenuConfig) :
  (∀ s, s ∈ requiredShortcuts menuConfigs ↔ desired menuConfigs s) ∧
  NoDup (requiredShortcuts menuConfigs).
Proof.
  destruct (requiredFrom_spec menuConfigs []) as [Hin Hnd]. split.
  - intros s. unfold requiredShortcuts. rewrite Hin. split; [|auto].
    intros [H|H]; [inversion H|exact H].
  - apply Hnd. constructor.
Qed.

Lemma unbindFrom_spec (bound newShortcuts : list string) (calls : list ShortcutCall) :
  NoDup bound →
  let r := fold_left (fun '(newShortcuts, calls) existingShortcut =>
                        if StringSet.has newShortcuts existingShortcut
                        then (StringSet.delete newShortcuts existingShortcut, calls)
                        else (newShortcuts, calls ++ [unbind existingShortcut]))
                     bound (newShortcuts, calls) in
  (∀ s, s ∈ fst r ↔ s ∈ newShortcuts ∧ s ∉ bound) ∧
  (NoDup newShortcuts → NoDup (fst r)) ∧
  ∃ gone, snd r = calls ++ map unbind gone ∧
          (∀ s, s ∈ gone ↔ s ∈ bound ∧ s ∉ newShortcuts) ∧ NoDup gone.
Proof.
  revert newShortcuts calls.
  induction bound as [|e bound IH]; intros newShortcuts calls Hnd; simpl.
  { split; [|split; [auto|]].
    - intros s. split; [|tauto]. intros H. split; [exact H|]. intros H'. inversion H'.
    - exists []. rewrite app_nil_r. split; [reflexivity|]. split; [|constructor].
      intros s. split; [intros H|intros [H _]]; inversion H. }
  apply NoDup_cons in Hnd as [He Hnd].
  destruct (StringSet.has newShortcuts e) eqn:Hhas.
  - apply has_true in Hhas.
    destruct (IH (StringSet.delete newShortcuts e) calls Hnd)
      as (Hin & Hkeep & gone & Hcalls & Hgone & Hgnd).
    split; [|split].
    + intros s. rewrite Hin, elem_of_delete, not_elem_of_cons. tauto.
    + intros H. apply Hkeep. unfold StringSet.delete. apply NoDup_filter. exact H.
    + exists gone. split; [exact Hcalls|]. split; [|exact Hgnd].
      intros s. rewrite Hgone, elem_of_delete, elem_of_cons. split.
      * intros [Hs Hn]. split; [auto|]. intros Hs'. apply Hn. split; [exact Hs'|].
        intros ->. contradiction.
      * intros [[->|Hs] Hn]; [contradiction|]. split; [exact Hs|]. tauto.
  - assert (Hne : e ∉ newShortcuts).
    { intros H. apply has_true in H. congruence. }
    destruct (IH newShortcuts (calls ++ [unbind e]) Hnd)
      as (Hin & Hkeep & gone & Hcalls & Hgone & Hgnd).
    split; [|split].
    + intros s. rewrite Hin, not_elem_of_cons. split; [|tauto].
      intros [Hs Hn]. split; [exact Hs|]. split; [|exact Hn]. intros ->. contradiction.
    + exact Hkeep.
    + exists (e :: gone). split; [|split].
      * rewrite Hcalls, <- app_assoc. reflexivity.
      * intros s. rewrite !elem_of_cons, Hgone. split.
        -- intros [->|[Hs Hn]]; auto.
        -- intros [[->|Hs] Hn]; auto.
      * apply NoDup_cons. split; [|exact Hgnd]. rewrite Hgone. tauto.
Qed.

(** C8.  For a configuration and a duplicate-free collection of bound
    shortcuts, [unbind] is called for exactly the bound shortcuts that the
    configuration does not ask for, [bind] for exactly the shortcuts it asks
    for that are not bound, and no call is made twice; a shortcut that is
    bound and asked for gets no call of either kind. *)
Theorem reconcile (menuConfigs : list MenuConfig) (bound : list string) :
  NoDup bound →
  let calls := _onMenuConfigsChanged menuConfigs bound in
  (∀ s, unbind s ∈ calls ↔ s ∈ bound ∧ ¬ desired menuConfigs s) ∧
  (∀ s, bind s ∈ calls ↔ desired menuConfigs s ∧ s ∉ bound) ∧
  (∀ s, s ∈ bound → desired menuConfigs s →
     (unbind s ∉ calls) ∧ (bind s ∉ calls)) ∧
  NoDup calls.
Proof.
  intros Hnd. unfold _onMenuConfigsChanged, unbindLoop.
  destruct (requiredShortcuts_spec menuConfigs) as [Hreq Hreqnd].
  destruct (unbindFrom_spec bound (requiredShortcuts menuConfigs) [] Hnd)
    as (Hin & Hkeep & gone & Hcalls & Hgone & Hgnd).
  destruct (fold_left _ bound _) as [newShortcuts calls0].
  simpl in Hin, Hkeep, Hcalls. subst calls0. simpl.
  assert (Hunbind : ∀ s, unbind s ∈ map unbind gone ++ map bind newShortcuts ↔
                         s ∈ bound ∧ ¬ desired menuConfigs s).
  { intros s. rewrite elem_of_app, <- Hreq, <- Hgone. split.
    - intros [H|H]; [apply (list_elem_of_fmap_inj unbind) in H; exact H|].
      apply list_elem_of_fmap in H as (x & [=] & _).
    - intros H. left. apply (list_elem_of_fmap_2 unbind). exact H. }
  assert (Hbind : ∀ s, bind s ∈ map unbind gone ++ map bind newShortcuts ↔
                       desired menuConfigs s ∧ s ∉ bound).
  { intros s. rewrite elem_of_app, <- Hreq, <- Hin. split.
    - intros [H|H]; [|apply (list_elem_of_fmap_inj bind) in H; exact H].
      apply list_elem_of_fmap in H as (x & [=] & _).
    - intros H. right. apply (list_elem_of_fmap_2 bind). exact H. }
  split; [exact Hunbind|]. split; [exact Hbind|]. split.
  - intros s Hs Hd. rewrite Hunbind, Hbind. tauto.
  - apply NoDup_app. split; [apply (NoDup_fmap_2 unbind); exact Hgnd|].
    split; [|apply (NoDup_fmap_2 bind), Hkeep, Hreqnd].
    intros c Hc Hc'. apply list_elem_of_fmap in Hc as (x & -> & _).
    apply list_elem_of_fmap in Hc' as (y & [=] & _).
Qed.

Lemma reconcile_witness :
  let calls := _onMenuConfigsChanged [mkConfig "first" "B"; mkConfig "second" "C"]
                 ["A"; "B"] in
  NoDup calls ∧ (unbind "B" ∉ calls) ∧ (bind "B" ∉ calls).
Proof.
  destruct (reconcile [mkConfig "first" "B"; mkConfig "second" "C"] ["A"; "B"])
    as (_ & _ & Hboth & Hnd).
  - apply NoDup_cons. split; [|apply NoDup_singleton].
    intros H. apply list_elem_of_singleton in H. discriminate.
  - split; [exact Hnd|]. apply Hboth.
    + right. left.
    + split; [discriminate|]. exists (mkConfig "first" "B"). split; [left|reflexivity].
Defined.

(** The scenario of the specification: with [A] and [B] bound and [B] and
    [C] asked for, the calls are [unbind A] and [bind C]. *)
Example reconcile_scenario :
  _onMenuConfigsChanged
    [mkConfig "first" "B"; mkConfig "second" "C"; mkConfig "third" ""; mkConfig "fourth" "B"]
    ["A"; "B"] = [unbind "A"; bind "C"].
Proof. reflexivity. Qed.

End Reconciler.

(** ** Item ids *)

Lemma newID_eq (parentID : option string) (i : nat) (id : option string) :
  newID parentID i id =
  if JS.truthy_str id then id else Some (idString parentID +:+ "/" +:+ pretty i).
Proof.
  unfold newID. destruct (JS.truthy_str id); [reflexivity|].
  destruct parentID as [[|c p]|]; reflexivity.
Qed.

Lemma newID_truthy (parentID : option string) (i : nat) (id : option string) :
  JS.truthy_str (newID parentID i id) = true.
Proof.
  rewrite newID_eq. destruct (JS.truthy_str id) eqn:H; [exact H|].
  destruct (idString parentID); reflexivity.
Qed.

Lemma newID_keeps (parentID : option string) (i : nat) (id : option string) :
  JS.truthy_str id = true → newID parentID i id = id.
Proof. intros H. unfold newID. rewrite H. reflexivity. Qed.

(** The recursive call of line 222 is [_updateItemIDs(item.items, item.id)]
    with the id the item has by then. *)
Lemma updateItemID_eq (parentID : option string) (i : nat) (item : MenuItem) :
  updateItemID parentID i item =
  let id1 := newID parentID i (item_id item) in
  mkItem id1 (item_angle item) (item_icon item)
         (option_map (fun children => _updateItemIDs children id1) (item_items item))
         (item_actor item).
Proof.
  destruct item as [id a ic [children|] ac]; simpl; [|reflexivity].
  do 2 f_equal. unfold _updateItemIDs. generalize 0%nat.
  induction children as [|c cs IH]; intros k; simpl; [reflexivity|].
  rewrite IH. reflexivity.
Qed.

Lemma updateItemIDsFrom_lookup (parentID : option string) (i k : nat) (items : list MenuItem) :
  updateItemIDsFrom parentID i items !! k = updateItemID parentID (i + k) <$> items !! k.
Proof.
  revert i k. induction items as [|c cs IH]; intros i k; [reflexivity|].
  destruct k as [|k]; simpl.
  - rewrite Nat.add_0_r. reflexivity.
  - rewrite IH. replace (S i + k)%nat with (i + S k)%nat by lia. reflexivity.
Qed.

Lemma updateItemID_again (item : MenuItem) :
  ∀ p i p' i', updateItemID p' i' (updateItemID p i item) = updateItemID p i item.
Proof.
  induction item as [id a ic ch ac IH] using MenuItem_ind. intros p i p' i'.
  rewrite (updateItemID_eq p i). cbn zeta. rewrite updateItemID_eq. simpl.
  rewrite (newID_keeps _ _ _ (newID_truthy p i id)). f_equal.
  destruct ch as [children|]; [|reflexivity]. simpl. f_equal.
  unfold _updateItemIDs. generalize 0%nat.
  induction IH as [|c cs Hc _ IHcs]; intros k; simpl; [reflexivity|].
  rewrite Hc, IHcs. reflexivity.
Qed.

Lemma updateItemIDsFrom_again (items : list MenuItem) (p p' : option string) (i i' : nat) :
  updateItemIDsFrom p' i' (updateItemIDsFrom p i items) = updateItemIDsFrom p i items.
Proof.
  revert i i'. induction items as [|c cs IH]; intros i i'; simpl; [reflexivity|].
  rewrite updateItemID_again, IH. reflexivity.
Qed.

Lemma updateItemIDs_node (items : list MenuItem) (path : list nat) :
  ∀ (parentID : option string) (k : nat) (item : MenuItem),
  lookupPath items (path ++ [k]) = Some item →
  ∃ item', lookupPath (_updateItemIDs items parentID) (path ++ [k]) = Some item' ∧
    item_id item' =
      (if JS.truthy_str (item_id item) then item_id item
       else Some (parentPath (_updateItemIDs items parentID) parentID path
                  +:+ "/" +:+ pretty k)) ∧
    item_angle item' = item_angle item ∧ item_icon item' = item_icon item ∧
    item_actor item' = item_actor item.
Proof.
  revert items. induction path as [|j rest IH]; intros items parentID k item Hitem.
  - simpl in Hitem |- *. unfold _updateItemIDs. rewrite updateItemIDsFrom_lookup.
    destruct (items !! k) as [it|]; [|discriminate]. injection Hitem as ->.
    simpl. eexists. split; [reflexivity|]. rewrite updateItemID_eq. simpl.
    rewrite newID_eq. auto.
  - change ((j :: rest) ++ [k]) with (j :: (rest ++ [k])) in *.
    assert (Hcons : ∃ k' tail, rest ++ [k] = k' :: tail).
    { destruct rest; simpl; eauto. }
    destruct Hcons as (k' & tail & Hcons).
    assert (Hstep : ∀ l, lookupPath l (j :: rest ++ [k]) =
                         it ← l !! j; children ← item_items it;
                         lookupPath children (rest ++ [k])).
    { intros l. simpl. rewrite Hcons. destruct (l !! j) as [it|]; [|reflexivity].
      simpl. destruct (item_items it); reflexivity. }
    rewrite Hstep in Hitem. rewrite Hstep.
    unfold _updateItemIDs at 1. rewrite updateItemIDsFrom_lookup.
    destruct (items !! j) as [it|] eqn:Hj; [|discriminate]. simpl in Hitem |- *.
    rewrite updateItemID_eq. simpl.
    destruct (item_items it) as [children|] eqn:Hch; [|discriminate].
    simpl in Hitem |- *.
    destruct (IH children (newID parentID j (item_id it)) k item Hitem)
      as (item' & Hlook & Hid & Hrest).
    exists item'. split; [exact Hlook|]. split; [|exact Hrest].
    rewrite Hid. destruct (JS.truthy_str (item_id item)); [reflexivity|].
    do 2 f_equal. unfold parentPath. destruct rest as [|j' rest'].
    + simpl. unfold _updateItemIDs. rewrite updateItemIDsFrom_lookup, Hj. simpl.
      rewrite updateItemID_eq. reflexivity.
    + simpl. unfold _updateItemIDs at 2. rewrite updateItemIDsFrom_lookup, Hj. simpl.
      rewrite updateItemID_eq. simpl. rewrite Hch. reflexivity.
Qed.

(** C9.  In the tree that [_updateItemIDs] leaves, a node that had a
    non-empty id keeps it, every other node has the id of its parent (the
    [parentID] of the call at the top level), a slash and its index, and
    nothing but ids has changed; a second run, whatever parent id it is
    given, leaves the tree of the first run as it is. *)
Theorem updateItemIDs_idempotent (items : list MenuItem) (parentID : option string) :
  (∀ path k item,
     lookupPath items (path ++ [k]) = Some item →
     ∃ item', lookupPath (_updateItemIDs items parentID) (path ++ [k]) = Some item' ∧
       item_id item' =
         (if JS.truthy_str (item_id item) then item_id item
          else Some (parentPath (_updateItemIDs items parentID) parentID path
                     +:+ "/" +:+ pretty k)) ∧
       item_angle item' = item_angle item ∧ item_icon item' = item_icon item ∧
       item_actor item' = item_actor item) ∧
  (∀ parentID', _updateItemIDs (_updateItemIDs items parentID) parentID' =
                _updateItemIDs items parentID).
Proof.
  split.
  - intros path k item. apply updateItemIDs_node.
  - intros parentID'. apply updateItemIDsFrom_again.
Qed.

Example updateItemIDs_example :
  map item_id (_updateItemIDs [leaf None; mkItem (Some "copy") None None
                                 (Some [leaf None; leaf None]) None] None)
  = [Some "/0"; Some "copy"] ∧
  (item ← lookupPath (_updateItemIDs [leaf None; mkItem (Some "copy") None None
                                 (Some [leaf None; leaf None]) None] None) [1; 1]%nat;
   item_id item) = Some "copy/1".
Proof. split; reflexivity. Qed.

(** ** The loop over one wedge *)

Lemma next_index (len index : nat) :
  (index < len)%nat →
  ((index + 1) mod len)%nat = if (index + 1 =? len)%nat then 0%nat else (index + 1)%nat.
Proof.
  intros H. destruct (Nat.eqb_spec (index + 1) len) as [->|Hne].
  - apply Nat.Div0.mod_same.
  - apply Nat.mod_small. lia.
Qed.

Lemma between_next (len index e k : nat) :
  (index < len)%nat → (e < len)%nat → (k < len)%nat → index ≠ e →
  between index e k = (k =? index)%nat || between ((index + 1) mod len) e k.
Proof.
  intros Hi He Hk Hne. rewrite next_index by exact Hi.
  destruct (Nat.eqb_spec (index + 1) len); unfold between; nat_cases.
Qed.

Lemma turns_next (len index e : nat) :
  (index < len)%nat → (e < len)%nat → index ≠ e →
  turns len index e = S (turns len ((index + 1) mod len) e).
Proof.
  intros Hi He Hne. rewrite next_index by exact Hi.
  destruct (Nat.eqb_spec (index + 1) len); unfold turns; nat_cases.
Qed.

Lemma turns_bound (len index e : nat) :
  (index < len)%nat → (e < len)%nat → (turns len index e < len)%nat.
Proof. intros Hi He. unfold turns. nat_cases. Qed.

(** With enough fuel the loop ends.  It writes the positions [between] its
    start and its end with angles that do not depend on the array, and
    leaves the other positions as they are. *)
Lemma wedgeWhile_spec (len : nat) (bA gap : Q) (P : option Q) (e : nat) :
  (e < len)%nat →
  ∀ fuel index count pgr,
    (index < len)%nat → (turns len index e < fuel)%nat →
    ∃ f : nat → Q, ∀ items : list (option Q),
      length items = len →
      ∃ items', Layout.wedgeWhile fuel len bA gap P e index count pgr items = Some items' ∧
        length items' = len ∧
        ∀ k, (k < len)%nat →
          items' !! k = if between index e k then Some (Some (f k)) else items !! k.
Proof.
  intros He. induction fuel as [|fuel IH]; intros index count pgr Hi Hfuel; [lia|].
  simpl. destruct (Nat.eqb_spec index e) as [->|Hne].
  { exists (fun _ => 0). intros items Hlen. exists items. split; [reflexivity|].
    split; [exact Hlen|]. intros k Hk. unfold between. nat_cases. }
  rewrite (turns_next len index e Hi He Hne) in Hfuel.
  assert (Hnext : ((index + 1) mod len < len)%nat) by (apply Nat.mod_upper_bound; lia).
  match goal with
  | |- context [Layout.wedgeWhile fuel len bA gap P e _ ?c ?g (<[index := Some ?v]> _)] =>
      destruct (IH ((index + 1) mod len)%nat c g Hnext ltac:(lia)) as [f Hf];
      exists (fun k => if between ((index + 1) mod len) e k then f k else v)
  end.
  intros items Hlen.
  match goal with
  | |- context [<[index := ?v]> items] =>
      destruct (Hf (<[index := v]> items)) as (items' & Hrun & Hlen' & Hval)
  end.
  { rewrite length_insert. exact Hlen. }
  exists items'. split; [exact Hrun|]. split; [exact Hlen'|].
  intros k Hk. rewrite (Hval k Hk), (between_next len index e k Hi He Hk Hne).
  destruct (between ((index + 1) mod len) e k).
  - rewrite orb_true_r. reflexivity.
  - rewrite orb_false_r. destruct (Nat.eqb_spec k index) as [->|Hki].
    + apply list_lookup_insert_eq. lia.
    + apply list_lookup_insert_ne. congruence.
Qed.

(** One wedge: the angles it writes and the parent angle it hands on do not
    depend on the array. *)
Lemma wedgeBody_spec (len : nat) (fb fe : FixedAngle) (P : option Q) :
  (fa_index fb < len)%nat → (fa_index fe < len)%nat →
  ∃ (f : nat → Q) (P' : option Q), ∀ items : list (option Q),
    length items = len →
    ∃ items', Layout.wedgeBody fb fe (items, P) = (items', P') ∧
      length items' = len ∧
      ∀ k, (k < len)%nat →
        items' !! k =
          if between ((fa_index fb + 1) mod len) (fa_index fe) k
          then Some (Some (f k)) else items !! k.
Proof.
  intros Hb He.
  assert (Hidx : ((fa_index fb + 1) mod len < len)%nat)
    by (apply Nat.mod_upper_bound; lia).
  assert (Hfuel : (turns len ((fa_index fb + 1) mod len) (fa_index fe) < S len)%nat).
  { pose proof (turns_bound len _ _ Hidx He). lia. }
  edestruct (wedgeWhile_spec len) as [f Hf]; [exact He|exact Hidx|exact Hfuel|].
  exists f. eexists. intros items Hlen.
  unfold Layout.wedgeBody. rewrite Hlen.
  destruct (Hf items Hlen) as (items' & Hrun & Hlen' & Hval).
  rewrite Hrun. exists items'. split; [reflexivity|]. split; assumption.
Qed.

Lemma covered_cons (F : list FixedAngle) (len i : nat) (ws : list nat) (k : nat) :
  covered F len (i :: ws) k =
  between ((fa_index (nth i F Layout.noFixed) + 1) mod len)
          (fa_index (nth ((i + 1) mod length F) F Layout.noFixed)) k
  || covered F len ws k.
Proof. reflexivity. Qed.

Lemma wedges_fold_spec (F : list FixedAngle) (len : nat) :
  (∀ f, f ∈ F → (fa_index f < len)%nat) →
  ∀ ws, (∀ i, i ∈ ws → (i < length F)%nat) →
  ∀ P, ∃ (g : nat → Q) (P' : option Q), ∀ items : list (option Q),
    length items = len →
    ∃ items', fold_left (fun st i => Layout.wedge F i st) ws (items, P) = (items', P') ∧
      length items' = len ∧
      ∀ k, (k < len)%nat →
        items' !! k = if covered F len ws k then Some (Some (g k)) else items !! k.
Proof.
  intros HF. induction ws as [|i ws IH]; intros His P.
  { exists (fun _ => 0), P. intros items Hlen. exists items. auto. }
  assert (Hi : (i < length F)%nat) by (apply His; left).
  assert (Hb : (fa_index (nth i F Layout.noFixed) < len)%nat).
  { apply HF, list_elem_of_In, nth_In. exact Hi. }
  assert (He : (fa_index (nth ((i + 1) mod length F) F Layout.noFixed) < len)%nat).
  { apply HF, list_elem_of_In, nth_In. apply Nat.mod_upper_bound. lia. }
  destruct (wedgeBody_spec len _ _ P Hb He) as (f & P1 & Hbody).
  destruct (IH (fun j Hj => His j (list_elem_of_further _ _ _ Hj)) P1) as (g & P' & Hrest).
  exists (fun k => if covered F len ws k then g k else f k), P'.
  intros items Hlen.
  change (fold_left (fun st i => Layout.wedge F i st) (i :: ws) (items, P))
    with (fold_left (fun st i => Layout.wedge F i st) ws
            (Layout.wedgeBody (nth i F Layout.noFixed)
               (nth ((i + 1) mod length F) F Layout.noFixed) (items, P))).
  destruct (Hbody items Hlen) as (items1 & -> & Hlen1 & Hval1).
  destruct (Hrest items1 Hlen1) as (items' & -> & Hlen' & Hval').
  exists items'. split; [reflexivity|]. split; [exact Hlen'|].
  intros k Hk. rewrite (Hval' k Hk), (Hval1 k Hk), covered_cons.
  destruct (covered F len ws k).
  - rewrite orb_true_r. reflexivity.
  - rewrite orb_false_r. reflexivity.
Qed.

Lemma wedges_spec (F : list FixedAngle) (len : nat) (P : option Q) :
  (∀ f, f ∈ F → (fa_index f < len)%nat) →
  ∃ g : nat → Q, ∀ items : list (option Q),
    length items = len →
    length (fst (Layout.wedges F (items, P))) = len ∧
    ∀ k, (k < len)%nat →
      fst (Layout.wedges F (items, P)) !! k =
        if covered F len (seq 0 (length F)) k then Some (Some (g k)) else items !! k.
Proof.
  intros HF.
  destruct (wedges_fold_spec F len HF (seq 0 (length F))) with (P := P) as (g & P' & H).
  { intros i Hi. apply elem_of_seq in Hi. lia. }
  exists g. intros items Hlen. unfold Layout.wedges.
  destruct (H items Hlen) as (items' & -> & Hlen' & Hval). split; assumption.
Qed.

(** ** Every position without a fixed angle lies in a wedge *)

Lemma collectFrom_sorted (cols : list (option Q)) (i : nat) :
  StronglySorted lt (map fa_index (Layout.collectFrom i cols)).
Proof.
  revert i. induction cols as [|c cols IH]; intros i; simpl; [constructor|].
  destruct c as [v|]; [destruct (JS.truthy v)|]; try apply IH.
  simpl. constructor; [apply IH|].
  apply Forall_forall. intros j Hj.
  apply list_elem_of_fmap in Hj as (f & -> & Hf).
  apply collectFrom_index in Hf as [Hf _]. lia.
Qed.

Lemma sorted_nth (l : list nat) :
  StronglySorted lt l →
  ∀ i j, (i < j)%nat → (j < length l)%nat → (nth i l 0 < nth j l 0)%nat.
Proof.
  induction 1 as [|a l Hl IH Ha]; intros i j Hij Hj; simpl in Hj; [lia|].
  destruct j as [|j]; [lia|]. simpl.
  destruct i as [|i].
  - rewrite Forall_forall in Ha. apply Ha, list_elem_of_In, nth_In. lia.
  - apply IH; lia.
Qed.

Section Coverage.

Variable F : list FixedAngle.
Variable len k : nat.

Hypothesis F_sorted : StronglySorted lt (map fa_index F).
Hypothesis F_below : ∀ f, f ∈ F → (fa_index f < len)%nat.
Hypothesis F_nonempty : (0 < length F)%nat.
Hypothesis k_below : (k < len)%nat.
Hypothesis k_free : k ∉ map fa_index F.

Let idx (i : nat) : nat := fa_index (nth i F Layout.noFixed).

Lemma idx_in (i : nat) : (i < length F)%nat → idx i ∈ map fa_index F.
Proof.
  intros Hi. apply (list_elem_of_fmap_2 fa_index), list_elem_of_In, nth_In. exact Hi.
Qed.

Lemma idx_not_k (i : nat) : (i < length F)%nat → idx i ≠ k.
Proof. intros Hi Heq. apply k_free. rewrite <- Heq. apply idx_in. exact Hi. Qed.

Lemma idx_below (i : nat) : (i < length F)%nat → (idx i < len)%nat.
Proof. intros Hi. apply F_below, list_elem_of_In, nth_In. exact Hi. Qed.

Lemma idx_mono (i j : nat) : (i < j)%nat → (j < length F)%nat → (idx i < idx j)%nat.
Proof.
  intros Hij Hj. unfold idx.
  change 0%nat with (fa_index Layout.noFixed) in *.
  rewrite <- !(map_nth fa_index). apply sorted_nth; [exact F_sorted|exact Hij|].
  rewrite length_map. exact Hj.
Qed.

Lemma find_gap (n : nat) :
  ∀ j, (j + n = length F - 1)%nat → (idx j < k)%nat →
       (∃ i, (i + 1 < length F)%nat ∧ (idx i < k)%nat ∧ (k < idx (i + 1))%nat) ∨
       (idx (length F - 1) < k)%nat.
Proof.
  induction n as [|n IH]; intros j Hj Hlt.
  - right. replace (length F - 1)%nat with j by lia. exact Hlt.
  - pose proof (idx_not_k (j + 1)%nat ltac:(lia)) as Hne.
    destruct (Nat.lt_ge_cases k (idx (j + 1)%nat)) as [Hk|Hk].
    + left. exists j. split; [lia|]. split; assumption.
    + replace (S j) with (j + 1)%nat in * by lia.
      apply (IH (j + 1)%nat); lia.
Qed.

Lemma covered_free : covered F len (seq 0 (length F)) k = true.
Proof.
  unfold covered. apply existsb_exists. fold idx.
  assert (Hgap : (∃ i, (i + 1 < length F)%nat ∧ (idx i < k)%nat ∧ (k < idx (i + 1))%nat) ∨
                 (k < idx 0)%nat ∨ (idx (length F - 1) < k)%nat).
  { destruct (Nat.lt_ge_cases k (idx 0%nat)) as [Hk|Hk]; [auto|].
    pose proof (idx_not_k 0%nat F_nonempty) as Hne.
    destruct (find_gap (length F - 1)%nat 0%nat) as [H|H]; [lia|lia|auto|auto]. }
  destruct Hgap as [(i & Hi & Hlo & Hhi)|Hends].
  - exists i. split; [apply in_seq; lia|].
    change (fa_index (nth i F Layout.noFixed)) with (idx i).
    change (fa_index (nth ((i + 1) mod length F)%nat F Layout.noFixed))
      with (idx ((i + 1) mod length F)%nat).
    rewrite (Nat.mod_small (i + 1)%nat) by lia.
    rewrite (Nat.mod_small (idx i + 1)%nat) by lia.
    unfold between. nat_cases.
  - exists (length F - 1)%nat. split; [apply in_seq; lia|].
    change (fa_index (nth (length F - 1)%nat F Layout.noFixed))
      with (idx (length F - 1)%nat).
    change (fa_index (nth ((length F - 1 + 1) mod length F)%nat F Layout.noFixed))
      with (idx ((length F - 1 + 1) mod length F)%nat).
    replace (length F - 1 + 1)%nat with (length F) by lia.
    rewrite Nat.Div0.mod_same.
    assert (Hfirst : (idx 0 ≤ idx (length F - 1))%nat).
    { destruct (Nat.eq_dec (length F - 1)%nat 0%nat) as [->|Hne]; [lia|].
      apply Nat.lt_le_incl, idx_mono; lia. }
    pose proof (idx_below (length F - 1)%nat ltac:(lia)) as Hlast.
    rewrite next_index by exact Hlast.
    destruct (Nat.eqb_spec (idx (length F - 1) + 1)%nat len); unfold between; nat_cases.
Qed.

End Coverage.

(** ** What a level depends on *)

(** Two arrays that agree at the positions of the fixed angles come out of
    the wedges equal. *)
Lemma wedges_agree (F : list FixedAngle) (P : option Q) (items1 items2 : list (option Q)) :
  StronglySorted lt (map fa_index F) →
  (∀ f, f ∈ F → (fa_index f < length items1)%nat) →
  (0 < length F)%nat →
  length items2 = length items1 →
  (∀ k, k ∈ map fa_index F → items1 !! k = items2 !! k) →
  fst (Layout.wedges F (items1, P)) = fst (Layout.wedges F (items2, P)).
Proof.
  intros Hsorted Hbelow Hne Hlen Hagree.
  destruct (wedges_spec F (length items1) P Hbelow) as [g Hg].
  destruct (Hg items1 eq_refl) as [Hlen1 Hval1].
  destruct (Hg items2 Hlen) as [Hlen2 Hval2].
  apply list_eq. intros k.
  destruct (Nat.lt_ge_cases k (length items1)) as [Hk|Hk].
  - rewrite (Hval1 k Hk), (Hval2 k Hk).
    destruct (covered F (length items1) (seq 0 (length F)) k) eqn:Hcov; [reflexivity|].
    apply Hagree. destruct (decide (k ∈ map fa_index F)) as [Hin|Hout]; [exact Hin|].
    rewrite (covered_free F (length items1) k Hsorted Hbelow Hne Hk Hout) in Hcov.
    discriminate.
  - rewrite !lookup_ge_None_2; [reflexivity|lia..].
Qed.

(** After the wedges every position holds an angle, when the positions of
    the fixed angles did. *)
Lemma wedges_assigned (F : list FixedAngle) (P : option Q) (items : list (option Q)) :
  StronglySorted lt (map fa_index F) →
  (∀ f, f ∈ F → (fa_index f < length items)%nat) →
  (0 < length F)%nat →
  (∀ k, k ∈ map fa_index F → ∃ a, items !! k = Some (Some a)) →
  length (fst (Layout.wedges F (items, P))) = length items ∧
  ∀ k, (k < length items)%nat → ∃ a, fst (Layout.wedges F (items, P)) !! k = Some (Some a).
Proof.
  intros Hsorted Hbelow Hne Hfixed.
  destruct (wedges_spec F (length items) P Hbelow) as [g Hg].
  destruct (Hg items eq_refl) as [Hlen Hval]. split; [exact Hlen|].
  intros k Hk. rewrite (Hval k Hk).
  destruct (covered F (length items) (seq 0 (length F)) k) eqn:Hcov; [eauto|].
  apply Hfixed. destruct (decide (k ∈ map fa_index F)) as [Hin|Hout]; [exact Hin|].
  rewrite (covered_free F (length items) k Hsorted Hbelow Hne Hk Hout) in Hcov.
  discriminate.
Qed.

Lemma collectFixed_below (cols : list (option Q)) (f : FixedAngle) :
  f ∈ Layout.collectFixed cols →
  (fa_index f < length cols)%nat ∧ cols !! fa_index f = Some (Some (fa_angle f)) ∧
  JS.truthy (fa_angle f) = true.
Proof.
  intros Hf. apply collectFrom_index in Hf as (Hr & Hl & Ht).
  rewrite Nat.sub_0_r in Hl. split; [lia|]. split; assumption.
Qed.

(** The two cases of lines 272-279 give [wedges] what the lemmas above ask
    for. *)
Lemma level_eq (cols : list (option Q)) (parentAngle : option Q) :
  cols ≠ [] →
  Layout.checkFixed None (Layout.collectFixed cols) = true →
  Layout.parentCollides (Layout.collectFixed cols) parentAngle = false →
  ∃ F items,
    Layout.level cols parentAngle = Some (fst (Layout.wedges F (items, parentAngle))) ∧
    length items = length cols ∧
    StronglySorted lt (map fa_index F) ∧
    (∀ f, f ∈ F → (fa_index f < length items)%nat) ∧
    (0 < length F)%nat ∧
    (∀ f, f ∈ F → items !! fa_index f = Some (Some (fa_angle f))) ∧
    ((Layout.collectFixed cols = [] ∧
      F = [mkFixed (Layout.firstAngle parentAngle) 0] ∧
      items = <[0%nat := Some (Layout.firstAngle parentAngle)]> cols) ∨
     (F = Layout.collectFixed cols ∧ items = cols)).
Proof.
  intros Hne Hcheck Hcoll. unfold Layout.level.
  destruct cols as [|c cols]; [congruence|]. simpl length. simpl Nat.eqb. cbv iota.
  rewrite Hcheck, Hcoll. simpl negb. cbv iota.
  destruct (Layout.collectFixed (c :: cols)) as [|f F] eqn:HF.
  - simpl length. simpl Nat.eqb. cbv iota.
    eexists _, _. split; [reflexivity|].
    split; [reflexivity|]. split; [repeat constructor|].
    split; [intros f ->%list_elem_of_singleton; simpl; lia|].
    split; [simpl; lia|].
    split; [intros f ->%list_elem_of_singleton; reflexivity|].
    left. auto.
  - simpl length. simpl Nat.eqb. cbv iota.
    exists (f :: F), (c :: cols). split; [reflexivity|].
    split; [reflexivity|]. rewrite <- HF.
    split; [apply collectFrom_sorted|].
    split; [intros g Hg; apply collectFixed_below in Hg; tauto|].
    split; [rewrite HF; simpl; lia|].
    split; [intros g Hg; apply collectFixed_below in Hg; tauto|].
    right. auto.
Qed.

(** A level that succeeds leaves an angle on each of its items, so line 345
    never adds 180 to [undefined]. *)
Lemma level_assigned (cols angles : list (option Q)) (parentAngle : option Q) :
  cols ≠ [] →
  Layout.level cols parentAngle = Some angles →
  length angles = length cols ∧
  ∀ k, (k < length cols)%nat → ∃ a, angles !! k = Some (Some a).
Proof.
  intros Hne Hlevel.
  destruct (Layout.checkFixed None (Layout.collectFixed cols)) eqn:Hcheck;
    [|rewrite level_fails in Hlevel by auto; discriminate].
  destruct (Layout.parentCollides (Layout.collectFixed cols) parentAngle) eqn:Hcoll;
    [rewrite level_fails in Hlevel by auto; discriminate|].
  destruct (level_eq cols parentAngle Hne Hcheck Hcoll)
    as (F & items & Heq & Hlen & Hsorted & Hbelow & Hpos & Hfixed & _).
  rewrite Heq in Hlevel. injection Hlevel as <-. rewrite <- Hlen.
  apply wedges_assigned; try assumption.
  intros k Hk. apply list_elem_of_fmap in Hk as (f & -> & Hf). eauto.
Qed.

(** Away from [0] the first angle is chosen as lines 273-276 intend. *)
Lemma firstAngle_given (p : Q) :
  ¬ p == 0 → Layout.firstAngle (Some p) = if JS.lt p 180 then 270 else 90.
Proof.
  intros Hp. apply truthy_true in Hp. unfold Layout.firstAngle. rewrite Hp. reflexivity.
Qed.

(** A level without fixed angles succeeds, and its first item holds the
    angle of lines 273-278 when the wedge loop is done. *)
Lemma level_first_angle (cols : list (option Q)) (parentAngle : option Q) :
  cols ≠ [] →
  Forall (fun a => JS.truthy_opt a = false) cols →
  ∃ angles, Layout.level cols parentAngle = Some angles ∧
            angles !! 0%nat = Some (Some (Layout.firstAngle parentAngle)).
Proof.
  intros Hne Hfalsy.
  assert (HF : Layout.collectFixed cols = []).
  { apply collectFrom_none. exact Hfalsy. }
  destruct (level_eq cols parentAngle Hne) as (F & items & Hrun & Hlen & _ & Hbelow & Hpos & _ & Hcase).
  { rewrite HF. reflexivity. }
  { rewrite HF. unfold Layout.parentCollides. destruct parentAngle as [p|]; [|reflexivity].
    simpl. destruct (JS.truthy p); reflexivity. }
  destruct Hcase as [(_ & -> & ->)|[-> _]]; [|rewrite HF in Hpos; simpl in Hpos; lia].
  eexists. split; [exact Hrun|].
  destruct (wedges_spec [mkFixed (Layout.firstAngle parentAngle) 0] (length cols) parentAngle)
    as [g Hg].
  { intros f ->%list_elem_of_singleton. simpl. destruct cols; [congruence|simpl; lia]. }
  destruct (Hg (<[0%nat := Some (Layout.firstAngle parentAngle)]> cols)) as [_ Hval];
    [apply length_insert|].
  assert (H0 : (0 < length cols)%nat) by (destruct cols; [congruence|simpl; lia]).
  rewrite (Hval 0%nat H0).
  replace (covered _ _ _ _) with false.
  - apply list_lookup_insert_eq. exact H0.
  - unfold covered. cbn [length seq existsb nth fa_index].
    rewrite Nat.Div0.mod_same. cbn [nth fa_index]. rewrite orb_false_r.
    rewrite next_index by exact H0.
    destruct (Nat.eqb_spec (0 + 1) (length cols)); reflexivity.
Qed.

(** ** An angle of exactly 0 *)

Lemma collectFrom_withoutZero (cols : list (option Q)) (i : nat) :
  Layout.collectFrom i (map withoutZero cols) = Layout.collectFrom i cols.
Proof.
  revert i. induction cols as [|c cols IH]; intros i; [reflexivity|].
  simpl. rewrite IH. destruct c as [v|]; [|reflexivity].
  simpl. unfold JS.truthy. destruct (Qeq_bool v 0) eqn:Hv; simpl; [reflexivity|].
  rewrite Hv. reflexivity.
Qed.

Lemma level_withoutZero (cols : list (option Q)) (parentAngle : option Q) :
  Layout.level (map withoutZero cols) parentAngle = Layout.level cols parentAngle.
Proof.
  destruct cols as [|c cols]; [reflexivity|].
  set (cols0 := c :: cols). assert (Hne : cols0 ≠ []) by discriminate.
  assert (Hne' : map withoutZero cols0 ≠ []) by discriminate.
  assert (HF : Layout.collectFixed (map withoutZero cols0) = Layout.collectFixed cols0)
    by apply collectFrom_withoutZero.
  clearbody cols0. clear c cols.
  destruct (Layout.checkFixed None (Layout.collectFixed cols0)) eqn:Hcheck;
    [|rewrite !level_fails by (rewrite ?HF; auto); reflexivity].
  destruct (Layout.parentCollides (Layout.collectFixed cols0) parentAngle) eqn:Hcoll;
    [rewrite !level_fails by (rewrite ?HF; auto); reflexivity|].
  destruct (level_eq cols0 parentAngle Hne Hcheck Hcoll)
    as (F & items & -> & Hlen & Hsorted & Hbelow & Hpos & Hfixed & Hcase).
  destruct (level_eq (map withoutZero cols0) parentAngle Hne')
    as (F' & items' & -> & Hlen' & _ & _ & Hpos' & _ & Hcase');
    [rewrite HF; assumption..|].
  rewrite length_map in Hlen'. f_equal.
  assert (HFF : F' = F ∧ ∀ k, k ∈ map fa_index F → items !! k = items' !! k).
  { rewrite HF in Hcase'.
    destruct Hcase as [(Hnil & -> & ->)|[-> ->]];
      destruct Hcase' as [(Hnil' & -> & ->)|[-> ->]].
    - split; [reflexivity|]. intros k Hk. apply list_elem_of_singleton in Hk as ->.
      rewrite !list_lookup_insert_eq; [reflexivity|rewrite ?length_map; destruct cols0; simpl; try congruence; lia..].
    - rewrite Hnil in Hpos'. simpl in Hpos'. lia.
    - rewrite Hnil' in Hpos. simpl in Hpos. lia.
    - split; [reflexivity|]. intros k Hk.
      apply list_elem_of_fmap in Hk as (f & -> & Hf).
      apply collectFixed_below in Hf as (_ & Hl & Ht).
      rewrite list_lookup_fmap, Hl. simpl.
      unfold JS.truthy in Ht. apply negb_true_iff in Ht. rewrite Ht. reflexivity. }
  destruct HFF as [-> Hagree]. symmetry.
  apply wedges_agree; try assumption. congruence.
Qed.

Lemma checkFixed_sorted (F : list FixedAngle) :
  ∀ prev,
    match prev with
    | Some p => Forall (Qlt p) (map fa_angle F)
    | None => True
    end →
    StronglySorted Qlt (map fa_angle F) →
    Forall (fun a => 0 <= a ∧ a < 360) (map fa_angle F) →
    Layout.checkFixed prev F = true.
Proof.
  induction F as [|f F IH]; intros prev Hprev Hsorted Hrange; [reflexivity|].
  simpl in Hsorted, Hrange |- *.
  apply StronglySorted_inv in Hsorted as [Hsorted Hall].
  apply Forall_cons in Hrange as [[Hlo Hhi] Hrange].
  assert (H1 : match prev with
               | Some p => JS.le (fa_angle f) p
               | None => false
               end = false).
  { destruct prev as [p|]; [|reflexivity]. simpl in Hprev.
    apply Forall_cons in Hprev as [Hp _]. apply le_false. exact Hp. }
  rewrite H1.
  assert (H2 : JS.lt (fa_angle f) 0 = false) by (apply lt_false; exact Hlo).
  assert (H3 : JS.le 360 (fa_angle f) = false) by (apply le_false; exact Hhi).
  rewrite H2, H3. simpl. apply IH; assumption.
Qed.

Lemma parentCollides_clear (F : list FixedAngle) (parentAngle : option Q) :
  match parentAngle with
  | Some p => p == 0 ∨ Forall (fun a => 1 <= Qabs (a - p)) (map fa_angle F)
  | None => True
  end →
  Layout.parentCollides F parentAngle = false.
Proof.
  intros Hparent. unfold Layout.parentCollides.
  destruct parentAngle as [p|]; [|reflexivity].
  simpl. destruct (JS.truthy p) eqn:Hp; [|reflexivity].
  destruct Hparent as [H0|Hfar]; [apply truthy_true in Hp; contradiction|].
  destruct (existsb _ _) eqn:Hex; [|reflexivity].
  apply existsb_exists in Hex as (f & Hf & Hnear). apply lt_true in Hnear.
  rewrite Forall_forall in Hfar.
  specialize (Hfar (fa_angle f)
                (list_elem_of_fmap_2 fa_angle _ f (proj2 (list_elem_of_In _ _) Hf))).
  exfalso. exact (Qlt_not_le _ _ Hnear Hfar).
Qed.

Lemma resolve_clearAngle (item : MenuItem) (a : option Q) :
  resolve (clearAngle item) a = resolve item a.
Proof. destruct item. reflexivity. Qed.

Lemma resolveAll_clearAngle (items : list MenuItem) (k : nat) (item : MenuItem)
    (angles : list (option Q)) :
  items !! k = Some item →
  resolveAll (<[k := clearAngle item]> items) angles = resolveAll items angles.
Proof.
  revert k angles. induction items as [|c cs IH]; intros k angles Hk; [discriminate|].
  destruct angles as [|a' angles]; [destruct k; reflexivity|].
  destruct k as [|k].
  - injection Hk as ->.
    change (resolve (clearAngle item) a' :: resolveAll cs angles =
            resolve item a' :: resolveAll cs angles).
    rewrite resolve_clearAngle. reflexivity.
  - change (resolve c a' :: resolveAll (<[k := clearAngle item]> cs) angles =
            resolve c a' :: resolveAll cs angles).
    rewrite (IH k angles Hk). reflexivity.
Qed.

(** C10.  For an item whose [angle] is exactly [0], the index of the item
    is not among the fixed angles that are collected, and the call on the
    list does what it does on the list in which that item has no [angle]:
    the same fixed angles and the same returned flag.  The [0] is not held
    against the rules for fixed angles: when the fixed angles of the other
    items are strictly increasing, in [0, 360) and clear of the parent
    angle, the call returns [true], whatever the place of the item among
    them.  On [true] the items are those of the call on the other list, the
    item itself holding the angle the wedge loop gave it. *)
Theorem zero_angle_is_not_fixed (items : list MenuItem) (k : nat) (item : MenuItem)
    (a : Q) (parentAngle : option Q) :
  items !! k = Some item →
  item_angle item = Some a →
  a == 0 →
  let items' := <[k := clearAngle item]> items in
  (k ∉ map fa_index (Layout.collectFixed (map item_angle items))) ∧
  Layout.collectFixed (map item_angle items') =
    Layout.collectFixed (map item_angle items) ∧
  fst (_updateItemAngles items' parentAngle) = fst (_updateItemAngles items parentAngle) ∧
  (StronglySorted Qlt (fixedAnglesOf items') →
   Forall (fun b => 0 <= b ∧ b < 360) (fixedAnglesOf items') →
   match parentAngle with
   | Some p => p == 0 ∨ Forall (fun b => 1 <= Qabs (b - p)) (fixedAnglesOf items')
   | None => True
   end →
   fst (_updateItemAngles items parentAngle) = true) ∧
  (fst (_updateItemAngles items parentAngle) = true →
   snd (_updateItemAngles items' parentAngle) = snd (_updateItemAngles items parentAngle) ∧
   ∃ item' a', snd (_updateItemAngles items parentAngle) !! k = Some item' ∧
               item_angle item' = Some a').
Proof.
  intros Hk Ha Ha0 items'.
  assert (Hcols : map withoutZero (map item_angle items') =
                  map withoutZero (map item_angle items)).
  { apply list_eq. intros j. rewrite !list_lookup_fmap. unfold items'.
    destruct (decide (j = k)) as [->|Hj].
    - rewrite list_lookup_insert_eq by (apply lookup_lt_Some in Hk; exact Hk).
      rewrite Hk. simpl. rewrite Ha. simpl.
      apply Qeq_bool_iff in Ha0. rewrite Ha0. reflexivity.
    - rewrite list_lookup_insert_ne by congruence. reflexivity. }
  assert (Hlevel : Layout.level (map item_angle items') parentAngle =
                   Layout.level (map item_angle items) parentAngle).
  { rewrite <- (level_withoutZero (map item_angle items')), Hcols.
    apply level_withoutZero. }
  assert (Hfixed : Layout.collectFixed (map item_angle items') =
                   Layout.collectFixed (map item_angle items)).
  { unfold Layout.collectFixed.
    rewrite <- (collectFrom_withoutZero (map item_angle items')), Hcols.
    apply collectFrom_withoutZero. }
  split; [|split; [|split; [|split]]].
  - intros Hin. apply list_elem_of_fmap in Hin as (f & -> & Hf).
    apply collectFixed_below in Hf as (_ & Hl & Ht).
    rewrite list_lookup_fmap, Hk in Hl. simpl in Hl. rewrite Ha in Hl.
    injection Hl as ->. apply truthy_true in Ht. contradiction.
  - exact Hfixed.
  - unfold _updateItemAngles. rewrite Hlevel.
    destruct (Layout.level (map item_angle items) parentAngle); reflexivity.
  - unfold fixedAnglesOf. rewrite Hfixed. intros Hsorted Hrange Hparent.
    unfold _updateItemAngles, Layout.level.
    destruct (Nat.eqb (length (map item_angle items)) 0); [reflexivity|].
    rewrite (checkFixed_sorted _ None I Hsorted Hrange). cbn [negb].
    rewrite (parentCollides_clear _ parentAngle Hparent).
    destruct (Nat.eqb _ 0); reflexivity.
  - unfold _updateItemAngles. rewrite Hlevel.
    destruct (Layout.level (map item_angle items) parentAngle) as [angles|] eqn:Hrun;
      [intros _|discriminate]. simpl. split.
    + apply resolveAll_clearAngle. exact Hk.
    + apply level_assigned in Hrun as [Hlen Hall].
      2:{ intros Hnil. apply map_eq_nil in Hnil. subst items. discriminate. }
      rewrite length_map in Hall, Hlen.
      destruct (Hall k) as [a' Ha']; [apply lookup_lt_Some in Hk; exact Hk|].
      exists (resolve item (Some a')), a'. split.
      * unfold resolveAll. rewrite lookup_zip_with, Hk, Ha'. reflexivity.
      * destruct item. reflexivity.
Qed.

(** The list [100; 0] below a parent link at [0.5]: as a fixed angle the
    [0] would come after 100 and lie within one degree of the parent link.
    The only fixed angle of the other items is 100, so the call returns
    [true], and the item is moved. *)
Lemma zero_angle_is_not_fixed_witness :
  let items := [leaf (Some 100); leaf (Some 0)] in
  fst (_updateItemAngles items (Some 0.5)) = true ∧
  snd (_updateItemAngles [leaf (Some 100); leaf None] (Some 0.5)) =
  snd (_updateItemAngles items (Some 0.5)) ∧
  ∃ item' a', snd (_updateItemAngles items (Some 0.5)) !! 1%nat = Some item' ∧
              item_angle item' = Some a'.
Proof.
  intros items.
  destruct (zero_angle_is_not_fixed items 1 (leaf (Some 0)) 0 (Some 0.5))
    as (_ & _ & _ & Hflag & Hitems).
  - reflexivity.
  - reflexivity.
  - reflexivity.
  - assert (Htrue : fst (_updateItemAngles items (Some 0.5)) = true).
    { apply Hflag.
      + apply SSorted_cons; [apply SSorted_nil|apply List.Forall_nil].
      + apply List.Forall_cons; [split; [discriminate|reflexivity]|apply List.Forall_nil].
      + right. apply List.Forall_cons; [discriminate|apply List.Forall_nil]. }
    split; [exact Htrue|]. exact (Hitems Htrue).
Defined.

(** With the angle [0] on the second item a fixed angle, the list
    [100; 0] would not be increasing and [0] would be within one degree of
    the parent link at [0.5]; the call succeeds and moves the item. *)
Example zero_angle_example :
  let r := _updateItemAngles [leaf (Some 100); leaf (Some 0)] (Some 0.5) in
  fst r = true ∧ map (fun item => Qred <$> item_angle item) (snd r) = [Some 100; Some 220].
Proof. vm_compute. split; reflexivity. Qed.

(** ** The remainder of an angle *)

Lemma trunc_floor (q : Q) : 0 <= q → JS.trunc q = Qfloor q.
Proof.
  destruct q as [n d]. unfold Qle. simpl. intros H.
  apply Z.quot_div_nonneg; lia.
Qed.

Lemma floor_unique (q : Q) (z : Z) :
  inject_Z z <= q → q < inject_Z (z + 1) → Qfloor q = z.
Proof.
  intros Hlo Hhi.
  pose proof (Qle_lt_trans _ _ _ (Qfloor_le q) Hhi) as H1.
  pose proof (Qle_lt_trans _ _ _ Hlo (Qlt_floor q)) as H2.
  rewrite <- Zlt_Qlt in H1, H2. lia.
Qed.

Lemma rem_below (x : Q) : 0 <= x → x < 360 → JS.rem x 360 == x.
Proof.
  intros Hlo Hhi. unfold JS.rem.
  assert (H0 : 0 <= x / 360) by (apply Qle_shift_div_l; lra).
  rewrite (trunc_floor _ H0), (floor_unique _ 0).
  - ring.
  - exact H0.
  - apply Qlt_shift_div_r; [reflexivity|]. change (inject_Z (0 + 1)) with 1. lra.
Qed.

Lemma rem_above (x : Q) : 360 <= x → x < 720 → JS.rem x 360 == x - 360.
Proof.
  intros Hlo Hhi. unfold JS.rem.
  assert (H0 : 0 <= x / 360) by (apply Qle_shift_div_l; lra).
  rewrite (trunc_floor _ H0), (floor_unique _ 1).
  - ring.
  - apply Qle_shift_div_l; [reflexivity|]. change (inject_Z 1) with 1. lra.
  - apply Qlt_shift_div_r; [reflexivity|]. change (inject_Z (1 + 1)) with 2. lra.
Qed.

(** ** A level without fixed angles and without a parent link *)

Lemma share_bounds (d N : Q) :
  0 <= d → d < N → 0 <= d * (360 / N) ∧ d * (360 / N) < 360.
Proof.
  intros Hd HN. assert (HN0 : 0 < N) by lra.
  assert (Heq : d * (360 / N) == (d * 360) / N) by (field; lra).
  rewrite Heq. split.
  - apply Qle_shift_div_l; lra.
  - apply Qlt_shift_div_r; lra.
Qed.

Lemma share_positive (d N : Q) : 0 < d → d < N → 0 < d * (360 / N).
Proof.
  intros Hd HN. assert (HN0 : 0 < N) by lra.
  assert (Heq : d * (360 / N) == (d * 360) / N) by (field; lra).
  rewrite Heq. apply Qlt_shift_div_l; lra.
Qed.

Lemma spaced_range (n k : nat) : (k < n)%nat → 0 <= spaced n k ∧ spaced n k < 360.
Proof.
  intros Hk. unfold spaced.
  destruct (share_bounds (inject_Z (Z.of_nat k)) (inject_Z (Z.of_nat n))) as [Hlo Hhi].
  { change 0 with (inject_Z 0). rewrite <- Zle_Qle. lia. }
  { rewrite <- Zlt_Qlt. lia. }
  cbv zeta.
  destruct (JS.lt _ 360) eqn:Hlt; [apply lt_true in Hlt|apply lt_false in Hlt]; lra.
Qed.

Lemma spaced_inj (n i j : nat) :
  (i < j)%nat → (j < n)%nat → ¬ spaced n i == spaced n j.
Proof.
  intros Hij Hj.
  set (N := inject_Z (Z.of_nat n)).
  assert (Hd : 0 < (inject_Z (Z.of_nat j) - inject_Z (Z.of_nat i)) * (360 / N) ∧
               (inject_Z (Z.of_nat j) - inject_Z (Z.of_nat i)) * (360 / N) < 360).
  { assert (H1 : inject_Z (Z.of_nat i) < inject_Z (Z.of_nat j))
      by (rewrite <- Zlt_Qlt; lia).
    assert (H2 : inject_Z (Z.of_nat j) < N) by (unfold N; rewrite <- Zlt_Qlt; lia).
    assert (H3 : 0 <= inject_Z (Z.of_nat i))
      by (change 0 with (inject_Z 0); rewrite <- Zle_Qle; lia).
    split; [apply share_positive; lra|apply share_bounds; lra]. }
  unfold spaced. fold N. cbv zeta.
  set (g := 360 / N) in *.
  destruct (JS.lt (90 + inject_Z (Z.of_nat i) * g) 360) eqn:Hi;
    destruct (JS.lt (90 + inject_Z (Z.of_nat j) * g) 360) eqn:Hj';
    try apply lt_true in Hi; try apply lt_false in Hi;
    try apply lt_true in Hj'; try apply lt_false in Hj';
    intros Heq; destruct Hd as [Hd1 Hd2];
    ring_simplify in Hd1; ring_simplify in Hd2; lra.
Qed.

(** The loop of one wedge that ends at index [0] and has no parent link to
    make room for: the positions from [index] on get [begin + gap * count],
    [begin + gap * (count + 1)], ... *)
Lemma wedgeWhile_even (len : nat) (bA gap : Q) (P : option Q) :
  ∀ fuel index count items,
    (1 ≤ index)%nat → (index ≤ len)%nat → (len - index < fuel)%nat →
    length items = len →
    ∃ items',
      Layout.wedgeWhile fuel len bA gap P 0 (index mod len) count false items
        = Some items' ∧
      length items' = len ∧
      ∀ k, (k < len)%nat →
        items' !! k =
          if (index <=? k)%nat
          then Some (Some (JS.rem (bA + gap * inject_Z (count + Z.of_nat (k - index))) 360))
          else items !! k.
Proof.
  induction fuel as [|fuel IH]; intros index count items Hlo Hhi Hfuel Hlen; [lia|].
  destruct (Nat.eq_dec index len) as [->|Hne].
  - rewrite Nat.Div0.mod_same. simpl. exists items. split; [reflexivity|].
    split; [exact Hlen|]. intros k Hk. nat_cases.
  - rewrite (Nat.mod_small index len) by lia. simpl.
    destruct (Nat.eqb_spec index 0) as [->|_]; [lia|].
    destruct (IH (index + 1)%nat (count + 1)%Z
                 (<[index := Some (JS.rem (bA + gap * inject_Z count) 360)]> items))
      as (items' & Hrun & Hlen' & Hval); [lia|lia|lia|rewrite length_insert; exact Hlen|].
    exists items'. split; [exact Hrun|]. split; [exact Hlen'|].
    intros k Hk. rewrite (Hval k Hk).
    destruct (Nat.leb_spec (index + 1) k) as [Hk1|Hk1].
    + destruct (Nat.leb_spec index k) as [_|]; [|lia].
      replace (count + 1 + Z.of_nat (k - (index + 1)))%Z
        with (count + Z.of_nat (k - index))%Z by lia.
      reflexivity.
    + destruct (Nat.leb_spec index k) as [Hk2|Hk2].
      * assert (k = index) as -> by lia.
        rewrite list_lookup_insert_eq by lia.
        rewrite Nat.sub_diag, Z.add_0_r. reflexivity.
      * apply list_lookup_insert_ne. lia.
Qed.

(** The angles of such a level, as the wedge loop computes them. *)
Lemma level_even (cols : list (option Q)) :
  cols ≠ [] →
  Forall (fun a => JS.truthy_opt a = false) cols →
  ∃ angles, Layout.level cols None = Some angles ∧
    length angles = length cols ∧
    ∀ k, (k < length cols)%nat → ∃ a, angles !! k = Some (Some a) ∧ a == spaced (length cols) k.
Proof.
  intros Hne Hfalsy. unfold Layout.level.
  destruct cols as [|c cols]; [congruence|].
  set (items := c :: cols) in *.
  assert (Hlen : (1 ≤ length items)%nat) by (simpl; lia).
  destruct (Nat.eqb_spec (length items) 0) as [H0|_]; [lia|].
  unfold Layout.collectFixed. rewrite (collectFrom_none items 0 Hfalsy).
  cbn [Layout.checkFixed negb Layout.parentCollides JS.truthy_opt length Nat.eqb
       Layout.firstAngle].
  unfold Layout.wedges. cbn [length seq fold_left]. unfold Layout.wedge.
  cbn [length nth Nat.add]. rewrite Nat.Div0.mod_same. cbn [nth].
  unfold Layout.wedgeBody. cbn [fa_index fa_angle]. rewrite length_insert.
  set (gap := _ / _).
  destruct (wedgeWhile_even (length items) 90 gap None (S (length items)) 1 1
              (<[0%nat := Some 90]> items))
    as (angles & Hrun & Hlen' & Hval); [lia|lia|lia|apply length_insert|].
  change (0 + 1)%nat with 1%nat. rewrite Hrun. cbn [fst].
  exists angles. split; [reflexivity|]. split; [exact Hlen'|].
  intros k Hk. rewrite (Hval k Hk).
  assert (HN : 0 < inject_Z (Z.of_nat (length items))).
  { change 0 with (inject_Z 0). rewrite <- Zlt_Qlt. lia. }
  destruct (Nat.leb_spec 1 k) as [Hk1|Hk1].
  - eexists. split; [reflexivity|].
    assert (Hgap : gap == 360 / inject_Z (Z.of_nat (length items))).
    { unfold gap. change (JS.le 90 90) with true. cbv iota.
      rewrite Z.rem_small by lia.
      replace (Z.of_nat 0 - Z.of_nat 0 - 1 + Z.of_nat (length items) + 1)%Z
        with (Z.of_nat (length items)) by lia.
      field. lra. }
    replace (1 + Z.of_nat (k - 1))%Z with (Z.of_nat k) by lia.
    destruct (share_bounds (inject_Z (Z.of_nat k)) (inject_Z (Z.of_nat (length items))))
      as [Hlo Hhi].
    { change 0 with (inject_Z 0). rewrite <- Zle_Qle. lia. }
    { rewrite <- Zlt_Qlt. lia. }
    assert (Hx : 90 + gap * inject_Z (Z.of_nat k) ==
                 90 + inject_Z (Z.of_nat k) * (360 / inject_Z (Z.of_nat (length items)))).
    { rewrite Hgap. ring. }
    unfold spaced. cbv zeta.
    destruct (JS.lt _ 360) eqn:Hlt; [apply lt_true in Hlt|apply lt_false in Hlt].
    + rewrite rem_below; [exact Hx|lra..].
    + rewrite rem_above; [rewrite Hx; reflexivity|lra..].
  - assert (k = 0%nat) as -> by lia.
    rewrite list_lookup_insert_eq by lia.
    eexists. split; [reflexivity|].
    unfold spaced. change (inject_Z (Z.of_nat 0)) with 0. cbv zeta.
    assert (Hx : 90 + 0 * (360 / inject_Z (Z.of_nat (length items))) == 90) by ring.
    destruct (JS.lt _ 360) eqn:Hlt; [apply lt_true in Hlt|apply lt_false in Hlt].
    + rewrite Hx. reflexivity.
    + lra.
Qed.

Lemma resolve_angle (item : MenuItem) (a : option Q) : item_angle (resolve item a) = a.
Proof. destruct item. reflexivity. Qed.

Lemma resolveAll_lookup (items : list MenuItem) (angles : list (option Q)) (k : nat)
    (item : MenuItem) :
  resolveAll items angles !! k = Some item →
  ∃ item0 a, items !! k = Some item0 ∧ angles !! k = Some a ∧ item = resolve item0 a.
Proof.
  unfold resolveAll. rewrite lookup_zip_with.
  destruct (items !! k) as [item0|]; [|discriminate].
  destruct (angles !! k) as [a|]; [|discriminate].
  simpl. intros [= <-]. eauto.
Qed.

(** C3.  A non-empty list in which every item has no [angle] or the angle
    [0], laid out without a parent angle: the call returns [true]; item [k]
    of the [n] items gets [90 + k * (360 / n)] reduced into [0, 360), so
    the first item is at 90 degrees and each next one [360 / n] further
    round the circle; the angles of two different items differ; and for
    three items they are 90, 210 and 330. *)
Theorem even_spacing (items : list MenuItem) :
  items ≠ [] →
  (∀ item, item ∈ items →
     item_angle item = None ∨ ∃ a, item_angle item = Some a ∧ a == 0) →
  let n := length items in
  let r := _updateItemAngles items None in
  fst r = true ∧
  length (snd r) = n ∧
  (∀ k, (k < n)%nat →
     ∃ item a, snd r !! k = Some item ∧ item_angle item = Some a ∧
               a == spaced n k ∧ 0 <= a ∧ a < 360) ∧
  (∀ i j itemi itemj a b,
     i ≠ j → snd r !! i = Some itemi → snd r !! j = Some itemj →
     item_angle itemi = Some a → item_angle itemj = Some b → ¬ a == b) ∧
  (n = 3%nat →
     ∃ a0 a1 a2, map item_angle (snd r) = [Some a0; Some a1; Some a2] ∧
                 a0 == 90 ∧ a1 == 210 ∧ a2 == 330).
Proof.
  intros Hne Hfree n r.
  assert (Hfalsy : Forall (fun a => JS.truthy_opt a = false) (map item_angle items)).
  { apply Forall_forall. intros a Ha.
    apply list_elem_of_fmap in Ha as (item & -> & Hitem).
    destruct (Hfree item Hitem) as [->|(a & -> & Ha0)]; [reflexivity|].
    apply truthy_false. exact Ha0. }
  destruct (level_even (map item_angle items)) as (angles & Hrun & Hlen & Hval);
    [intros Hnil; apply map_eq_nil in Hnil; contradiction|exact Hfalsy|].
  rewrite length_map in Hlen, Hval. fold n in Hlen, Hval.
  assert (Hr : r = (true, resolveAll items angles)).
  { unfold r, _updateItemAngles. rewrite Hrun. reflexivity. }
  rewrite Hr. cbn [fst snd].
  assert (Hlenr : length (resolveAll items angles) = n).
  { unfold resolveAll. rewrite length_zip_with. unfold n. lia. }
  assert (Hangle : ∀ k item a, resolveAll items angles !! k = Some item →
                     item_angle item = Some a → (k < n)%nat ∧ a == spaced n k).
  { intros k item a Hitem Ha.
    assert (Hk : (k < n)%nat) by (rewrite <- Hlenr; eapply lookup_lt_Some; eassumption).
    split; [exact Hk|].
    apply resolveAll_lookup in Hitem as (item0 & a' & _ & Ha' & ->).
    rewrite resolve_angle in Ha. subst a'.
    destruct (Hval k Hk) as (a'' & Ha'' & Heq). congruence. }
  assert (Hitem : ∀ k, (k < n)%nat →
            ∃ item a, resolveAll items angles !! k = Some item ∧
                      item_angle item = Some a ∧ a == spaced n k ∧ 0 <= a ∧ a < 360).
  { intros k Hk. destruct (lookup_lt_is_Some_2 (resolveAll items angles) k) as [item Hit];
      [lia|].
    destruct (resolveAll_lookup _ _ _ _ Hit) as (item0 & a' & _ & Ha' & ->).
    destruct (Hval k Hk) as (a & Ha & Heq). rewrite Ha in Ha'. injection Ha' as <-.
    exists (resolve item0 (Some a)), a. split; [exact Hit|].
    split; [apply resolve_angle|]. split; [exact Heq|].
    destruct (spaced_range n k Hk). rewrite Heq. split; assumption. }
  split; [reflexivity|]. split; [exact Hlenr|]. split; [exact Hitem|]. split.
  - intros i j itemi itemj a b Hij Hi Hj Ha Hb Heq.
    destruct (Hangle i itemi a Hi Ha) as [Hin Hai].
    destruct (Hangle j itemj b Hj Hb) as [Hjn Hbj].
    rewrite Hai, Hbj in Heq.
    destruct (Nat.lt_total i j) as [Hlt|[Heq'|Hlt]]; [|contradiction|].
    + exact (spaced_inj n i j Hlt Hjn Heq).
    + symmetry in Heq. exact (spaced_inj n j i Hlt Hin Heq).
  - intros Hn3.
    destruct (Hitem 0%nat) as (i0 & a0 & H0 & Ha0 & Hs0 & _); [lia|].
    destruct (Hitem 1%nat) as (i1 & a1 & H1 & Ha1 & Hs1 & _); [lia|].
    destruct (Hitem 2%nat) as (i2 & a2 & H2 & Ha2 & Hs2 & _); [lia|].
    rewrite Hn3 in Hlenr, Hs0, Hs1, Hs2.
    destruct (resolveAll items angles) as [|x0 [|x1 [|x2 [|x3 l]]]]; try discriminate.
    injection H0 as ->. injection H1 as ->. injection H2 as ->.
    exists a0, a1, a2. simpl. rewrite Ha0, Ha1, Ha2.
    split; [reflexivity|]. split; [|split].
    + rewrite Hs0. reflexivity.
    + rewrite Hs1. reflexivity.
    + rewrite Hs2. reflexivity.
Qed.

Lemma even_spacing_witness :
  let r := _updateItemAngles [leaf None; node (Some 0) [leaf None]; leaf None] None in
  fst r = true ∧
  ∃ a0 a1 a2, map item_angle (snd r) = [Some a0; Some a1; Some a2] ∧
              a0 == 90 ∧ a1 == 210 ∧ a2 == 330.
Proof.
  destruct (even_spacing [leaf None; node (Some 0) [leaf None]; leaf None])
    as (Hflag & _ & _ & _ & Hthree).
  - discriminate.
  - intros item Hitem. repeat (apply elem_of_cons in Hitem as [->|Hitem]).
    + left. reflexivity.
    + right. exists 0. split; reflexivity.
    + left. reflexivity.
    + inversion Hitem.
  - split; [exact Hflag|]. apply Hthree. reflexivity.
Defined.

(** The scenario of the specification, computed. *)
Example three_items :
  map (fun item => Qred <$> item_angle item)
      (snd (_updateItemAngles [leaf None; leaf None; leaf None] None))
  = [Some 90; Some 210; Some 330].
Proof. reflexivity. Qed.

(** * Further properties *)

(** ** The reconciler, continued *)

Section ReconcilerMore.

Local Instance unbind_inj' : Inj (=) (=) unbind.
Proof. intros x y [= ->]. reflexivity. Qed.

Local Instance bind_inj' : Inj (=) (=) bind.
Proof. intros x y [= ->]. reflexivity. Qed.

(** The calls are the [unbind]s of a list [gone] followed by the [bind]s of
    a list [fresh]. *)
Lemma calls_shape (menuConfigs : list MenuConfig) (bound : list string) :
  NoDup bound →
  ∃ gone fresh,
    _onMenuConfigsChanged menuConfigs bound = map unbind gone ++ map bind fresh ∧
    (∀ s, s ∈ gone ↔ s ∈ bound ∧ ¬ desired menuConfigs s) ∧
    (∀ s, s ∈ fresh ↔ desired menuConfigs s ∧ s ∉ bound).
Proof.
  intros Hnd. unfold _onMenuConfigsChanged, unbindLoop.
  destruct (requiredShortcuts_spec menuConfigs) as [Hreq _].
  destruct (unbindFrom_spec bound (requiredShortcuts menuConfigs) [] Hnd)
    as (Hin & _ & gone & Hcalls & Hgone & _).
  destruct (fold_left _ bound _) as [newShortcuts calls0].
  simpl in Hin, Hcalls. subst calls0. exists gone, newShortcuts.
  split; [reflexivity|]. split.
  - intros s. rewrite Hgone, Hreq. reflexivity.
  - intros s. rewrite Hin, Hreq. reflexivity.
Qed.

(** X1.  After a change of the configuration, the shortcuts that were bound
    and got no [unbind], together with those that got a [bind], are exactly
    the non-empty shortcut strings of the configuration. *)
Theorem bound_after_change (menuConfigs : list MenuConfig) (bound : list string) :
  NoDup bound →
  ∀ s, desired menuConfigs s ↔
       (s ∈ bound ∧ unbind s ∉ _onMenuConfigsChanged menuConfigs bound) ∨
       bind s ∈ _onMenuConfigsChanged menuConfigs bound.
Proof.
  intros Hnd s.
  destruct (calls_shape menuConfigs bound Hnd) as (gone & fresh & -> & Hgone & Hfresh).
  assert (Hu : unbind s ∈ map unbind gone ++ map bind fresh ↔ s ∈ gone).
  { rewrite elem_of_app. split.
    - intros [H|H]; [apply (list_elem_of_fmap_inj unbind) in H; exact H|].
      apply list_elem_of_fmap in H as (x & [=] & _).
    - intros H. left. apply (list_elem_of_fmap_2 unbind). exact H. }
  assert (Hb : bind s ∈ map unbind gone ++ map bind fresh ↔ s ∈ fresh).
  { rewrite elem_of_app. split.
    - intros [H|H]; [|apply (list_elem_of_fmap_inj bind) in H; exact H].
      apply list_elem_of_fmap in H as (x & [=] & _).
    - intros H. right. apply (list_elem_of_fmap_2 bind). exact H. }
  rewrite Hu, Hb, Hgone, Hfresh.
  destruct (decide (s ∈ bound)) as [Hs|Hs]; split.
  - intros Hd. left. split; [exact Hs|]. tauto.
  - intros [[_ Hn]|[Hd _]]; [|exact Hd].
    destruct (decide (s = "")) as [->|Hne].
    + exfalso. apply Hn. split; [exact Hs|]. intros [H _]. congruence.
    + destruct (decide (s ∈ map cfg_data menuConfigs)) as [Hin|Hout].
      * apply list_elem_of_fmap in Hin as (c & -> & Hc). split; [exact Hne|eauto].
      * exfalso. apply Hn. split; [exact Hs|]. intros (_ & c & Hc & <-).
        apply Hout. apply (list_elem_of_fmap_2 cfg_data). exact Hc.
  - intros Hd. right. tauto.
  - intros [[Hs' _]|[Hd _]]; [contradiction|exact Hd].
Qed.

Lemma bound_after_change_witness :
  desired [mkConfig "first" "B"; mkConfig "second" "C"] "C" ↔
  ("C" ∈ ["A"; "B"] ∧
   unbind "C" ∉ _onMenuConfigsChanged [mkConfig "first" "B"; mkConfig "second" "C"] ["A"; "B"]) ∨
  bind "C" ∈ _onMenuConfigsChanged [mkConfig "first" "B"; mkConfig "second" "C"] ["A"; "B"].
Proof.
  apply (bound_after_change [mkConfig "first" "B"; mkConfig "second" "C"] ["A"; "B"]).
  apply NoDup_cons. split; [|apply NoDup_singleton].
  intros H. apply list_elem_of_singleton in H. discriminate.
Defined.

(** X2.  When the bound shortcuts already are the non-empty shortcut
    strings of the configuration, the change makes no call at all. *)
Theorem no_calls_when_in_sync (menuConfigs : list MenuConfig) (bound : list string) :
  NoDup bound →
  (∀ s, s ∈ bound ↔ desired menuConfigs s) →
  _onMenuConfigsChanged menuConfigs bound = [].
Proof.
  intros Hnd Hsync.
  destruct (calls_shape menuConfigs bound Hnd) as (gone & fresh & -> & Hgone & Hfresh).
  assert (gone = []) as ->.
  { destruct gone as [|g gone]; [reflexivity|].
    destruct (proj1 (Hgone g)) as [Hb Hd]; [left|]. apply Hsync in Hb. contradiction. }
  assert (fresh = []) as ->.
  { destruct fresh as [|f fresh]; [reflexivity|].
    destruct (proj1 (Hfresh f)) as [Hd Hb]; [left|]. apply Hsync in Hd. contradiction. }
  reflexivity.
Qed.

Lemma no_calls_when_in_sync_witness :
  _onMenuConfigsChanged [mkConfig "first" "B"; mkConfig "second" ""; mkConfig "third" "A"]
    ["A"; "B"] = [].
Proof.
  apply no_calls_when_in_sync.
  - apply NoDup_cons. split; [|apply NoDup_singleton].
    intros H. apply list_elem_of_singleton in H. discriminate.
  - intros s. split.
    + intros H. repeat (apply elem_of_cons in H as [->|H]).
      * split; [discriminate|]. exists (mkConfig "third" "A").
        split; [right; right; left|reflexivity].
      * split; [discriminate|]. exists (mkConfig "first" "B"). split; [left|reflexivity].
      * inversion H.
    + intros (Hne & c & Hc & <-). repeat (apply elem_of_cons in Hc as [->|Hc]).
      * right. left.
      * contradiction.
      * left.
      * inversion Hc.
Defined.

Lemma requiredShortcuts_blank (menuConfigs : list MenuConfig) (acc : list string) :
  (∀ c, c ∈ menuConfigs → cfg_data c = "") →
  fold_left (fun newShortcuts c =>
               if bool_decide (cfg_data c ≠ "") then StringSet.add newShortcuts (cfg_data c)
               else newShortcuts) menuConfigs acc = acc.
Proof.
  revert acc. induction menuConfigs as [|c cs IH]; intros acc H; [reflexivity|].
  simpl. rewrite (H c) by left. simpl. apply IH. intros c' Hc'. apply H. right. exact Hc'.
Qed.

Lemma unbind_all (bound : list string) (calls : list ShortcutCall) :
  fold_left (fun '(newShortcuts, calls) existingShortcut =>
               if StringSet.has newShortcuts existingShortcut
               then (StringSet.delete newShortcuts existingShortcut, calls)
               else (newShortcuts, calls ++ [unbind existingShortcut]))
            bound ([], calls) = ([], calls ++ map unbind bound).
Proof.
  revert calls. induction bound as [|e bound IH]; intros calls; simpl.
  - rewrite app_nil_r. reflexivity.
  - unfold StringSet.has at 1. simpl. rewrite IH, <- app_assoc. reflexivity.
Qed.

(** X3.  A configuration without any shortcut (no entry, or only entries
    whose [data] is empty) unbinds every bound shortcut, in the order in
    which [getBound()] gives them, and binds nothing. *)
Theorem blank_configuration_unbinds_all (menuConfigs : list MenuConfig)
    (bound : list string) :
  (∀ c, c ∈ menuConfigs → cfg_data c = "") →
  _onMenuConfigsChanged menuConfigs bound = map unbind bound.
Proof.
  intros H. unfold _onMenuConfigsChanged, unbindLoop, requiredShortcuts.
  rewrite (requiredShortcuts_blank menuConfigs [] H), unbind_all.
  simpl. apply app_nil_r.
Qed.

Lemma blank_configuration_unbinds_all_witness :
  _onMenuConfigsChanged [mkConfig "first" ""] ["A"; "B"] = [unbind "A"; unbind "B"].
Proof.
  apply (blank_configuration_unbinds_all [mkConfig "first" ""] ["A"; "B"]).
  intros c Hc. apply list_elem_of_singleton in Hc. subst c. reflexivity.
Defined.

End ReconcilerMore.

(** ** The session, continued *)

Lemma updateItemAngles_assigned (items items' : list MenuItem) (parentAngle : option Q) :
  _updateItemAngles items parentAngle = (true, items') →
  length items' = length items ∧
  ∀ k item', items' !! k = Some item' →
    ∃ item a, items !! k = Some item ∧ item' = resolve item (Some a).
Proof.
  unfold _updateItemAngles.
  destruct (Layout.level (map item_angle items) parentAngle) as [angles|] eqn:Hrun;
    [|discriminate].
  intros [= <-]. destruct items as [|first others].
  { destruct angles; simpl; split; [reflexivity|discriminate| reflexivity |discriminate]. }
  apply level_assigned in Hrun as [Hlen Hall]; [|discriminate].
  rewrite length_map in Hlen, Hall. split.
  - unfold resolveAll. rewrite length_zip_with. lia.
  - intros k item' Hk.
    destruct (resolveAll_lookup _ _ _ _ Hk) as (item & a & Hitem & Ha & ->).
    destruct (Hall k) as [a' Ha']; [eapply lookup_lt_Some; exact Hitem|].
    rewrite Ha' in Ha. injection Ha as <-. eauto.
Qed.

Lemma createActors_lookup (items : list MenuItem) (k : nat) (item' : MenuItem) :
  createActors items !! k = Some item' →
  ∃ item, items !! k = Some item ∧ item_id item' = item_id item ∧
          item_angle item' = item_angle item ∧ is_Some (item_actor item').
Proof.
  unfold createActors. rewrite list_lookup_fmap.
  destruct (items !! k) as [item|]; [|discriminate].
  simpl. intros [= <-]. exists item. simpl. eauto.
Qed.

(** X4.  When [show] returns an id, it is the id it was given: the session
    was not taken for active, the input grab succeeded, the menu now stores
    that id and the edit mode, and every item of the top level of the stored
    tree has a non-empty id, an angle and an actor. *)
Theorem show_opened (m m' : Menu) (menuID id : Z) (structure : Structure)
    (editMode grab : bool) :
  show m menuID structure editMode grab = (Opened id, m') →
  id = menuID ∧
  menuID_truthy (_menuID m) = false ∧
  grab = true ∧
  _menuID m' = Some menuID ∧
  _editMode m' = editMode ∧
  ∃ items items',
    str_items structure = Some items ∧
    str_items (_structure m') = Some items' ∧
    length items' = length items ∧
    ∀ item', item' ∈ items' →
      JS.truthy_str (item_id item') = true ∧
      (∃ a, item_angle item' = Some a) ∧
      is_Some (item_actor item').
Proof.
  unfold show. destruct (menuID_truthy (_menuID m)); [discriminate|].
  destruct (str_items structure) as [[|first others]|] eqn:Hitems; [discriminate| |discriminate].
  destruct (_updateItemAngles (first :: others) None) as [ok items1] eqn:Hangles.
  destruct ok; [|discriminate]. destruct grab; [|discriminate].
  cbn [negb]. intros [= <- <-]. cbn [_menuID _editMode _structure str_items].
  do 5 (split; [reflexivity|]).
  apply updateItemAngles_assigned in Hangles as [Hlen Hall].
  exists (first :: others), (createActors (_updateItemIDs items1 None)).
  split; [reflexivity|]. split; [reflexivity|]. split.
  - unfold createActors. rewrite length_map.
    assert (Hids : ∀ p i l, length (updateItemIDsFrom p i l) = length l).
    { intros p i l. revert i. induction l as [|c l IH]; intros i; simpl; [reflexivity|].
      rewrite IH. reflexivity. }
    unfold _updateItemIDs. rewrite Hids. exact Hlen.
  - intros item' Hin. apply list_elem_of_lookup in Hin as [k Hk].
    apply createActors_lookup in Hk as (item2 & Hk & Hid & Ha & Hactor).
    unfold _updateItemIDs in Hk. rewrite updateItemIDsFrom_lookup in Hk.
    destruct (items1 !! k) as [item1|] eqn:Hk1; [|discriminate].
    simpl in Hk. injection Hk as <-.
    destruct (Hall k item1 Hk1) as (item0 & a & _ & ->).
    rewrite Hid, Ha, updateItemID_eq. cbn [item_id item_angle].
    split; [apply newID_truthy|]. split; [|exact Hactor].
    exists a. apply resolve_angle.
Qed.

Lemma show_opened_witness :
  _menuID (snd (show newMenu 5 (menuOf [leaf None; leaf None]) false true)) = Some 5%Z.
Proof.
  destruct (show_opened newMenu (snd (show newMenu 5 (menuOf [leaf None; leaf None]) false true))
              5 5 (menuOf [leaf None; leaf None]) false true) as (_ & _ & _ & H & _).
  - vm_compute. reflexivity.
  - exact H.
Defined.

Lemma show_opens (m : Menu) (menuID : Z) (structure : Structure) (items : list MenuItem)
    (editMode : bool) :
  menuID_truthy (_menuID m) = false →
  str_items structure = Some items →
  items ≠ [] →
  fst (_updateItemAngles items None) = true →
  fst (show m menuID structure editMode true) = Opened menuID.
Proof.
  intros Hid Hitems Hne Hok. unfold show. rewrite Hid, Hitems.
  destruct items as [|first others]; [congruence|].
  destruct (_updateItemAngles (first :: others) None) as [ok items1].
  simpl in Hok. subst ok. reflexivity.
Qed.

(** X5.  An event that makes the menu call [onCancel] hands it the id the
    menu stored, and leaves the menu so that the next request with a
    non-empty list of items, a top level that can be laid out and a
    successful input grab is opened, whatever session there was before. *)
Theorem open_after_cancel (m : Menu) (ev : BackgroundEvent) (cb : Callback)
    (menuID : Z) (structure : Structure) (items : list MenuItem) (editMode : bool) :
  cb ∈ fst (handleEvent m ev) →
  str_items structure = Some items →
  items ≠ [] →
  fst (_updateItemAngles items None) = true →
  cb = onCancel (_menuID m) ∧
  _menuID (snd (handleEvent m ev)) = None ∧
  fst (show (snd (handleEvent m ev)) menuID structure editMode true) = Opened menuID.
Proof.
  intros Hcb Hitems Hne Hok.
  assert (H : cb = onCancel (_menuID m) ∧ snd (handleEvent m ev) = _hide m).
  { destruct ev as [button| | |]; simpl in Hcb |- *.
    - destruct (Z.eqb button 3 && negb (_editMode m)); simpl in Hcb |- *.
      + apply list_elem_of_singleton in Hcb. auto.
      + inversion Hcb.
    - apply list_elem_of_singleton in Hcb. auto.
    - apply list_elem_of_singleton in Hcb. auto.
    - inversion Hcb. }
  destruct H as [-> ->]. split; [reflexivity|].
  assert (Hidle : _menuID (_hide m) = None).
  { unfold _hide. destruct (_menuID m) eqn:E; [reflexivity|exact E]. }
  split; [exact Hidle|].
  apply (show_opens _ _ _ items); try assumption. rewrite Hidle. reflexivity.
Qed.

Lemma open_after_cancel_witness :
  let active := snd (show newMenu 0 (menuOf [leaf None]) false true) in
  fst (show (snd (handleEvent active (button_release_event 3))) 1
         (menuOf [leaf None; leaf None]) false true) = Opened 1.
Proof.
  intros active.
  destruct (open_after_cancel active (button_release_event 3) (onCancel (Some 0%Z)) 1
              (menuOf [leaf None; leaf None]) [leaf None; leaf None] false)
    as (_ & _ & H).
  - left.
  - reflexivity.
  - discriminate.
  - reflexivity.
  - exact H.
Defined.

(** ** Ids of sessions *)

Lemma show_gives_menuID (m : Menu) (menuID id : Z) (structure : Structure)
    (editMode grab : bool) :
  fst (show m menuID structure editMode grab) = Opened id → id = menuID.
Proof.
  unfold show. destruct (menuID_truthy (_menuID m)); [discriminate|].
  destruct (str_items structure) as [[|first others]|]; [discriminate| |discriminate].
  destruct (_updateItemAngles (first :: others) None) as [[|] items1];
    [|discriminate].
  destruct grab; [|discriminate]. simpl. intros [= <-]. reflexivity.
Qed.

(** ** The layout, continued *)

Lemma rem_range (x : Q) : 0 <= x → 0 <= JS.rem x 360 ∧ JS.rem x 360 < 360.
Proof.
  intros Hx. unfold JS.rem.
  assert (H0 : 0 <= x / 360) by (apply Qle_shift_div_l; lra).
  rewrite (trunc_floor _ H0).
  pose proof (Qfloor_le (x / 360)) as Hlo.
  pose proof (Qlt_floor (x / 360)) as Hhi.
  rewrite inject_Z_plus in Hhi. change (inject_Z 1) with 1 in Hhi.
  assert (Hq : x == 360 * (x / 360)) by (field; lra).
  set (f := inject_Z (Qfloor (x / 360))) in *. split; lra.
Qed.

(** The number of turns of the loop is the [wedgeItemCount] of line 298. *)
Lemma turns_count (len b e : nat) :
  (b < len)%nat → (e < len)%nat →
  Z.rem (Z.of_nat e - Z.of_nat b - 1 + Z.of_nat len) (Z.of_nat len) =
  Z.of_nat (turns len ((b + 1) mod len) e).
Proof.
  intros Hb He. rewrite next_index by exact Hb. unfold turns.
  destruct (Nat.eqb_spec (b + 1) len) as [Hlast|Hlast].
  - destruct (Nat.leb_spec 0 e) as [_|]; [|lia].
    rewrite Z.rem_small by lia. lia.
  - destruct (Nat.leb_spec (b + 1) e) as [Hle|Hgt].
    + rewrite Z.rem_mod_nonneg by lia. symmetry.
      apply (Z.mod_unique _ _ 1); lia.
    + rewrite Z.rem_small by lia. lia.
Qed.

(** The angle written at a position of the wedge is [begin + gap * c] for a
    count [c] the loop has reached. *)
Lemma wedgeWhile_values (len : nat) (bA gap : Q) (P : option Q) (e : nat) :
  (e < len)%nat →
  ∀ fuel index count pgr items items',
    (index < len)%nat → (turns len index e < fuel)%nat → length items = len →
    Layout.wedgeWhile fuel len bA gap P e index count pgr items = Some items' →
    ∀ k, (k < len)%nat → between index e k = true →
      ∃ c : Z,
        (count ≤ c ≤ count + Z.of_nat (turns len index e) - 1 + (if pgr then 1 else 0))%Z ∧
        items' !! k = Some (Some (JS.rem (bA + gap * inject_Z c) 360)).
Proof.
  intros He. induction fuel as [|fuel IH];
    intros index count pgr items items' Hi Hfuel Hlen Hrun k Hk Hbetween; [lia|].
  simpl in Hrun. destruct (Nat.eqb_spec index e) as [->|Hne].
  { unfold between in Hbetween. revert Hbetween. nat_cases. }
  pose proof (turns_next len index e Hi He Hne) as Hturns.
  assert (Hnext : ((index + 1) mod len < len)%nat) by (apply Nat.mod_upper_bound; lia).
  rewrite (between_next len index e k Hi He Hk Hne) in Hbetween.
  set (insertGap := pgr && match P with
                           | Some p => JS.lt 0 (bA + gap * inject_Z count + gap / 2 - p)
                           | None => false
                           end) in *.
  set (count1 := if insertGap then (count + 1)%Z else count) in *.
  set (value := JS.rem (if insertGap then bA + gap * inject_Z count1
                        else bA + gap * inject_Z count) 360) in *.
  set (pgr1 := if insertGap then false else pgr) in *.
  assert (Hcount1 : (count ≤ count1 ≤ count + (if pgr then 1 else 0))%Z ∧
                    (count1 + (if pgr1 then 1 else 0) ≤ count + (if pgr then 1 else 0))%Z).
  { unfold count1, pgr1, insertGap. destruct pgr; simpl; [|lia].
    destruct (match P with Some _ => _ | None => _ end); lia. }
  assert (Hvalue : value = JS.rem (bA + gap * inject_Z count1) 360).
  { unfold value, count1. destruct insertGap; reflexivity. }
  destruct (between ((index + 1) mod len) e k) eqn:Hlater.
  - destruct (IH _ _ _ _ _ Hnext ltac:(lia) ltac:(rewrite length_insert; exact Hlen)
                Hrun k Hk Hlater) as (c & Hc & Hval).
    exists c. split; [lia|exact Hval].
  - rewrite orb_false_r in Hbetween. apply Nat.eqb_eq in Hbetween. subst k.
    destruct (wedgeWhile_spec len bA gap P e He fuel ((index + 1) mod len)%nat
                (count1 + 1)%Z pgr1 Hnext ltac:(lia)) as [f Hf].
    destruct (Hf (<[index := Some value]> items)) as (items'' & Hrun' & _ & Hval);
      [rewrite length_insert; exact Hlen|].
    rewrite Hrun in Hrun'. injection Hrun' as <-.
    exists count1. split; [lia|].
    rewrite (Hval index Hi), Hlater, list_lookup_insert_eq by lia.
    rewrite Hvalue. reflexivity.
Qed.

Lemma between_ends (bA eA M c : Q) :
  0 <= bA → 0 <= eA → 0 <= c → c <= M → 0 < M →
  0 <= bA + (eA - bA) / M * c.
Proof.
  intros Hb He Hc HcM HM.
  assert (Heq : bA + (eA - bA) / M * c == (bA * (M - c) + eA * c) / M) by (field; lra).
  rewrite Heq. apply Qle_shift_div_l; [exact HM|].
  assert (H1 : 0 <= bA * (M - c)) by (apply Qmult_le_0_compat; lra).
  assert (H2 : 0 <= eA * c) by (apply Qmult_le_0_compat; lra).
  lra.
Qed.

Lemma wedgeBody_range (fb fe : FixedAngle) (items : list (option Q)) (P : option Q) :
  (fa_index fb < length items)%nat → (fa_index fe < length items)%nat →
  0 <= fa_angle fb → 0 <= fa_angle fe →
  inRange items →
  length (fst (Layout.wedgeBody fb fe (items, P))) = length items ∧
  inRange (fst (Layout.wedgeBody fb fe (items, P))).
Proof.
  intros Hb He Hba Hea Hrange. unfold Layout.wedgeBody.
  set (len := length items) in *.
  set (eA := if JS.le (fa_angle fb) (fa_angle fe) then fa_angle fe + 360 else fa_angle fe).
  set (P1 := match P with
             | Some p => if JS.lt p (fa_angle fb) then Some (p + 360) else Some p
             | None => None
             end).
  set (pgr := match P1 with
              | Some p => JS.lt (fa_angle fb) p && JS.lt p eA
              | None => false
              end).
  rewrite (turns_count len (fa_index fb) (fa_index fe) Hb He).
  set (T := turns len ((fa_index fb + 1) mod len) (fa_index fe)).
  set (N1 := if pgr then (Z.of_nat T + 1)%Z else Z.of_nat T).
  set (gap := (eA - fa_angle fb) / inject_Z (N1 + 1)).
  assert (Hidx : ((fa_index fb + 1) mod len < len)%nat)
    by (apply Nat.mod_upper_bound; lia).
  assert (Hfuel : (T < S len)%nat).
  { pose proof (turns_bound len _ _ Hidx He). unfold T. lia. }
  destruct (wedgeWhile_spec len (fa_angle fb) gap P1 (fa_index fe) He (S len)
              ((fa_index fb + 1) mod len)%nat 1%Z pgr Hidx Hfuel) as [f Hf].
  destruct (Hf items eq_refl) as (items' & Hrun & Hlen' & Hval).
  rewrite Hrun. cbn [fst]. split; [exact Hlen'|].
  intros k a Hk.
  assert (Hklen : (k < len)%nat) by (rewrite <- Hlen'; eapply lookup_lt_Some; exact Hk).
  destruct (between ((fa_index fb + 1) mod len) (fa_index fe) k) eqn:Hbetween.
  - destruct (wedgeWhile_values len (fa_angle fb) gap P1 (fa_index fe) He (S len) _ _ _ _ _
                Hidx Hfuel eq_refl Hrun k Hklen Hbetween) as (c & Hc & Hkc).
    rewrite Hk in Hkc. injection Hkc as ->. apply rem_range.
    assert (HeA : 0 <= eA) by (unfold eA; destruct (JS.le _ _); lra).
    assert (HN1 : (0 ≤ N1)%Z) by (unfold N1; destruct pgr; lia).
    assert (HcN : (1 ≤ c ≤ N1)%Z).
    { fold T in Hc. unfold N1. destruct pgr; lia. }
    unfold gap. apply between_ends; try assumption.
    + change 0 with (inject_Z 0). rewrite <- Zle_Qle. lia.
    + rewrite <- Zle_Qle. lia.
    + change 0 with (inject_Z 0). rewrite <- Zlt_Qlt. lia.
  - rewrite (Hval k Hklen), Hbetween in Hk. exact (Hrange k a Hk).
Qed.

Lemma wedges_range (F : list FixedAngle) (ws : list nat) :
  (∀ i, i ∈ ws → (i < length F)%nat) →
  ∀ (items : list (option Q)) (P : option Q),
    (∀ f, f ∈ F → (fa_index f < length items)%nat ∧ 0 <= fa_angle f) →
    inRange items →
    inRange (fst (fold_left (fun st i => Layout.wedge F i st) ws (items, P))).
Proof.
  induction ws as [|i ws IH]; intros His items P HF Hrange; [exact Hrange|].
  assert (Hi : (i < length F)%nat) by (apply His; left).
  assert (Hfb : nth i F Layout.noFixed ∈ F) by (apply list_elem_of_In, nth_In; exact Hi).
  assert (Hfe : nth ((i + 1) mod length F) F Layout.noFixed ∈ F).
  { apply list_elem_of_In, nth_In. apply Nat.mod_upper_bound. lia. }
  change (fold_left (fun st i => Layout.wedge F i st) (i :: ws) (items, P))
    with (fold_left (fun st i => Layout.wedge F i st) ws
            (Layout.wedgeBody (nth i F Layout.noFixed)
               (nth ((i + 1) mod length F) F Layout.noFixed) (items, P))).
  destruct (wedgeBody_range _ _ items P (proj1 (HF _ Hfb)) (proj1 (HF _ Hfe))
              (proj2 (HF _ Hfb)) (proj2 (HF _ Hfe)) Hrange) as [Hlen Hrange1].
  destruct (Layout.wedgeBody _ _ (items, P)) as [items1 P1]. cbn [fst] in Hlen, Hrange1.
  apply IH; [intros j Hj; apply His; right; exact Hj| |exact Hrange1].
  intros f Hf. rewrite Hlen. apply HF. exact Hf.
Qed.

Lemma level_range (cols angles : list (option Q)) (parentAngle : option Q) :
  Layout.level cols parentAngle = Some angles → inRange angles.
Proof.
  intros Hlevel. destruct cols as [|c0 cols0].
  { injection Hlevel as <-. intros k a Hk. discriminate. }
  set (cols := c0 :: cols0) in *. assert (Hne : cols ≠ []) by discriminate.
  destruct (Layout.checkFixed None (Layout.collectFixed cols)) eqn:Hcheck;
    [|rewrite level_fails in Hlevel by auto; discriminate].
  destruct (Layout.parentCollides (Layout.collectFixed cols) parentAngle) eqn:Hcoll;
    [rewrite level_fails in Hlevel by auto; discriminate|].
  destruct (level_eq cols parentAngle Hne Hcheck Hcoll)
    as (F & items & Heq & Hlen & _ & Hbelow & _ & _ & Hcase).
  rewrite Heq in Hlevel. injection Hlevel as <-.
  apply checkFixed_true in Hcheck as (_ & _ & Hvalid). rewrite Forall_forall in Hvalid.
  assert (Hcols : inRange cols).
  { intros k a Hk. destruct (JS.truthy a) eqn:Ha.
    - apply Hvalid. apply (list_elem_of_fmap_2 fa_angle (Layout.collectFixed cols) (mkFixed a (0 + k))).
      apply collectFrom_lookup; assumption.
    - apply truthy_false in Ha. rewrite Ha. split; lra. }
  unfold Layout.wedges. apply wedges_range.
  - intros i Hi. apply elem_of_seq in Hi. lia.
  - intros f Hf. split; [apply Hbelow; exact Hf|].
    destruct Hcase as [(_ & -> & _)|[-> _]].
    + apply list_elem_of_singleton in Hf. subst f. simpl.
      unfold Layout.firstAngle. destruct parentAngle as [p|]; [|lra].
      destruct (JS.truthy p && JS.lt p 180); lra.
    + apply Hvalid. apply (list_elem_of_fmap_2 fa_angle). exact Hf.
  - destruct Hcase as [(_ & _ & ->)|[_ ->]]; [|exact Hcols].
    intros k a Hk. destruct (decide (k = 0%nat)) as [->|Hk0].
    + rewrite list_lookup_insert_eq in Hk by (simpl; lia). injection Hk as <-.
      unfold Layout.firstAngle. destruct parentAngle as [p|]; [|split; lra].
      destruct (JS.truthy p && JS.lt p 180); split; lra.
    + rewrite list_lookup_insert_ne in Hk by congruence. exact (Hcols k a Hk).
Qed.

(** X7.  When [_updateItemAngles] returns [true], the list still has its
    length and every item of it has an angle from 0 up to, not including,
    360, whatever the parent angle is. *)
Theorem angles_assigned_in_range (items items' : list MenuItem) (parentAngle : option Q) :
  _updateItemAngles items parentAngle = (true, items') →
  length items' = length items ∧
  ∀ item', item' ∈ items' → ∃ a, item_angle item' = Some a ∧ 0 <= a ∧ a < 360.
Proof.
  intros Hrun.
  destruct (updateItemAngles_assigned items items' parentAngle Hrun) as [Hlen Hall].
  split; [exact Hlen|]. intros item' Hin.
  apply list_elem_of_lookup in Hin as [k Hk].
  destruct (Hall k item' Hk) as (item & a & Hitem & ->).
  exists a. split; [apply resolve_angle|].
  unfold _updateItemAngles in Hrun.
  destruct (Layout.level (map item_angle items) parentAngle) as [angles|] eqn:Hlevel;
    [|discriminate].
  injection Hrun as <-.
  apply resolveAll_lookup in Hk as (item0 & a0 & _ & Ha0 & Heq).
  assert (a0 = Some a) as ->.
  { rewrite <- (resolve_angle item0 a0), <- Heq. apply resolve_angle. }
  exact (level_range _ _ _ Hlevel k a Ha0).
Qed.

Lemma angles_assigned_in_range_witness :
  length (snd (_updateItemAngles [leaf None; leaf (Some 10); leaf None] (Some 300))) = 3%nat ∧
  ∃ a, item_angle (leaf (Some 10)) = Some a ∧ 0 <= a ∧ a < 360.
Proof.
  destruct (angles_assigned_in_range [leaf None; leaf (Some 10); leaf None]
              (snd (_updateItemAngles [leaf None; leaf (Some 10); leaf None] (Some 300)))
              (Some 300)) as [Hlen Hall].
  - reflexivity.
  - split; [exact Hlen|]. apply Hall. right. left.
Defined.

(** No wedge reaches the position of a fixed angle. *)
Lemma covered_fixed (F : list FixedAngle) (len k : nat) :
  StronglySorted lt (map fa_index F) →
  (∀ f, f ∈ F → (fa_index f < len)%nat) →
  k ∈ map fa_index F →
  covered F len (seq 0 (length F)) k = false.
Proof.
  intros Hsorted Hbelow Hk.
  destruct (covered F len (seq 0 (length F)) k) eqn:Hcov; [exfalso|reflexivity].
  unfold covered in Hcov. apply existsb_exists in Hcov as (i & Hi & Hbetween).
  apply in_seq in Hi. simpl in Hi.
  apply list_elem_of_fmap in Hk as (f & -> & Hf).
  apply list_elem_of_In in Hf.
  destruct (In_nth F f Layout.noFixed Hf) as (j & Hj & <-).
  set (idx := fun i => fa_index (nth i F Layout.noFixed)) in *.
  change (fa_index (nth j F Layout.noFixed)) with (idx j) in Hbetween.
  change (fa_index (nth i F Layout.noFixed)) with (idx i) in Hbetween.
  change (fa_index (nth ((i + 1) mod length F)%nat F Layout.noFixed))
    with (idx ((i + 1) mod length F)%nat) in Hbetween.
  assert (Hmono : ∀ a b, (a ≤ b)%nat → (b < length F)%nat → (idx a ≤ idx b)%nat).
  { intros a b Hab Hb. destruct (Nat.eq_dec a b) as [->|Hne]; [lia|].
    apply Nat.lt_le_incl. apply (idx_mono F Hsorted); lia. }
  assert (Hstrict : ∀ a b, (idx a < idx b)%nat → (a < length F)%nat → (b < length F)%nat →
                           (a < b)%nat).
  { intros a b Hlt Ha Hb. destruct (Nat.lt_ge_cases a b) as [|Hge]; [assumption|].
    pose proof (Hmono b a Hge Ha). lia. }
  pose proof (idx_below F len Hbelow i ltac:(lia)) as Hib.
  change (idx i < len)%nat in Hib.
  destruct (Nat.eq_dec (i + 1)%nat (length F)) as [Hlast|Hmid].
  - rewrite Hlast, Nat.Div0.mod_same in Hbetween.
    pose proof (Hmono 0%nat j ltac:(lia) Hj) as H0j.
    pose proof (Hmono j i ltac:(lia) ltac:(lia)) as Hji.
    pose proof (Hmono 0%nat i ltac:(lia) ltac:(lia)) as H0i.
    rewrite next_index in Hbetween by exact Hib.
    revert Hbetween.
    destruct (Nat.eqb_spec (idx i + 1)%nat len); unfold between; nat_cases;
      intros Hb; try discriminate Hb; lia.
  - rewrite (Nat.mod_small (i + 1)%nat) in Hbetween by lia.
    assert (Hstep : (idx i < idx (i + 1)%nat)%nat)
      by (apply (idx_mono F Hsorted); lia).
    assert (Hi1b : (idx (i + 1)%nat < len)%nat)
      by (apply (idx_below F len Hbelow); lia).
    rewrite (Nat.mod_small (idx i + 1)%nat) in Hbetween by lia.
    assert (Hin : (idx i + 1 ≤ idx j)%nat ∧ (idx j < idx (i + 1)%nat)%nat).
    { revert Hbetween. unfold between. nat_cases; intros Hb; try discriminate Hb; lia. }
    pose proof (Hstrict i j ltac:(lia) ltac:(lia) Hj).
    pose proof (Hstrict j (i + 1)%nat ltac:(lia) Hj ltac:(lia)). lia.
Qed.

(** X8.  When [_updateItemAngles] returns [true], an item that came with an
    angle other than [0] still has exactly that angle. *)
Theorem fixed_angles_kept (items items' : list MenuItem) (parentAngle : option Q)
    (k : nat) (item : MenuItem) (a : Q) :
  _updateItemAngles items parentAngle = (true, items') →
  items !! k = Some item →
  item_angle item = Some a →
  ¬ a == 0 →
  ∃ item', items' !! k = Some item' ∧ item_angle item' = Some a.
Proof.
  intros Hrun Hk Ha Ha0. unfold _updateItemAngles in Hrun.
  destruct (Layout.level (map item_angle items) parentAngle) as [angles|] eqn:Hlevel;
    [|discriminate].
  injection Hrun as <-.
  set (cols := map item_angle items) in *.
  assert (Hcol : cols !! k = Some (Some a)).
  { unfold cols. rewrite list_lookup_fmap, Hk. simpl. rewrite Ha. reflexivity. }
  assert (Hne : cols ≠ []) by (intros E; rewrite E in Hcol; discriminate).
  apply truthy_true in Ha0.
  pose proof (collectFrom_lookup cols 0 k a Hcol Ha0) as Hf. simpl in Hf.
  fold (Layout.collectFixed cols) in Hf.
  destruct (Layout.checkFixed None (Layout.collectFixed cols)) eqn:Hcheck;
    [|rewrite level_fails in Hlevel by auto; discriminate].
  destruct (Layout.parentCollides (Layout.collectFixed cols) parentAngle) eqn:Hcoll;
    [rewrite level_fails in Hlevel by auto; discriminate|].
  destruct (level_eq cols parentAngle Hne Hcheck Hcoll)
    as (F & items0 & Heq & Hlen & Hsorted & Hbelow & _ & _ & Hcase).
  rewrite Heq in Hlevel. injection Hlevel as <-.
  destruct Hcase as [(Hnil & _ & _)|[-> ->]]; [rewrite Hnil in Hf; inversion Hf|].
  destruct (wedges_spec (Layout.collectFixed cols) (length cols) parentAngle Hbelow)
    as [g Hg].
  destruct (Hg cols eq_refl) as [_ Hval].
  assert (Hklen : (k < length cols)%nat) by (eapply lookup_lt_Some; exact Hcol).
  specialize (Hval k Hklen).
  rewrite (covered_fixed _ _ k Hsorted Hbelow) in Hval
    by (apply (list_elem_of_fmap_2 fa_index _ (mkFixed a k)); exact Hf).
  exists (resolve item (Some a)). split; [|apply resolve_angle].
  unfold resolveAll. rewrite lookup_zip_with, Hk, Hval, Hcol. reflexivity.
Qed.

Lemma fixed_angles_kept_witness :
  ∃ item', snd (_updateItemAngles [leaf None; leaf (Some 10); leaf None] (Some 300))
             !! 1%nat = Some item' ∧ item_angle item' = Some 10.
Proof.
  apply (fixed_angles_kept [leaf None; leaf (Some 10); leaf None] _ (Some 300) 1
           (leaf (Some 10)) 10).
  - reflexivity.
  - reflexivity.
  - reflexivity.
  - intros H. vm_compute in H. discriminate.
Defined.

Lemma withoutAngles_eq (item : MenuItem) :
  withoutAngles item =
  mkItem (item_id item) None (item_icon item)
         (option_map (map withoutAngles) (item_items item)) (item_actor item).
Proof.
  destruct item as [id a ic [children|] ac]; [|reflexivity]. simpl. do 2 f_equal.
Qed.

Lemma withoutAngles_resolve (item : MenuItem) :
  ∀ a, withoutAngles (resolve item a) = withoutAngles item.
Proof.
  induction item as [id a0 ic ch ac IH] using MenuItem_ind. intros a.
  rewrite resolve_eq, !withoutAngles_eq. cbn [item_id item_icon item_items item_actor].
  f_equal. destruct ch as [children|]; [|reflexivity]. cbn [option_map]. f_equal.
  unfold _updateItemAngles.
  destruct (Layout.level (map item_angle children) (childParentAngle a)) as [angles|] eqn:Hrun;
    [|reflexivity].
  cbn [snd]. destruct children as [|c cs]; [destruct angles; reflexivity|].
  apply level_assigned in Hrun as [Hlen _]; [|discriminate].
  rewrite length_map in Hlen. unfold resolveAll. revert angles Hlen.
  induction IH as [|c' cs' Hc _ IHcs]; intros [|a' angles] Hlen; try discriminate;
    [reflexivity|].
  simpl. rewrite Hc. f_equal. apply IHcs. simpl in Hlen. lia.
Qed.

(** X9.  [_updateItemAngles] changes nothing but angles: with every angle
    taken away, the items it leaves are the items it was given, whether it
    returns [true] or [false]. *)
Theorem only_angles_change (items : list MenuItem) (parentAngle : option Q) :
  map withoutAngles (snd (_updateItemAngles items parentAngle)) = map withoutAngles items.
Proof.
  unfold _updateItemAngles.
  destruct (Layout.level (map item_angle items) parentAngle) as [angles|] eqn:Hrun;
    [|reflexivity].
  cbn [snd]. destruct items as [|c cs]; [destruct angles; reflexivity|].
  apply level_assigned in Hrun as [Hlen _]; [|discriminate].
  rewrite length_map in Hlen. unfold resolveAll. revert angles Hlen.
  generalize (c :: cs). clear c cs.
  induction l as [|c cs IH]; intros [|a angles] Hlen; try discriminate; [reflexivity|].
  simpl. rewrite withoutAngles_resolve. f_equal. apply IH. simpl in Hlen. lia.
Qed.

(** ** Paths as strings *)

Lemma app_nil_r_string (s : string) : s +:+ "" = s.
Proof.
  induction s as [|c s IH]; [reflexivity|].
  change (String c (s +:+ "") = String c s). f_equal. exact IH.
Qed.

Lemma app_assoc_string (s t u : string) : (s +:+ t) +:+ u = s +:+ t +:+ u.
Proof.
  induction s as [|c s IH]; [reflexivity|].
  change (String c ((s +:+ t) +:+ u) = String c (s +:+ t +:+ u)). f_equal. exact IH.
Qed.

Lemma pathString_app (p q : list nat) : pathString (p ++ q) = pathString p +:+ pathString q.
Proof.
  induction p as [|k p IH]; [reflexivity|].
  simpl. rewrite IH, !app_assoc_string. reflexivity.
Qed.

Lemma pretty_N_char_noSlash (x : N) : pretty_N_char x ≠ "/"%char.
Proof. unfold pretty_N_char. repeat case_match; discriminate. Qed.

Lemma pretty_N_go_noSlash (x : N) : ∀ s, noSlash s → noSlash (pretty_N_go x s).
Proof.
  induction (N.lt_wf_0 x) as [x _ IH]. intros s Hs.
  destruct (N.eq_dec x 0%N) as [->|Hx].
  - rewrite pretty_N_go_0. exact Hs.
  - rewrite pretty_N_go_step by lia. apply IH.
    + apply N.div_lt; lia.
    + split; [apply pretty_N_char_noSlash|exact Hs].
Qed.

Lemma pretty_noSlash (k : nat) : noSlash (pretty k).
Proof.
  unfold pretty, pretty_nat, pretty, pretty_N.
  destruct (decide (N.of_nat k = 0%N)).
  - split; [discriminate|exact I].
  - apply pretty_N_go_noSlash. exact I.
Qed.

Lemma split_nonempty (sep : ascii) (s : string) : split sep s ≠ [].
Proof.
  destruct s as [|c s]; simpl; [discriminate|].
  destruct (Ascii.eqb c sep); [discriminate|].
  destruct (split sep s); discriminate.
Qed.

Lemma split_noSlash_app (s t : string) :
  noSlash s →
  split "/" (s +:+ t) =
  match split "/" t with
  | first :: others => (s +:+ first) :: others
  | [] => [s]
  end.
Proof.
  induction s as [|c s IH]; intros Hs.
  - change ("" +:+ t) with t. destruct (split "/" t) eqn:E; [|reflexivity].
    exfalso. exact (split_nonempty _ _ E).
  - destruct Hs as [Hc Hs]. change (String c s +:+ t) with (String c (s +:+ t)).
    cbn [split]. destruct (Ascii.eqb_spec c "/"); [contradiction|].
    rewrite (IH Hs). destruct (split "/" t); reflexivity.
Qed.

(** Splitting the string of a path gives the empty string before the first
    slash and then the indices, written as decimal numbers. *)
Lemma split_pathString (path : list nat) :
  split "/" (pathString path) = "" :: map pretty path.
Proof.
  induction path as [|k path IH]; [reflexivity|].
  change (pathString (k :: path)) with (String "/" (pretty k +:+ pathString path)).
  cbn [split]. change (Ascii.eqb "/" "/") with true. cbv iota.
  rewrite split_noSlash_app by apply pretty_noSlash.
  rewrite IH, app_nil_r_string. reflexivity.
Qed.

Lemma pathString_inj (p q : list nat) : pathString p = pathString q → p = q.
Proof.
  intros H. apply (f_equal (split "/")) in H. rewrite !split_pathString in H.
  injection H as H. revert q H.
  induction p as [|k p IH]; intros [|k' q] H; try discriminate; [reflexivity|].
  simpl in H. injection H as Hk H. apply (inj pretty) in Hk. subst k'.
  rewrite (IH q H). reflexivity.
Qed.

Lemma childByKey_pretty (children : list ConfigItem) (i k : nat) :
  childByKey i children (pretty (i + k)%nat) = children !! k.
Proof.
  revert i k. induction children as [|c children IH]; intros i k; [reflexivity|].
  simpl. destruct k as [|k].
  - rewrite Nat.add_0_r, String.eqb_refl. reflexivity.
  - destruct (String.eqb_spec (pretty i) (pretty (i + S k)%nat)) as [E|_].
    + apply (inj pretty) in E. lia.
    + replace (i + S k)%nat with (S i + k)%nat by lia. apply IH.
Qed.

Lemma childByKey_index (children : list ConfigItem) (k : nat) :
  childByKey 0 children (pretty k) = children !! k.
Proof. exact (childByKey_pretty children 0 k). Qed.

Lemma followPath_pretty (path : list nat) :
  ∀ item, followPath item (map pretty path) = configAt item path.
Proof.
  induction path as [|k path IH]; intros item; [reflexivity|].
  cbn [map followPath]. rewrite childByKey_index. cbn [configAt].
  destruct (ci_children item !! k); [apply IH|reflexivity].
Qed.

(** X10.  [_onSelect] finds the item of a path: for the string
    [/k1/k2/...] of a list of child indices, the item it calls [activate]
    on is the one reached from the configuration by child [k1], then child
    [k2], and so on; when an index is out of range there is none, which is
    the [TypeError] of the code. *)
Theorem select_finds_path (config : ConfigItem) (path : list nat) :
  selectedItem config (pathString path) = configAt config path.
Proof.
  unfold selectedItem. rewrite split_pathString. apply followPath_pretty.
Qed.

Example select_example :
  let config := mkConfigItem "root"
                  [mkConfigItem "a" []; mkConfigItem "b" [mkConfigItem "c" []]] in
  ci_name <$> selectedItem config "/1/0" = Some "c" ∧
  selectedItem config "/2" = None ∧
  selectedItem config "/01" = None ∧
  ci_name <$> selectedItem config "" = Some "root".
Proof. repeat split. Qed.

Lemma lookupPath_cons (items : list MenuItem) (j : nat) (rest : list nat) :
  rest ≠ [] →
  lookupPath items (j :: rest) =
  item ← items !! j; children ← item_items item; lookupPath children rest.
Proof.
  intros Hne. destruct rest as [|j' rest]; [congruence|].
  cbn [lookupPath]. destruct (items !! j) as [it|]; [|reflexivity].
  simpl. destruct (item_items it); reflexivity.
Qed.

Lemma lookupPath_one (items : list MenuItem) (k : nat) : lookupPath items [k] = items !! k.
Proof. simpl. destruct (items !! k); reflexivity. Qed.

Lemma lookupPath_snoc (items : list MenuItem) (path : list nat) (k : nat) :
  path ≠ [] →
  lookupPath items (path ++ [k]) =
  item ← lookupPath items path; children ← item_items item; children !! k.
Proof.
  revert items. induction path as [|j path IH]; intros items Hne; [congruence|].
  change ((j :: path) ++ [k]) with (j :: (path ++ [k])).
  rewrite lookupPath_cons by (destruct path; discriminate).
  destruct path as [|j' path].
  - rewrite lookupPath_one. destruct (items !! j) as [it|]; [|reflexivity]. simpl.
    destruct (item_items it) as [children|]; [|reflexivity]. simpl.
    apply lookupPath_one.
  - rewrite (lookupPath_cons items j (j' :: path)) by discriminate.
    destruct (items !! j) as [it|]; [|reflexivity]. simpl.
    destruct (item_items it) as [children|]; [|reflexivity]. simpl.
    apply IH. discriminate.
Qed.

Lemma ids_are_paths_aux (items : list MenuItem) :
  (∀ path item, lookupPath items path = Some item → JS.truthy_str (item_id item) = false) →
  ∀ path item,
    lookupPath items path = Some item →
    ∃ item', lookupPath (_updateItemIDs items None) path = Some item' ∧
             item_id item' = Some (pathString path).
Proof.
  intros Hfresh path. induction path as [|k path IH] using rev_ind; intros item Hitem.
  { discriminate. }
  destruct (updateItemIDs_node items path None k item Hitem) as (item' & Hlook & Hid & _).
  exists item'. split; [exact Hlook|].
  rewrite (Hfresh _ _ Hitem) in Hid. rewrite Hid. f_equal.
  rewrite pathString_app. simpl pathString. rewrite app_nil_r_string. f_equal.
  destruct path as [|j path]; [reflexivity|].
  rewrite lookupPath_snoc in Hitem by discriminate.
  destruct (lookupPath items (j :: path)) as [parent|] eqn:Hparent; [|discriminate].
  destruct (IH parent eq_refl) as (parent' & Hlook' & Hid').
  unfold parentPath. rewrite Hlook'. simpl. rewrite Hid'. reflexivity.
Qed.

(** X11.  In a tree in which no item comes with an id, called without a
    parent id, the id of every item is the string of its path: a slash and
    an index for each step from the top level down to the item. *)
Theorem ids_are_paths (items : list MenuItem) :
  (∀ path item, lookupPath items path = Some item → JS.truthy_str (item_id item) = false) →
  ∀ path item,
    lookupPath items path = Some item →
    ∃ item', lookupPath (_updateItemIDs items None) path = Some item' ∧
             item_id item' = Some (pathString path).
Proof. exact (ids_are_paths_aux items). Qed.

Lemma ids_are_paths_witness :
  ∃ item', lookupPath (_updateItemIDs [leaf None; node None [leaf None; leaf None]] None)
             [1; 1]%nat = Some item' ∧
           item_id item' = Some "/1/1".
Proof.
  apply (ids_are_paths [leaf None; node None [leaf None; leaf None]]) with (item := leaf None).
  - intros path item H.
    destruct path as [|[|[|?]] [|[|[|?]] [|? ?]]]; simpl in H; try discriminate;
      injection H as <-; reflexivity.
  - reflexivity.
Defined.

(** X12.  In such a tree two items at different paths get different ids. *)
Theorem ids_are_unique (items : list MenuItem) (p q : list nat) (ip iq : MenuItem) :
  (∀ path item, lookupPath items path = Some item → JS.truthy_str (item_id item) = false) →
  lookupPath items p = Some ip →
  lookupPath items q = Some iq →
  p ≠ q →
  ∃ ip' iq', lookupPath (_updateItemIDs items None) p = Some ip' ∧
             lookupPath (_updateItemIDs items None) q = Some iq' ∧
             item_id ip' ≠ item_id iq'.
Proof.
  intros Hfresh Hp Hq Hne.
  destruct (ids_are_paths_aux items Hfresh p ip Hp) as (ip' & Hp' & Hidp).
  destruct (ids_are_paths_aux items Hfresh q iq Hq) as (iq' & Hq' & Hidq).
  exists ip', iq'. split; [exact Hp'|]. split; [exact Hq'|].
  rewrite Hidp, Hidq. intros [= H]. apply Hne, pathString_inj. exact H.
Qed.

Lemma ids_are_unique_witness :
  ∃ ip' iq',
    lookupPath (_updateItemIDs [leaf None; node None [leaf None; leaf None]] None) [1]%nat
      = Some ip' ∧
    lookupPath (_updateItemIDs [leaf None; node None [leaf None; leaf None]] None) [1; 1]%nat
      = Some iq' ∧
    item_id ip' ≠ item_id iq'.
Proof.
  apply (ids_are_unique [leaf None; node None [leaf None; leaf None]] [1]%nat [1; 1]%nat
           (node None [leaf None; leaf None]) (leaf None)).
  - intros path item H.
    destruct path as [|[|[|?]] [|[|[|?]] [|? ?]]]; simpl in H; try discriminate;
      injection H as <-; reflexivity.
  - reflexivity.
  - reflexivity.
  - discriminate.
Defined.

(** ** The position of the menu *)

Lemma clamp_floor (v lo hi : Q) :
  let r := JSMath.floor (JSMath.min (JSMath.max v lo) hi) in
  inject_Z r <= hi ∧
  (lo <= hi → lo - 1 < inject_Z r) ∧
  (lo <= v → v <= hi → r = Qfloor v) ∧
  (hi < lo → r = Qfloor hi).
Proof.
  intros r. unfold r, JSMath.floor, JSMath.min, JSMath.max.
  destruct (JS.lt v lo) eqn:Hlo; [apply lt_true in Hlo|apply lt_false in Hlo].
  - destruct (JS.lt hi lo) eqn:Hhi; [apply lt_true in Hhi|apply lt_false in Hhi].
    + pose proof (Qfloor_le hi). pose proof (Qlt_floor hi) as Hf.
      rewrite inject_Z_plus in Hf. change (inject_Z 1) with 1 in Hf.
      repeat split; intros; try lra; try reflexivity; exfalso; lra.
    + pose proof (Qfloor_le lo). pose proof (Qlt_floor lo) as Hf.
      rewrite inject_Z_plus in Hf. change (inject_Z 1) with 1 in Hf.
      repeat split; intros; try lra; try reflexivity; exfalso; lra.
  - destruct (JS.lt hi v) eqn:Hhi; [apply lt_true in Hhi|apply lt_false in Hhi].
    + pose proof (Qfloor_le hi). pose proof (Qlt_floor hi) as Hf.
      rewrite inject_Z_plus in Hf. change (inject_Z 1) with 1 in Hf.
      repeat split; intros; try lra; try reflexivity; exfalso; lra.
    + pose proof (Qfloor_le v). pose proof (Qlt_floor v) as Hf.
      rewrite inject_Z_plus in Hf. change (inject_Z 1) with 1 in Hf.
      repeat split; intros; try lra; try reflexivity; exfalso; lra.
Qed.

(** X13.  The position [_clampToToMonitor] returns is a pair of integers.
    Its x is never right of [monitor.width - margin - width / 2]; when the
    monitor is wide enough for the box and its margins, the x is less than
    one pixel left of [margin + width / 2]; a pointer between the two
    bounds keeps its x, rounded down; on a monitor that is too narrow the
    right bound wins.  The same holds for y. *)
Theorem clamp_bounds (monitor_width monitor_height x y width height margin : Q) :
  let minX := margin + width / 2 in
  let minY := margin + height / 2 in
  let maxX := monitor_width - margin - width / 2 in
  let maxY := monitor_height - margin - height / 2 in
  let pos := _clampToToMonitor monitor_width monitor_height x y width height margin in
  (inject_Z (fst pos) <= maxX ∧
   (minX <= maxX → minX - 1 < inject_Z (fst pos)) ∧
   (minX <= x → x <= maxX → fst pos = Qfloor x) ∧
   (maxX < minX → fst pos = Qfloor maxX)) ∧
  (inject_Z (snd pos) <= maxY ∧
   (minY <= maxY → minY - 1 < inject_Z (snd pos)) ∧
   (minY <= y → y <= maxY → snd pos = Qfloor y) ∧
   (maxY < minY → snd pos = Qfloor maxY)).
Proof.
  intros minX minY maxX maxY pos. split.
  - exact (clamp_floor x minX maxX).
  - exact (clamp_floor y minY maxY).
Qed.

(** The pointer in the corner of a monitor of 1920 by 1080 pixels, for the
    actor of 100 by 100 pixels and the margin of 8 that [show] passes. *)
Example clamp_corner :
  _clampToToMonitor 1920 1080 0 1079.5 100 100 8 = (58, 1022)%Z.
Proof. reflexivity. Qed.

(** ** Configured menus *)

Lemma show_codes (m : Menu) (menuID : Z) (structure : Structure) (editMode grab : bool)
    (code : ErrorCode) :
  fst (show m menuID structure editMode grab) = Failed code →
  code ≠ eNoSuchMenu ∧ code ≠ eInvalidJSON.
Proof.
  unfold show. destruct (menuID_truthy (_menuID m)).
  { intros [= <-]. split; discriminate. }
  destruct (str_items structure) as [[|first others]|].
  1, 3: intros [= <-]; split; discriminate.
  destruct (_updateItemAngles (first :: others) None) as [[|] items1]; cbn [negb].
  - destruct grab; cbn [negb fst]; [discriminate|]. intros [= <-]. split; discriminate.
  - intros [= <-]. split; discriminate.
Qed.

Section OpenMenuProperties.

Variable transformConfig : MenuConfig → ConfigItem.
Variable asStructure : ConfigItem → Structure.

Lemma openMenuFrom_spec (c : Configured) (name : string) (previewMode grab : bool)
    (configs : list MenuConfig) :
  let r := openMenuFrom transformConfig asStructure c configs name previewMode grab in
  (name ∉ map cfg_name configs → r = (Failed eNoSuchMenu, c)) ∧
  (name ∈ map cfg_name configs →
     fst r ≠ Failed eNoSuchMenu ∧
     _nextID (cfg_daemon (snd r)) = (_nextID (cfg_daemon c) + 1)%Z ∧
     ∃ entry, entry ∈ configs ∧ cfg_name entry = name ∧
       fst r = fst (_openCustomMenu (cfg_daemon c) (asStructure (transformConfig entry))
                      previewMode grab) ∧
       _currentMenuConfig (snd r) =
         if succeeded (fst r) then Some (transformConfig entry) else _currentMenuConfig c).
Proof.
  induction configs as [|entry configs IH]; cbn zeta.
  { split; [reflexivity|]. intros H. inversion H. }
  cbn [openMenuFrom map]. destruct (String.eqb_spec name (cfg_name entry)) as [Hname|Hname].
  - split; [intros H; exfalso; apply H; rewrite Hname; left|]. intros _.
    unfold _openCustomMenu.
    destruct (show (_menu (cfg_daemon c)) (_nextID (cfg_daemon c))
                (asStructure (transformConfig entry)) previewMode grab) as [result m1] eqn:Hshow.
    cbn [fst snd cfg_daemon _nextID _currentMenuConfig]. split; [|split; [reflexivity|]].
    + intros ->.
      destruct (show_codes (_menu (cfg_daemon c)) (_nextID (cfg_daemon c))
                  (asStructure (transformConfig entry)) previewMode grab eNoSuchMenu)
        as [H _]; [rewrite Hshow; reflexivity|congruence].
    + exists entry. split; [left|]. split; [congruence|].
      unfold _openCustomMenu. rewrite Hshow. split; reflexivity.
  - cbn zeta in IH. destruct IH as [IHout IHin]. split.
    + intros H. apply IHout. intros H'. apply H. right. exact H'.
    + intros H. apply elem_of_cons in H as [H|H]; [congruence|].
      destruct (IHin H) as (Hno & Hid & entry' & Hentry & Hrest).
      split; [exact Hno|]. split; [exact Hid|].
      exists entry'. split; [right; exact Hentry|exact Hrest].
Qed.

(** X14.  [_openMenu] answers [eNoSuchMenu] exactly when no configuration
    has the name, and then nothing has changed: no call reached the menu
    and [_nextID] is as it was. *)
Theorem openMenu_unknown_name (c : Configured) (name : string) (previewMode grab : bool) :
  (fst (_openMenu transformConfig asStructure c name previewMode grab) = Failed eNoSuchMenu
   ↔ name ∉ map cfg_name (_menuConfigs c)) ∧
  (name ∉ map cfg_name (_menuConfigs c) →
   snd (_openMenu transformConfig asStructure c name previewMode grab) = c).
Proof.
  unfold _openMenu.
  destruct (openMenuFrom_spec c name previewMode grab (_menuConfigs c)) as [Hout Hin].
  split; [split|].
  - intros Hr Hname. destruct (Hin Hname) as [Hno _]. contradiction.
  - intros Hname. rewrite (Hout Hname). reflexivity.
  - intros Hname. rewrite (Hout Hname). reflexivity.
Qed.

(** X15.  For a name that is configured, [_openMenu] takes one id from
    [_nextID], whatever the result, and remembers the transformed
    configuration as [_currentMenuConfig] exactly when the result is an id;
    on an error the field is as before. *)
Theorem openMenu_known_name (c : Configured) (name : string) (previewMode grab : bool) :
  name ∈ map cfg_name (_menuConfigs c) →
  let r := _openMenu transformConfig asStructure c name previewMode grab in
  _nextID (cfg_daemon (snd r)) = (_nextID (cfg_daemon c) + 1)%Z ∧
  (succeeded (fst r) = false → _currentMenuConfig (snd r) = _currentMenuConfig c) ∧
  (succeeded (fst r) = true →
   ∃ entry, entry ∈ _menuConfigs c ∧ cfg_name entry = name ∧
            _currentMenuConfig (snd r) = Some (transformConfig entry)).
Proof.
  intros Hname r. unfold r, _openMenu.
  destruct (openMenuFrom_spec c name previewMode grab (_menuConfigs c)) as [_ Hin].
  destruct (Hin Hname) as (_ & Hid & entry & Hentry & Hn & _ & Hcur).
  split; [exact Hid|]. split.
  - intros Hs. rewrite Hs in Hcur. exact Hcur.
  - intros Hs. rewrite Hs in Hcur. exists entry. auto.
Qed.

End OpenMenuProperties.

Lemma openMenu_known_name_witness :
  let transform := fun entry : MenuConfig => mkConfigItem (cfg_name entry) [] in
  let view := fun _ : ConfigItem => menuOf [leaf None] in
  let c := mkConfigured (mkDaemon newMenu 4) [mkConfig "first" "A"; mkConfig "second" ""] None in
  _nextID (cfg_daemon (snd (_openMenu transform view c "second" false true))) = 5%Z.
Proof.
  intros transform view c.
  destruct (openMenu_known_name transform view c "second" false true) as [H _].
  - right. left.
  - exact H.
Defined.

Section ShortcutProperties.

Variable transformConfig : MenuConfig → ConfigItem.
Variable asStructure : ConfigItem → Structure.

Lemma openMenuFrom_configs (c : Configured) (name : string) (previewMode grab : bool)
    (configs : list MenuConfig) :
  _menuConfigs (snd (openMenuFrom transformConfig asStructure c configs name previewMode grab))
  = _menuConfigs c.
Proof.
  induction configs as [|entry configs IH]; [reflexivity|].
  cbn [openMenuFrom]. destruct (String.eqb name (cfg_name entry)); [|exact IH].
  destruct (_openCustomMenu _ _ _ _). reflexivity.
Qed.

Lemma shortcutFrom_spec (shortcut : string) (grab : nat → bool) (configs : list MenuConfig) :
  ∀ c i,
    (∀ entry, entry ∈ configs → entry ∈ _menuConfigs c) →
    let r := shortcutFrom transformConfig asStructure c i configs shortcut grab in
    _nextID (cfg_daemon (snd r)) =
      (_nextID (cfg_daemon c) +
       Z.of_nat (length (filter (fun entry => cfg_data entry = shortcut) configs)))%Z ∧
    _menuConfigs (snd r) = _menuConfigs c ∧
    (length (fst r) ≤ length (filter (fun entry => cfg_data entry = shortcut) configs))%nat.
Proof.
  induction configs as [|entry configs IH]; intros c i Hin; cbn zeta.
  { simpl. split; [lia|]. split; [reflexivity|lia]. }
  cbn [shortcutFrom]. rewrite filter_cons.
  destruct (String.eqb_spec shortcut (cfg_data entry)) as [Hs|Hs].
  - destruct (decide (cfg_data entry = shortcut)) as [_|]; [|congruence].
    assert (Hname : cfg_name entry ∈ map cfg_name (_menuConfigs c)).
    { apply (list_elem_of_fmap_2 cfg_name). apply Hin. left. }
    pose proof (openMenuFrom_spec transformConfig asStructure c (cfg_name entry) false
                  (grab i) (_menuConfigs c)) as Hopen.
    cbn zeta in Hopen. destruct Hopen as [_ Hopen].
    destruct (Hopen Hname) as (_ & Hid & _).
    pose proof (openMenuFrom_configs c (cfg_name entry) false (grab i) (_menuConfigs c))
      as Hcfg.
    unfold _openMenu.
    destruct (openMenuFrom transformConfig asStructure c (_menuConfigs c) (cfg_name entry)
                false (grab i)) as [result c1].
    cbn [fst snd] in Hid, Hcfg.
    specialize (IH c1 (S i)). cbn zeta in IH.
    destruct IH as (IHid & IHcfg & IHlen).
    { intros e He. rewrite Hcfg. apply Hin. right. exact He. }
    destruct (shortcutFrom transformConfig asStructure c1 (S i) configs shortcut grab)
      as [notifications c2].
    cbn [fst snd] in IHid, IHcfg, IHlen |- *. cbn [length].
    split; [lia|]. split; [congruence|].
    destruct (succeeded result); simpl; lia.
  - destruct (decide (cfg_data entry = shortcut)) as [|_]; [congruence|].
    apply IH. intros e He. apply Hin. right. exact He.
Qed.

Lemma shortcutFrom_none (shortcut : string) (grab : nat → bool) (configs : list MenuConfig) :
  ∀ c i,
    filter (fun entry => cfg_data entry = shortcut) configs = [] →
    shortcutFrom transformConfig asStructure c i configs shortcut grab = ([], c).
Proof.
  induction configs as [|entry configs IH]; intros c i Hnone; [reflexivity|].
  cbn [shortcutFrom]. rewrite filter_cons in Hnone.
  destruct (decide (cfg_data entry = shortcut)) as [|Hne]; [discriminate|].
  destruct (String.eqb_spec shortcut (cfg_data entry)); [congruence|].
  apply IH. exact Hnone.
Qed.

(** X16.  When a hotkey is pressed, [ShowMenu] is called once for every
    configuration whose [data] is that hotkey: [_nextID] grows by their
    number, there are at most that many notifications, and for a hotkey that
    no configuration has nothing happens at all. *)
Theorem shortcut_pressed (c : Configured) (shortcut : string) (grab : nat → bool) :
  let r := onShortcut transformConfig asStructure c shortcut grab in
  let matching := filter (fun entry => cfg_data entry = shortcut) (_menuConfigs c) in
  _nextID (cfg_daemon (snd r)) = (_nextID (cfg_daemon c) + Z.of_nat (length matching))%Z ∧
  (length (fst r) ≤ length matching)%nat ∧
  (matching = [] → r = ([], c)).
Proof.
  cbn zeta. unfold onShortcut.
  destruct (shortcutFrom_spec shortcut grab (_menuConfigs c) c 0) as (Hid & _ & Hlen);
    [auto|].
  split; [exact Hid|]. split; [exact Hlen|].
  apply shortcutFrom_none.
Qed.

End ShortcutProperties.

(** Two menus share the hotkey [A]: the first opens as menu 4, the second
    request finds it active and is the one notification. *)
Example shortcut_shared :
  let transform := fun entry : MenuConfig => mkConfigItem (cfg_name entry) [] in
  let view := fun _ : ConfigItem => menuOf [leaf None] in
  let c := mkConfigured (mkDaemon newMenu 4)
             [mkConfig "first" "A"; mkConfig "second" "B"; mkConfig "third" "A"] None in
  fst (onShortcut transform view c "A" (fun _ => true)) = [Failed eAlreadyActive] ∧
  _nextID (cfg_daemon (snd (onShortcut transform view c "A" (fun _ => true)))) = 6%Z.
Proof. split; reflexivity. Qed.

(** ** The wedge from the last fixed angle round to the first *)

Lemma sorted_nth_gen {A : Type} (R : A → A → Prop) (d : A) (l : list A) :
  StronglySorted R l →
  ∀ i j, (i < j)%nat → (j < length l)%nat → R (nth i l d) (nth j l d).
Proof.
  induction 1 as [|a l Hl IH Ha]; intros i j Hij Hj; simpl in Hj; [lia|].
  destruct j as [|j]; [lia|]. simpl.
  destruct i as [|i].
  - rewrite Forall_forall in Ha. apply Ha, list_elem_of_In, nth_In. lia.
  - apply IH; lia.
Qed.

Lemma wedges_last (F : list FixedAngle) (st : list (option Q) * option Q) :
  (0 < length F)%nat →
  Layout.wedges F st =
  Layout.wedgeBody (nth (length F - 1) F Layout.noFixed) (nth 0 F Layout.noFixed)
    (fold_left (fun st i => Layout.wedge F i st) (seq 0 (length F - 1)) st).
Proof.
  intros Hpos. unfold Layout.wedges.
  replace (length F) with (S (length F - 1)) at 1 by lia.
  rewrite seq_S, fold_left_app. cbn [fold_left Nat.add]. unfold Layout.wedge at 1.
  replace (length F - 1 + 1)%nat with (length F) by lia.
  rewrite Nat.Div0.mod_same. reflexivity.
Qed.

Lemma between_backwards (bA eA M c : Q) :
  eA < bA → 0 < c → c < M →
  eA < bA + (eA - bA) / M * c ∧ bA + (eA - bA) / M * c < bA.
Proof.
  intros Hlt Hc HcM.
  assert (Heq : bA + (eA - bA) / M * c == (bA * (M - c) + eA * c) / M) by (field; lra).
  rewrite Heq. split.
  - apply Qlt_shift_div_l; [lra|].
    assert (H : eA * (M - c) < bA * (M - c)) by (apply Qmult_lt_compat_r; lra). lra.
  - apply Qlt_shift_div_r; [lra|].
    assert (H : eA * c < bA * c) by (apply Qmult_lt_compat_r; lra). lra.
Qed.

(** A wedge whose end angle is below its begin angle: its items get angles
    strictly between the two. *)
Lemma wedgeBody_backwards (fb fe : FixedAngle) (items : list (option Q)) (P : option Q)
    (k : nat) :
  (fa_index fb < length items)%nat → (fa_index fe < length items)%nat →
  0 <= fa_angle fe → fa_angle fe < fa_angle fb → fa_angle fb < 360 →
  (k < length items)%nat →
  between ((fa_index fb + 1) mod length items) (fa_index fe) k = true →
  ∃ a, fst (Layout.wedgeBody fb fe (items, P)) !! k = Some (Some a) ∧
       fa_angle fe < a ∧ a < fa_angle fb.
Proof.
  intros Hb He Hea Hlt Hba Hk Hbetween. unfold Layout.wedgeBody.
  set (len := length items) in *.
  assert (Hle : JS.le (fa_angle fb) (fa_angle fe) = false) by (apply le_false; exact Hlt).
  rewrite Hle.
  set (P1 := match P with
             | Some p => if JS.lt p (fa_angle fb) then Some (p + 360) else Some p
             | None => None
             end).
  assert (Hpgr : match P1 with
                 | Some p => JS.lt (fa_angle fb) p && JS.lt p (fa_angle fe)
                 | None => false
                 end = false).
  { destruct P1 as [p|]; [|reflexivity].
    destruct (JS.lt (fa_angle fb) p) eqn:H1; [|reflexivity].
    destruct (JS.lt p (fa_angle fe)) eqn:H2; [|reflexivity].
    apply lt_true in H1, H2. lra. }
  rewrite Hpgr. rewrite (turns_count len (fa_index fb) (fa_index fe) Hb He).
  set (T := turns len ((fa_index fb + 1) mod len) (fa_index fe)).
  set (gap := (fa_angle fe - fa_angle fb) / inject_Z (Z.of_nat T + 1)).
  assert (Hidx : ((fa_index fb + 1) mod len < len)%nat)
    by (apply Nat.mod_upper_bound; lia).
  assert (Hfuel : (T < S len)%nat).
  { pose proof (turns_bound len _ _ Hidx He). unfold T. lia. }
  destruct (wedgeWhile_spec len (fa_angle fb) gap P1 (fa_index fe) He (S len)
              ((fa_index fb + 1) mod len)%nat 1%Z false Hidx Hfuel) as [f Hf].
  destruct (Hf items eq_refl) as (items' & Hrun & _ & _).
  rewrite Hrun. cbn [fst].
  destruct (wedgeWhile_values len (fa_angle fb) gap P1 (fa_index fe) He (S len) _ _ _ _ _
              Hidx Hfuel eq_refl Hrun k Hk Hbetween) as (c & Hc & Hkc).
  fold T in Hc. eexists. split; [exact Hkc|].
  destruct (between_backwards (fa_angle fb) (fa_angle fe) (inject_Z (Z.of_nat T + 1))
              (inject_Z c)) as [Hlo Hhi].
  - exact Hlt.
  - change 0 with (inject_Z 0). rewrite <- Zlt_Qlt. lia.
  - rewrite <- Zlt_Qlt. lia.
  - fold gap in Hlo, Hhi. rewrite rem_below by lra. split; assumption.
Qed.

(** X17.  In a level with two or more fixed angles that is laid out, an
    item after the last fixed item or before the first one gets an angle
    strictly between the first and the last fixed angle: the wedge from the
    last fixed angle to the first is not taken round through 360 degrees
    (line 292 adds the turn only when begin is at most end). *)
Theorem wrap_wedge_between_fixed (items items' : list MenuItem) (parentAngle : option Q)
    (k : nat) :
  let F := Layout.collectFixed (map item_angle items) in
  let first := nth 0 F Layout.noFixed in
  let last := nth (length F - 1) F Layout.noFixed in
  _updateItemAngles items parentAngle = (true, items') →
  (2 ≤ length F)%nat →
  (k < length items)%nat →
  (fa_index last < k)%nat ∨ (k < fa_index first)%nat →
  ∃ item' a, items' !! k = Some item' ∧ item_angle item' = Some a ∧
             fa_angle first < a ∧ a < fa_angle last.
Proof.
  intros F first last Hrun Htwo Hk Hpos. unfold _updateItemAngles in Hrun.
  set (cols := map item_angle items) in *.
  destruct (Layout.level cols parentAngle) as [angles|] eqn:Hlevel; [|discriminate].
  injection Hrun as <-.
  assert (Hne : cols ≠ []).
  { intros E. unfold F in Htwo. rewrite E in Htwo. simpl in Htwo. lia. }
  destruct (Layout.checkFixed None (Layout.collectFixed cols)) eqn:Hcheck;
    [|rewrite level_fails in Hlevel by auto; discriminate].
  destruct (Layout.parentCollides (Layout.collectFixed cols) parentAngle) eqn:Hcoll;
    [rewrite level_fails in Hlevel by auto; discriminate|].
  destruct (level_eq cols parentAngle Hne Hcheck Hcoll)
    as (F0 & items0 & Heq & Hlen & Hsorted & Hbelow & _ & _ & Hcase).
  destruct Hcase as [(Hnil & _ & _)|[-> ->]].
  { unfold F in Htwo. rewrite Hnil in Htwo. simpl in Htwo. lia. }
  fold F in Heq, Hsorted, Hbelow.
  rewrite Heq in Hlevel. injection Hlevel as <-.
  apply checkFixed_true in Hcheck as (_ & Hangles & Hvalid). fold F in Hangles, Hvalid.
  rewrite Forall_forall in Hvalid.
  assert (Hfirst_in : first ∈ F) by (apply list_elem_of_In, nth_In; lia).
  assert (Hlast_in : last ∈ F) by (apply list_elem_of_In, nth_In; lia).
  assert (Hlt : fa_angle first < fa_angle last).
  { unfold first, last. rewrite <- !(map_nth fa_angle). apply sorted_nth_gen; [exact Hangles|lia|].
    rewrite length_map. lia. }
  assert (Hidx : (fa_index first < fa_index last)%nat).
  { apply (idx_mono F Hsorted); lia. }
  destruct (Hvalid (fa_angle first)) as [Hf0 _];
    [apply (list_elem_of_fmap_2 fa_angle); exact Hfirst_in|].
  destruct (Hvalid (fa_angle last)) as [_ Hl360];
    [apply (list_elem_of_fmap_2 fa_angle); exact Hlast_in|].
  rewrite wedges_last by lia.
  destruct (wedges_fold_spec F (length cols) Hbelow (seq 0 (length F - 1))) with (P := parentAngle)
    as (g & P' & Hmid).
  { intros i Hi. apply elem_of_seq in Hi. lia. }
  destruct (Hmid cols eq_refl) as (mid & -> & Hlenmid & _).
  assert (Hklen : (k < length cols)%nat) by (unfold cols; rewrite length_map; exact Hk).
  destruct (wedgeBody_backwards last first mid P' k) as (a & Ha & Hlo & Hhi).
  - rewrite Hlenmid. apply Hbelow. exact Hlast_in.
  - rewrite Hlenmid. apply Hbelow. exact Hfirst_in.
  - exact Hf0.
  - exact Hlt.
  - exact Hl360.
  - rewrite Hlenmid. exact Hklen.
  - rewrite Hlenmid.
    pose proof (Hbelow last Hlast_in) as Hlb.
    rewrite next_index by exact Hlb.
    destruct (Nat.eqb_spec (fa_index last + 1) (length cols)); unfold between; nat_cases.
  - destruct (lookup_lt_is_Some_2 items k Hk) as [item Hitem].
    exists (resolve item (Some a)), a. split; [|split; [apply resolve_angle|split; assumption]].
    unfold resolveAll. rewrite lookup_zip_with, Hitem.
    fold first last. rewrite Ha. reflexivity.
Qed.

Lemma wrap_wedge_between_fixed_witness :
  ∃ item' a, snd (_updateItemAngles [leaf (Some 10); leaf (Some 20); leaf None] None) !! 2%nat
               = Some item' ∧
             item_angle item' = Some a ∧ 10 < a ∧ a < 20.
Proof.
  apply (wrap_wedge_between_fixed [leaf (Some 10); leaf (Some 20); leaf None] _ None 2).
  - reflexivity.
  - simpl. lia.
  - simpl. lia.
  - left. simpl. lia.
Defined.

(** A menu with fixed angles right and left: the free item between them and
    the free item after them change places. *)
Example right_and_left_fixed :
  map (fun item => Qred <$> item_angle item)
      (snd (_updateItemAngles [leaf (Some 90); leaf None; leaf (Some 270); leaf None] None))
  = [Some 90; Some 0; Some 270; Some 180].
Proof. reflexivity. Qed.

(** ** The session and its guard *)

(** X18.  After [show] has opened a menu with an id other than [0], every
    further [show] is answered with [eAlreadyActive] and leaves the menu as
    it is, until the menu is hidden. *)
Theorem show_while_active (m m' : Menu) (menuID id : Z) (structure : Structure)
    (editMode grab : bool) (menuID2 : Z) (structure2 : Structure) (editMode2 grab2 : bool) :
  show m menuID structure editMode grab = (Opened id, m') →
  menuID ≠ 0%Z →
  show m' menuID2 structure2 editMode2 grab2 = (Failed eAlreadyActive, m').
Proof.
  intros Hshow Hid. apply show_rejected.
  assert (Hstored : _menuID m' = Some menuID).
  { revert Hshow. unfold show. destruct (menuID_truthy (_menuID m)); [discriminate|].
    destruct (str_items structure) as [[|first others]|]; [discriminate| |discriminate].
    destruct (_updateItemAngles (first :: others) None) as [[|] items1]; [|discriminate].
    destruct grab; [|discriminate]. cbn [negb]. intros [= _ <-]. reflexivity. }
  rewrite Hstored. simpl. apply negb_true_iff, Z.eqb_neq. exact Hid.
Qed.

Lemma show_while_active_witness :
  let m' := snd (show newMenu 3 (menuOf [leaf None]) false true) in
  show m' 4 (menuOf [leaf None; leaf None]) true true = (Failed eAlreadyActive, m').
Proof.
  intros m'.
  apply (show_while_active newMenu m' 3 3 (menuOf [leaf None]) false true).
  - reflexivity.
  - discriminate.
Defined.

(** X19.  A menu that [_openCustomMenu] opened in preview mode holds the id
    that was returned, and the release of a mouse button, the right one
    included, calls nothing and leaves the menu as it is: in edit mode the
    handler of lines 51-56 does not get past its test. *)
Theorem preview_ignores_buttons (d d' : Daemon) (config : Structure) (grab : bool)
    (id button : Z) :
  _openCustomMenu d config true grab = (Opened id, d') →
  _menuID (_menu d') = Some id ∧
  handleEvent (_menu d') (button_release_event button) = ([], _menu d').
Proof.
  unfold _openCustomMenu.
  destruct (show (_menu d) (_nextID d) config true grab) as [r m1] eqn:Hshow.
  intros [= -> <-]. cbn [_menu].
  assert (H : _menuID m1 = Some id ∧ _editMode m1 = true).
  { revert Hshow. unfold show. destruct (menuID_truthy (_menuID (_menu d))); [discriminate|].
    destruct (str_items config) as [[|first others]|]; [discriminate| |discriminate].
    destruct (_updateItemAngles (first :: others) None) as [[|] items1]; [|discriminate].
    destruct grab; [|discriminate]. cbn [negb]. intros [= <- <-]. split; reflexivity. }
  destruct H as [Hid Hmode]. split; [exact Hid|].
  unfold handleEvent. rewrite Hmode, andb_false_r. reflexivity.
Qed.

Lemma preview_ignores_buttons_witness :
  let d' := snd (PreviewCustomMenu newDaemon (menuOf [leaf None]) true) in
  _menuID (_menu d') = Some 0%Z ∧
  handleEvent (_menu d') (button_release_event 3) = ([], _menu d').
Proof.
  intros d'.
  apply (preview_ignores_buttons newDaemon d' (menuOf [leaf None]) true 0 3).
  reflexivity.
Defined.

(** ** Ids of sessions, over sequences of requests *)

Section RequestProperties.

Variable JSON_parse : string → Parsed.
Variable handle : Menu → BackgroundEvent → Menu.

Lemma openCustomMenu_id (d : Daemon) (structure : Structure) (previewMode grab : bool) :
  let r := _openCustomMenu d structure previewMode grab in
  _nextID (snd r) = (_nextID d + 1)%Z ∧
  fst r ≠ Failed eInvalidJSON ∧
  (∀ id, fst r = Opened id → id = _nextID d).
Proof.
  cbn zeta. unfold _openCustomMenu.
  destruct (show (_menu d) (_nextID d) structure previewMode grab) as [r m1] eqn:Hshow.
  cbn [fst snd _nextID]. split; [reflexivity|]. split.
  - intros ->.
    destruct (show_codes (_menu d) (_nextID d) structure previewMode grab eInvalidJSON)
      as [_ H]; [rewrite Hshow; reflexivity|congruence].
  - intros id ->. apply (show_gives_menuID (_menu d) _ _ structure previewMode grab).
    rewrite Hshow. reflexivity.
Qed.

Lemma openCustomMenuConfig_id (d : Daemon) (config : Config) (previewMode grab : bool) :
  let r := _openCustomMenuConfig JSON_parse d config previewMode grab in
  _nextID (snd r) = (_nextID d + if reachesShow JSON_parse config then 1 else 0)%Z ∧
  (fst r = Failed eInvalidJSON ↔ reachesShow JSON_parse config = false) ∧
  (reachesShow JSON_parse config = false → snd r = d) ∧
  (∀ id, fst r = Opened id → id = _nextID d).
Proof.
  cbn zeta. unfold _openCustomMenuConfig, reachesShow.
  destruct config as [s|structure]; [destruct (JSON_parse s) as [| |structure]|].
  - cbn [fst snd]. split; [lia|]. split; [tauto|]. split; [reflexivity|discriminate].
  - cbn [fst snd _nextID]. split; [reflexivity|]. split; [|split; [discriminate|discriminate]].
    split; [|discriminate]. destruct (menuID_truthy _); discriminate.
  - destruct (openCustomMenu_id d structure previewMode grab) as (Hid & Hcode & Hopened).
    split; [exact Hid|]. split; [|split; [discriminate|exact Hopened]].
    split; [contradiction|discriminate].
  - destruct (openCustomMenu_id d structure previewMode grab) as (Hid & Hcode & Hopened).
    split; [exact Hid|]. split; [|split; [discriminate|exact Hopened]].
    split; [contradiction|discriminate].
Qed.

Lemma opened_reachesShow (d : Daemon) (config : Config) (previewMode grab : bool) (id : Z) :
  fst (_openCustomMenuConfig JSON_parse d config previewMode grab) = Opened id →
  reachesShow JSON_parse config = true.
Proof.
  intros Hopen. destruct (reachesShow JSON_parse config) eqn:Hr; [reflexivity|].
  destruct (openCustomMenuConfig_id d config previewMode grab) as (_ & Hcode & _).
  apply Hcode in Hr. congruence.
Qed.

Lemma idsTaken_bounds (steps : list Step) :
  (0 ≤ idsTaken JSON_parse steps ≤ Z.of_nat (length steps))%Z.
Proof.
  induction steps as [|[config previewMode grab|ev] steps IH]; cbn [idsTaken length].
  - lia.
  - destruct (reachesShow JSON_parse config); lia.
  - lia.
Qed.

Lemma run_ids (steps : list Step) :
  ∀ d, _nextID (snd (run JSON_parse handle d steps)) =
         (_nextID d + idsTaken JSON_parse steps)%Z ∧
       StronglySorted Z.lt (openedIDs (fst (run JSON_parse handle d steps))) ∧
       Forall (fun id => (_nextID d ≤ id < _nextID d + idsTaken JSON_parse steps)%Z)
              (openedIDs (fst (run JSON_parse handle d steps))).
Proof.
  induction steps as [|s steps IH]; intros d.
  { simpl. split; [lia|]. split; constructor. }
  cbn [run idsTaken]. destruct s as [config previewMode grab|ev]; cbn [step].
  - destruct (openCustomMenuConfig_id d config previewMode grab) as (Hid & _ & _ & Hopened).
    pose proof (opened_reachesShow d config previewMode grab) as Hreach.
    destruct (_openCustomMenuConfig JSON_parse d config previewMode grab) as [r d1].
    cbn [fst snd] in Hid, Hopened, Hreach.
    specialize (IH d1). destruct (run JSON_parse handle d1 steps) as [rs d2].
    cbn [fst snd] in IH |- *. destruct IH as (Hnext & Hsorted & Hall).
    pose proof (idsTaken_bounds steps) as Hb.
    assert (Hstep : (_nextID d ≤ _nextID d1)%Z)
      by (rewrite Hid; destruct (reachesShow JSON_parse config); lia).
    split; [lia|].
    assert (Hall' : Forall (fun id => (_nextID d ≤ id <
                       _nextID d + ((if reachesShow JSON_parse config then 1 else 0) +
                                    idsTaken JSON_parse steps))%Z) (openedIDs rs)).
    { eapply Forall_impl; [exact Hall|]. intros id Hid'. simpl in Hid'. lia. }
    destruct r as [code|id]; [split; assumption|].
    rewrite (Hopened id eq_refl) in *. rewrite (Hreach (_nextID d) eq_refl) in *.
    change (openedIDs (Opened (_nextID d) :: rs)) with (_nextID d :: openedIDs rs).
    split.
    + constructor; [exact Hsorted|].
      eapply Forall_impl; [exact Hall|]. intros id' Hid'. simpl in Hid'. lia.
    + constructor; [lia|exact Hall'].
  - specialize (IH (mkDaemon (handle (_menu d) ev) (_nextID d))).
    destruct (run JSON_parse handle (mkDaemon (handle (_menu d) ev) (_nextID d)) steps)
      as [rs d2].
    exact IH.
Qed.

(** X6.  Over any sequence of requests for custom menus, as objects or as
    JSON strings, and of events of the menu, whatever the handlers make of
    the menu, the ids that the requests return are strictly increasing, so
    no id is returned twice; each lies from the [_nextID] the daemon started
    with up to, not including, that number plus the number of steps.  The
    counter stays within the integers that JavaScript numbers count
    exactly. *)
Theorem ids_increase (d : Daemon) (steps : list Step) :
  (0 ≤ _nextID d)%Z →
  (_nextID d + Z.of_nat (length steps) ≤ maxExact)%Z →
  let ids := openedIDs (fst (run JSON_parse handle d steps)) in
  StronglySorted Z.lt ids ∧
  NoDup ids ∧
  Forall (fun id => (_nextID d ≤ id < _nextID d + Z.of_nat (length steps))%Z) ids ∧
  (_nextID d ≤ _nextID (snd (run JSON_parse handle d steps)) ≤ maxExact)%Z.
Proof.
  intros Hlow Hhigh ids. unfold ids.
  destruct (run_ids steps d) as (Hnext & Hsorted & Hall).
  pose proof (idsTaken_bounds steps) as Hb.
  split; [exact Hsorted|]. split; [|split].
  - clear Hall. induction Hsorted as [|id l _ IH Hlt]; [constructor|].
    apply NoDup_cons. split; [|exact IH].
    intros Hin. rewrite Forall_forall in Hlt. specialize (Hlt id Hin). lia.
  - eapply Forall_impl; [exact Hall|]. intros id Hid. simpl in Hid. lia.
  - lia.
Qed.

(** X20.  A request takes an id exactly when it gets to [show]: when its
    [config] is an object or a string that [JSON.parse] accepts, whatever
    [show] answers.  A string that does not parse is answered with
    [eInvalidJSON], and only such a request is, and it leaves the daemon as
    it was.  So after the steps [before] the counter is the [_nextID] of the
    start plus the number of requests that got to [show], and that is the
    id the next request returns when it returns one. *)
Theorem ids_count_requests (d : Daemon) (before : list Step) (config : Config)
    (previewMode grab : bool) :
  (0 ≤ _nextID d)%Z →
  (_nextID d + Z.of_nat (length before) < maxExact)%Z →
  let d1 := snd (run JSON_parse handle d before) in
  let r := _openCustomMenuConfig JSON_parse d1 config previewMode grab in
  _nextID d1 = (_nextID d + idsTaken JSON_parse before)%Z ∧
  _nextID (snd r) = (_nextID d1 + if reachesShow JSON_parse config then 1 else 0)%Z ∧
  (fst r = Failed eInvalidJSON ↔ reachesShow JSON_parse config = false) ∧
  (reachesShow JSON_parse config = false → snd r = d1) ∧
  (∀ id, fst r = Opened id → id = (_nextID d + idsTaken JSON_parse before)%Z).
Proof.
  intros _ _ d1 r. unfold r, d1.
  destruct (run_ids before d) as (Hnext & _ & _).
  destruct (openCustomMenuConfig_id (snd (run JSON_parse handle d before)) config
              previewMode grab) as (Hid & Hcode & Hsame & Hopened).
  split; [exact Hnext|]. split; [exact Hid|]. split; [exact Hcode|].
  split; [exact Hsame|].
  intros id Hr. rewrite <- Hnext. apply Hopened. exact Hr.
Qed.

End RequestProperties.

(** A [JSON.parse] for three strings, handlers that leave the menu as it
    is, and a new daemon.  The string that does not parse takes no id; the
    menu opened as number [0] passes for no menu, so the later requests get
    to [show] as well, and the last one opens menu [3]. *)
Lemma ids_increase_witness :
  let parse := fun s : string =>
    if String.eqb s "{" then SyntaxError
    else if String.eqb s "null" then parsed_null
    else parsed (menuOf [leaf None; leaf None]) in
  let steps := [request (json "{") false true;
                request (object (menuOf [leaf None])) false true;
                request (object (menuOf [])) false true;
                event edit_cancel;
                request (json "null") true true;
                request (json "menu") true true] in
  let ids := openedIDs (fst (run parse (fun m _ => m) newDaemon steps)) in
  ids = [0; 3]%Z ∧
  StronglySorted Z.lt ids ∧
  NoDup ids ∧
  Forall (fun id => (0 ≤ id < 0 + Z.of_nat (length steps))%Z) ids ∧
  (0 ≤ _nextID (snd (run parse (fun m _ => m) newDaemon steps)) ≤ maxExact)%Z.
Proof.
  intros parse steps ids. split; [vm_compute; reflexivity|].
  apply (ids_increase parse (fun m _ => m) newDaemon steps).
  - vm_compute. discriminate.
  - vm_compute. discriminate.
Defined.

Lemma ids_count_requests_witness :
  let parse := fun s : string =>
    if String.eqb s "{" then SyntaxError
    else if String.eqb s "null" then parsed_null
    else parsed (menuOf [leaf None; leaf None]) in
  let before := [request (json "{") false true;
                 request (object (menuOf [leaf None])) false true;
                 request (object (menuOf [])) false true;
                 event edit_cancel;
                 request (json "null") true true] in
  let d1 := snd (run parse (fun m _ => m) newDaemon before) in
  fst (_openCustomMenuConfig parse d1 (json "menu") true true) = Opened 3 ∧
  3%Z = (_nextID newDaemon + idsTaken parse before)%Z.
Proof.
  intros parse before d1. split; [vm_compute; reflexivity|].
  destruct (ids_count_requests parse (fun m _ => m) newDaemon before (json "menu") true true)
    as (_ & _ & _ & _ & Hopened).
  - vm_compute. discriminate.
  - vm_compute. reflexivity.
  - apply Hopened. vm_compute. reflexivity.
Defined.

(** The results of the requests in full, for a daemon whose counter is at
    [7]: menu [7] stays open, and the requests that get to [show] find it
    active, the one that meets [null] too. *)
Example requests_and_results :
  let parse := fun s : string =>
    if String.eqb s "{" then SyntaxError
    else if String.eqb s "null" then parsed_null
    else parsed (menuOf [leaf None; leaf None]) in
  let r := run parse (fun m _ => m) (mkDaemon newMenu 7)
             [request (object (menuOf [leaf None])) false true;
              request (json "{") false true;
              event (button_release_event 3);
              request (json "null") true true;
              request (json "menu") true true] in
  fst r = [Opened 7; Failed eInvalidJSON; Failed eAlreadyActive; Failed eAlreadyActive] ∧
  _nextID (snd r) = 10%Z.
Proof. vm_compute. split; reflexivity. Qed.


(** ** When a level can be laid out *)

(** X21.  A level is laid out whenever its fixed angles, in the order of
    the list, are strictly increasing and from 0 up to, not including, 360,
    and the parent angle is missing, is [0], or differs by 1 or more from
    each of them; what the levels below look like plays no part. *)
Theorem layout_succeeds (items : list MenuItem) (parentAngle : option Q) :
  StronglySorted Qlt (fixedAnglesOf items) →
  Forall (fun a => 0 <= a ∧ a < 360) (fixedAnglesOf items) →
  match parentAngle with
  | Some p => p == 0 ∨ Forall (fun a => 1 <= Qabs (a - p)) (fixedAnglesOf items)
  | None => True
  end →
  fst (_updateItemAngles items parentAngle) = true.
Proof.
  intros Hsorted Hrange Hparent. unfold _updateItemAngles, Layout.level.
  destruct (Nat.eqb (length (map item_angle items)) 0); [reflexivity|].
  unfold fixedAnglesOf in *.
  rewrite (checkFixed_sorted _ None I Hsorted Hrange). cbn [negb].
  assert (Hcoll : Layout.parentCollides (Layout.collectFixed (map item_angle items))
                    parentAngle = false).
  { unfold Layout.parentCollides. destruct parentAngle as [p|]; [|reflexivity].
    simpl. destruct (JS.truthy p) eqn:Hp; [|reflexivity].
    destruct Hparent as [H0|Hfar]; [apply truthy_true in Hp; contradiction|].
    destruct (existsb _ _) eqn:Hex; [|reflexivity].
    apply existsb_exists in Hex as (f & Hf & Hnear). apply lt_true in Hnear.
    rewrite Forall_forall in Hfar.
    specialize (Hfar (fa_angle f)
                  (list_elem_of_fmap_2 fa_angle _ f (proj2 (list_elem_of_In _ _) Hf))).
    exfalso. exact (Qlt_not_le _ _ Hnear Hfar). }
  rewrite Hcoll. destruct (Nat.eqb _ 0); reflexivity.
Qed.

Lemma layout_succeeds_witness :
  fst (_updateItemAngles [leaf (Some 10); node None [leaf (Some 50); leaf (Some 40)];
                          leaf (Some 200)] (Some 100)) = true.
Proof.
  apply layout_succeeds.
  - apply SSorted_cons; [apply SSorted_cons; [apply SSorted_nil|apply List.Forall_nil]|].
    apply List.Forall_cons; [reflexivity|apply List.Forall_nil].
  - apply List.Forall_cons; [split; [discriminate|reflexivity]|].
    apply List.Forall_cons; [split; [discriminate|reflexivity]|apply List.Forall_nil].
  - right. apply List.Forall_cons; [discriminate|].
    apply List.Forall_cons; [discriminate|apply List.Forall_nil].
Defined.
